(** * CPU scheduling simulator: FCFS, SJF, Priority and Round Robin

    A shallow embedding of [main.py] (the four policy engines, the
    dispatch of the "Run Simulation" button and [calculate_metrics])
    together with the properties stated about them.

    Python integers are modelled by [Z], the row dictionaries by records,
    Python's insertion-ordered [dict] by an association list that keeps the
    position of a key on update, and the [while] loops by the iteration of
    a one-iteration step function, bounded by the number of times the loop
    condition may be evaluated.  [list.sort] sorts the caller's list in
    place, so every engine also returns the list the caller holds
    afterwards.  The data frame of [calculate_metrics] is the list of its
    rows; the mean of a column is the binary64 number pandas returns, a
    floating-point sum divided by the count, each operation rounded to 53
    significant bits. *)

From Stdlib Require Import ZArith String List Bool Lia Permutation Sorted.
From Stdlib Require Import QArith Qround Qabs Qpower Lqa SpecFloat.
From Stdlib Require Import DecimalString DecimalNat FinFun.
Import ListNotations.
Open Scope string_scope.
Open Scope list_scope.
Open Scope Z_scope.

Set Implicit Arguments.

(** ** Data *)

(** A row [{'pid': .., 'arrival': .., 'burst': .., 'priority': ..}]; the
    key ['priority'] is the field [prio], [priority] being the engine. *)
Record Process := mkProcess {
  pid : string;
  arrival : Z;
  burst : Z;
  prio : Z
}.

(** A Gantt entry [{'pid': .., 'start': .., 'end': ..}]. *)
Record Event := mkEvent {
  e_pid : string;
  e_start : Z;
  e_end : Z
}.

(** A value of the [results] dictionary. *)
Record Completion := mkCompletion {
  r_arrival : Z;
  r_burst : Z;
  r_completion : Z
}.

(** The pid that [fcfs] gives to the entries of an idle CPU. *)
Definition IDLE : string := "IDLE".

(** Exceptions the engines can raise. *)
Inductive error := IndexError | KeyError.

(** Result of running a loop with a bound on the number of evaluations of
    its condition. *)
Inductive outcome (A : Type) :=
| Done (a : A)
| Raise (e : error)
| OutOfFuel.
Arguments Done {A} a.
Arguments Raise {A} e.
Arguments OutOfFuel {A}.

(** ** Python dictionaries (insertion ordered) *)

Section Dict.
Variable V : Type.

Definition dict := list (string * V).

Fixpoint dict_get (d : dict) (k : string) : option V :=
  match d with
  | [] => None
  | (k', v) :: d' => if String.eqb k' k then Some v else dict_get d' k
  end.

(** [d[k] = v]: an existing key keeps its position, a new key goes last. *)
Fixpoint dict_set (d : dict) (k : string) (v : V) : dict :=
  match d with
  | [] => [(k, v)]
  | (k', v') :: d' =>
      if String.eqb k' k then (k', v) :: d' else (k', v') :: dict_set d' k v
  end.

Definition dict_keys (d : dict) : list string := map fst d.

Definition dict_len (d : dict) : nat := length d.
End Dict.

(** ** [list.sort(key=...)]: a stable sort *)

Section Sort.
Variable A : Type.
Variable key : A -> Z.

Fixpoint insert_by (x : A) (l : list A) : list A :=
  match l with
  | [] => [x]
  | y :: l' => if key x <=? key y then x :: y :: l' else y :: insert_by x l'
  end.

Fixpoint sort_by (l : list A) : list A :=
  match l with
  | [] => []
  | x :: l' => insert_by x (sort_by l')
  end.
End Sort.

(** ** FCFS *)

(** One iteration of [for p in processes] on [(time, gantt, results)]. *)
Definition fcfs_body (st : Z * list Event * dict Completion) (p : Process)
  : Z * list Event * dict Completion :=
  let '(time, gantt, results) := st in
  let '(time, gantt) :=
    if time <? arrival p
    then (arrival p, gantt ++ [mkEvent IDLE time (arrival p)])
    else (time, gantt) in
  let start := time in
  let end_ := start + burst p in
  (end_,
   gantt ++ [mkEvent (pid p) start end_],
   dict_set results (pid p) (mkCompletion (arrival p) (burst p) end_)).

Definition fcfs (processes : list Process)
  : list Process * outcome (list Event * dict Completion) :=
  let processes := sort_by arrival processes in
  let '(_, gantt, results) := fold_left fcfs_body processes (0, [], []) in
  (processes, Done (gantt, results)).

(** ** The admission loop shared by SJF, Priority and Round Robin

    [while i < len(processes) and processes[i]['arrival'] <= time:
       ready.append(processes[i]); i += 1] *)

Fixpoint enqueue_from (rest : list Process) (time : Z) (i : nat)
  (ready : list Process) : nat * list Process :=
  match rest with
  | [] => (i, ready)
  | p :: rest' =>
      if arrival p <=? time
      then enqueue_from rest' time (S i) (ready ++ [p])
      else (i, ready)
  end.

Definition enqueue (processes : list Process) (time : Z) (i : nat)
  (ready : list Process) : nat * list Process :=
  enqueue_from (skipn i processes) time i ready.

(** ** SJF and Priority

    The two functions have the same text up to the key of [ready.sort]. *)

Record sel_state := mkSel {
  s_time : Z;
  s_i : nat;
  s_ready : list Process;
  s_gantt : list Event;
  s_results : dict Completion
}.

Definition sel_cond (processes : list Process) (st : sel_state) : bool :=
  (dict_len (s_results st) <? length processes)%nat.

(** One iteration of the [while] loop. *)
Definition sel_step (key : Process -> Z) (processes : list Process)
  (st : sel_state) : error + sel_state :=
  let '(i, ready) := enqueue processes (s_time st) (s_i st) (s_ready st) in
  match ready with
  | [] =>
      match nth_error processes i with
      | None => inl IndexError
      | Some q => inr (mkSel (arrival q) i ready (s_gantt st) (s_results st))
      end
  | _ :: _ =>
      match sort_by key ready with
      | [] => inl IndexError
      | p :: ready' =>
          let start := s_time st in
          let end_ := start + burst p in
          inr (mkSel end_ i ready'
                 (s_gantt st ++ [mkEvent (pid p) start end_])
                 (dict_set (s_results st) (pid p)
                    (mkCompletion (arrival p) (burst p) end_)))
      end
  end.

Fixpoint sel_loop (key : Process -> Z) (processes : list Process)
  (fuel : nat) (st : sel_state) : outcome (list Event * dict Completion) :=
  match fuel with
  | O => OutOfFuel
  | S fuel' =>
      if sel_cond processes st then
        match sel_step key processes st with
        | inl e => Raise e
        | inr st' => sel_loop key processes fuel' st'
        end
      else Done (s_gantt st, s_results st)
  end.

Definition sel_init (time : Z) : sel_state := mkSel time 0 [] [] [].

Definition sel_engine (key : Process -> Z) (fuel : nat)
  (processes : list Process)
  : list Process * outcome (list Event * dict Completion) :=
  let processes := sort_by arrival processes in
  (processes,
   match processes with
   | [] => Raise IndexError
   | p0 :: _ => sel_loop key processes fuel (sel_init (arrival p0))
   end).

Definition sjf := sel_engine burst.

Definition priority := sel_engine prio.

(** ** Round Robin *)

Record rr_state := mkRR {
  rr_time : Z;
  rr_gantt : list Event;
  rr_ready : list Process;
  rr_remaining : dict Z;
  rr_completed : dict Z;
  rr_i : nat
}.

Definition rr_cond (processes : list Process) (st : rr_state) : bool :=
  (dict_len (rr_completed st) <? length processes)%nat.

(** One iteration of the [while] loop. *)
Definition rr_step (processes : list Process) (quantum : Z) (st : rr_state)
  : error + rr_state :=
  let '(i, ready) := enqueue processes (rr_time st) (rr_i st) (rr_ready st) in
  match ready with
  | [] =>
      match nth_error processes i with
      | None => inl IndexError
      | Some q =>
          inr (mkRR (arrival q) (rr_gantt st) ready (rr_remaining st)
                 (rr_completed st) i)
      end
  | p :: ready =>
      match dict_get (rr_remaining st) (pid p) with
      | None => inl KeyError
      | Some rem =>
          let run_time := Z.min quantum rem in
          let start := rr_time st in
          let end_ := start + run_time in
          let gantt := rr_gantt st ++ [mkEvent (pid p) start end_] in
          let remaining := dict_set (rr_remaining st) (pid p) (rem - run_time) in
          let time := end_ in
          let '(i, ready) := enqueue processes time i ready in
          match dict_get remaining (pid p) with
          | None => inl KeyError
          | Some rem' =>
              if 0 <? rem'
              then inr (mkRR time gantt (ready ++ [p]) remaining
                          (rr_completed st) i)
              else inr (mkRR time gantt ready remaining
                          (dict_set (rr_completed st) (pid p) time) i)
          end
      end
  end.

Fixpoint rr_loop (processes : list Process) (quantum : Z) (fuel : nat)
  (st : rr_state) : outcome rr_state :=
  match fuel with
  | O => OutOfFuel
  | S fuel' =>
      if rr_cond processes st then
        match rr_step processes quantum st with
        | inl e => Raise e
        | inr st' => rr_loop processes quantum fuel' st'
        end
      else Done st
  end.

(** [{p['pid']: p['burst'] for p in processes}] *)
Definition rr_remaining_init (processes : list Process) : dict Z :=
  fold_left (fun d p => dict_set d (pid p) (burst p)) processes [].

(** [{p['pid']: {.., 'completion': completed[p['pid']]} for p in processes}] *)
Fixpoint rr_results (completed : dict Z) (processes : list Process)
  (acc : dict Completion) : outcome (dict Completion) :=
  match processes with
  | [] => Done acc
  | p :: rest =>
      match dict_get completed (pid p) with
      | None => Raise KeyError
      | Some c =>
          rr_results completed rest
            (dict_set acc (pid p) (mkCompletion (arrival p) (burst p) c))
      end
  end.

Definition rr_init (processes : list Process) (time : Z) : rr_state :=
  mkRR time [] [] (rr_remaining_init processes) [] 0.

Definition round_robin (fuel : nat) (processes : list Process) (quantum : Z)
  : list Process * outcome (list Event * dict Completion) :=
  let processes := sort_by arrival processes in
  (processes,
   match processes with
   | [] => Raise IndexError
   | p0 :: _ =>
       match rr_loop processes quantum fuel (rr_init processes (arrival p0)) with
       | Done st =>
           match rr_results (rr_completed st) processes [] with
           | Done results => Done (rr_gantt st, results)
           | Raise e => Raise e
           | OutOfFuel => OutOfFuel
           end
       | Raise e => Raise e
       | OutOfFuel => OutOfFuel
       end
   end).

(** ** The dispatch of the "Run Simulation" button *)

(** The four entries of the algorithm select box. *)
Inductive algo := FCFS | SJF | Priority | RoundRobin.

Definition simulate (a : algo) (quantum : Z) (fuel : nat)
  (processes : list Process)
  : list Process * outcome (list Event * dict Completion) :=
  match a with
  | FCFS => fcfs processes
  | SJF => sjf fuel processes
  | Priority => priority fuel processes
  | RoundRobin => round_robin fuel processes quantum
  end.

(** ** Metrics *)

Record MetricsRow := mkRow {
  m_pid : string;
  m_arrival : Z;
  m_burst : Z;
  m_completion : Z;
  m_turnaround : Z;
  m_waiting : Z
}.

Definition metrics_row (kv : string * Completion) : MetricsRow :=
  let '(k, r) := kv in
  let tat := r_completion r - r_arrival r in
  let wt := tat - r_burst r in
  mkRow k (r_arrival r) (r_burst r) (r_completion r) tat wt.

Definition zsum (l : list Z) : Z := fold_right Z.add 0 l.

(** *** Binary64 arithmetic

    The averages are floating-point numbers.  A binary64 number is
    modelled by its value, a rational, and an operation by the exact
    operation followed by [f64_round], the rounding to 53 significant
    bits, ties to even.  The exponent range of binary64 is left out: it is
    reached only beyond 2^1023, far from the 64-bit integers of a data
    frame. *)

(** The integer nearest to [y], the even one of the two when [y] lies
    halfway. *)
Definition round_half_even (y : Q) : Z :=
  let f := Qfloor y in
  match (y - inject_Z f ?= 1 # 2)%Q with
  | Lt => f
  | Gt => f + 1
  | Eq => if Z.even f then f else f + 1
  end.

(** For [x > 0], the integer [k] with [2^k <= x < 2^(k+1)]. *)
Definition ilog2 (x : Q) : Z :=
  let d := Z.log2 (Qnum x) - Z.log2 (Zpos (Qden x)) in
  if Qle_bool (2 ^ d) x then d else d - 1.

(** For [x > 0]: the significand is [x] scaled into [2^52, 2^53) and
    rounded to an integer. *)
Definition round_pos (x : Q) : Q :=
  let e := ilog2 x - 52 in
  Qred (inject_Z (round_half_even (x / 2 ^ e)) * 2 ^ e).

Definition f64_round (x : Q) : Q :=
  match Qnum x with
  | Z0 => 0%Q
  | Zpos _ => round_pos x
  | Zneg _ => (- round_pos (- x))%Q
  end.

(** The conversion of an integer of the column to binary64. *)
Definition f64_of_int (z : Z) : Q := f64_round (inject_Z z).

Definition f64_add (a b : Q) : Q := f64_round (a + b).

Definition f64_div (a b : Q) : Q := f64_round (a / b).

(** The sum of an integer column in binary64: every integer is converted
    and added to the running sum, from the first row on.  (numpy adds a
    column of eight or more rows in blocks; the order plays no part as
    long as the partial sums are exact, see [f64_sum_exact].) *)
Definition f64_sum (l : list Z) : Q :=
  fold_left (fun acc x => f64_add acc (f64_of_int x)) l 0%Q.

(** [Series.mean()] of an integer column: the binary64 sum divided by the
    number of rows; the mean of an empty column is not a number. *)
Definition mean (l : list Z) : option Q :=
  match l with
  | [] => None
  | _ :: _ => Some (f64_div (f64_sum l) (f64_of_int (Z.of_nat (length l))))
  end.

Definition calculate_metrics (results : dict Completion)
  : list MetricsRow * option Q * option Q :=
  let df := map metrics_row results in
  let avg_wt := mean (map m_waiting df) in
  let avg_tat := mean (map m_turnaround df) in
  (df, avg_wt, avg_tat).

(** ** Vocabulary of the specification *)

Definition mem_str (k : string) (l : list string) : bool :=
  existsb (String.eqb k) l.

Fixpoint nodupb (l : list string) : bool :=
  match l with
  | [] => true
  | k :: l' => negb (mem_str k l') && nodupb l'
  end.

(** A valid ProcessSet: unique pids, every arrival >= 0, every burst > 0. *)
Definition validb (ps : list Process) : bool :=
  nodupb (map pid ps)
  && forallb (fun p => (0 <=? arrival p) && (0 <? burst p)) ps.

Definition duration (e : Event) : Z := e_end e - e_start e.

(** Sum of the durations of the events of a timeline that carry pid [k]. *)
Fixpoint busy (k : string) (g : list Event) : Z :=
  match g with
  | [] => 0
  | e :: g' => (if String.eqb (e_pid e) k then duration e else 0) + busy k g'
  end.

(** [event[i].end == event[i+1].start] for all [i]. *)
Definition contiguous (g : list Event) : Prop :=
  forall i e1 e2,
    nth_error g i = Some e1 -> nth_error g (S i) = Some e2 ->
    e_end e1 = e_start e2.

(** [event[i].end <= event[i+1].start] for all [i]. *)
Definition non_overlapping (g : list Event) : Prop :=
  forall i e1 e2,
    nth_error g i = Some e1 -> nth_error g (S i) = Some e2 ->
    e_end e1 <= e_start e2.

(** The events of [g] lie between [t0] and [t1], each related by [R] to
    the end of the one before it (to [t0] for the first). *)
Fixpoint chain (R : Z -> Z -> Prop) (t0 : Z) (g : list Event) (t1 : Z) : Prop :=
  match g with
  | [] => R t0 t1
  | e :: g' => R t0 (e_start e) /\ chain R (e_end e) g' t1
  end.

(** Order of two elements by their sort key. *)
Definition key_le (A : Type) (key : A -> Z) (a b : A) : Prop := key a <= key b.

Definition total_burst (ps : list Process) : Z := zsum (map burst ps).

(** The earliest arrival of a process list. *)
Definition min_arrival (ps : list Process) : option Z :=
  match ps with
  | [] => None
  | p :: ps' => Some (fold_left Z.min (map arrival ps') (arrival p))
  end.

(** Loop-condition evaluations that suffice for a valid process list. *)
Definition fuel_bound (ps : list Process) : nat :=
  2 * Z.to_nat (total_burst ps) + 2.

(** CPU time still owed by SJF or Priority: the bursts of the processes
    without a completion record. *)
Definition pending (done : list string) (ps : list Process) : Z :=
  total_burst (filter (fun p => negb (mem_str (pid p) done)) ps).

Definition sel_work (ps : list Process) (st : sel_state) : Z :=
  pending (dict_keys (s_results st)) ps.

(** CPU time still owed by Round Robin: the sum of the remaining bursts. *)
Definition rem_of (remaining : dict Z) (p : Process) : Z :=
  match dict_get remaining (pid p) with
  | Some r => r
  | None => 0
  end.

Definition rr_work (ps : list Process) (st : rr_state) : Z :=
  zsum (map (rem_of (rr_remaining st)) ps).

(** States at the head of the [while] loop of SJF or Priority. *)
Inductive sel_reach (key : Process -> Z) (ps : list Process)
  : sel_state -> Prop :=
| sel_reach_init p0 rest :
    ps = p0 :: rest -> sel_reach key ps (sel_init (arrival p0))
| sel_reach_step st st' :
    sel_reach key ps st -> sel_cond ps st = true ->
    sel_step key ps st = inr st' -> sel_reach key ps st'.

(** States at the head of the [while] loop of Round Robin. *)
Inductive rr_reach (ps : list Process) (quantum : Z) : rr_state -> Prop :=
| rr_reach_init p0 rest :
    ps = p0 :: rest -> rr_reach ps quantum (rr_init ps (arrival p0))
| rr_reach_step st st' :
    rr_reach ps quantum st -> rr_cond ps st = true ->
    rr_step ps quantum st = inr st' -> rr_reach ps quantum st'.

(** The last event of a timeline, and the time at which it ends ([a0] for
    the empty timeline). *)
Fixpoint last_event (g : list Event) : option Event :=
  match g with
  | [] => None
  | e :: g' =>
      match g' with
      | [] => Some e
      | _ :: _ => last_event g'
      end
  end.

Definition last_end (a0 : Z) (g : list Event) : Z :=
  match last_event g with
  | Some e => e_end e
  | None => a0
  end.

(** [e2] runs a process of [ps] and starts at the later of the end of [e1]
    and the arrival of that process. *)
Definition linked (ps : list Process) (e1 e2 : Event) : Prop :=
  exists p,
    In p ps /\ pid p = e_pid e2 /\
    e_start e2 = Z.max (e_end e1) (arrival p).

(** Every event of [g] is related by [R] to the one after it. *)
Fixpoint links (R : Event -> Event -> Prop) (g : list Event) : Prop :=
  match g with
  | [] => True
  | e1 :: g' =>
      match g' with
      | [] => True
      | e2 :: _ => R e1 e2
      end /\ links R g'
  end.

(** A gap in the timeline is the wait for the process that runs next. *)
Definition gaps_are_waits (ps : list Process) (g : list Event) : Prop :=
  forall i e1 e2,
    nth_error g i = Some e1 -> nth_error g (S i) = Some e2 ->
    linked ps e1 e2.

(** Invariant of the [while] loop of SJF and Priority, for a process list
    sorted by arrival whose first arrival is [a0]. *)
Record sel_inv (ps : list Process) (a0 : Z) (st : sel_state) : Prop := {
  sel_i_le : (s_i st <= length ps)%nat;
  sel_perm :
    Permutation (map pid (s_ready st) ++ dict_keys (s_results st))
      (map pid (firstn (s_i st) ps));
  sel_ready_in : incl (s_ready st) ps;
  sel_ready_arrived : Forall (fun p => arrival p <= s_time st) (s_ready st);
  sel_busy_none :
    forall k, ~ In k (dict_keys (s_results st)) -> busy k (s_gantt st) = 0;
  sel_busy_done :
    forall p, In p ps -> In (pid p) (dict_keys (s_results st)) ->
      busy (pid p) (s_gantt st) = burst p /\
      exists c,
        dict_get (s_results st) (pid p)
        = Some (mkCompletion (arrival p) (burst p) c) /\
        arrival p + burst p <= c;
  sel_chain : chain Z.le a0 (s_gantt st) (s_time st);
  sel_head :
    match s_gantt st with
    | [] => s_time st = a0
    | e :: _ => e_start e = a0
    end;
  sel_lengths : length (s_gantt st) = dict_len (s_results st);
  sel_links : links (linked ps) (s_gantt st);
  sel_last : last_end a0 (s_gantt st) <= s_time st;
  sel_jump :
    last_end a0 (s_gantt st) < s_time st ->
    s_ready st = [] /\
    exists q, nth_error ps (s_i st) = Some q /\ arrival q = s_time st
}.

(** 1 when the next iteration of SJF or Priority finds no ready process. *)
Definition sel_flag (ps : list Process) (st : sel_state) : Z :=
  match snd (enqueue ps (s_time st) (s_i st) (s_ready st)) with
  | [] => 1
  | _ :: _ => 0
  end.

(** What one iteration of SJF or Priority achieves: it retires work, or it
    moves the clock forward to the arrival of the next process. *)
Definition sel_progress (ps : list Process) (st st' : sel_state) : Prop :=
  (sel_work ps st' < sel_work ps st /\ s_time st <= s_time st') \/
  (sel_work ps st' = sel_work ps st /\ s_time st < s_time st' /\
   exists q, nth_error ps (s_i st') = Some q /\ s_time st' = arrival q).

(** Invariant of the [while] loop of Round Robin, for a process list whose
    first arrival is [a0]. *)
Record rr_inv (ps : list Process) (a0 : Z) (st : rr_state) : Prop := {
  rr_i_le : (rr_i st <= length ps)%nat;
  rr_perm :
    Permutation (map pid (rr_ready st) ++ dict_keys (rr_completed st))
      (map pid (firstn (rr_i st) ps));
  rr_ready_in : incl (rr_ready st) ps;
  rr_account :
    forall p, In p ps ->
      exists r,
        dict_get (rr_remaining st) (pid p) = Some r /\
        busy (pid p) (rr_gantt st) + r = burst p /\
        (In (pid p) (dict_keys (rr_completed st)) -> r = 0) /\
        (~ In (pid p) (dict_keys (rr_completed st)) -> 0 < r);
  rr_chain : chain Z.le a0 (rr_gantt st) (rr_time st);
  rr_head :
    match rr_gantt st with
    | [] => rr_time st = a0
    | e :: _ => e_start e = a0
    end;
  rr_lengths : (dict_len (rr_completed st) <= length (rr_gantt st))%nat;
  rr_links : links (linked ps) (rr_gantt st);
  rr_last : last_end a0 (rr_gantt st) <= rr_time st;
  rr_jump :
    last_end a0 (rr_gantt st) < rr_time st ->
    rr_ready st = [] /\
    exists q, nth_error ps (rr_i st) = Some q /\ arrival q = rr_time st;
  rr_ready_arrived : Forall (fun p => arrival p <= rr_time st) (rr_ready st)
}.

(** 1 when the next iteration of Round Robin finds an empty queue. *)
Definition rr_flag (ps : list Process) (st : rr_state) : Z :=
  match snd (enqueue ps (rr_time st) (rr_i st) (rr_ready st)) with
  | [] => 1
  | _ :: _ => 0
  end.

(** What one iteration of Round Robin achieves. *)
Definition rr_progress (ps : list Process) (st st' : rr_state) : Prop :=
  (rr_work ps st' < rr_work ps st /\ rr_time st <= rr_time st') \/
  (rr_work ps st' = rr_work ps st /\ rr_time st < rr_time st' /\
   exists q, nth_error ps (rr_i st') = Some q /\ rr_time st' = arrival q).

(** The queue after one slice of Round Robin: when [p] is at the front of
    the queue once the arrivals up to the clock are in, the slice leaves the
    rest of the queue, then the processes not yet queued whose arrival is
    within the bound [upto] of the new clock, then [p] if it is unfinished. *)
Definition rr_slice_spec (upto : Z -> Z -> bool) (ps : list Process)
  (quantum : Z) (st : rr_state) : Prop :=
  forall i1 p rq rem,
    enqueue ps (rr_time st) (rr_i st) (rr_ready st) = (i1, p :: rq) ->
    dict_get (rr_remaining st) (pid p) = Some rem ->
    let run_time := Z.min quantum rem in
    let clock := rr_time st + run_time in
    exists st',
      rr_step ps quantum st = inr st' /\
      rr_time st' = clock /\
      rr_ready st' =
        rq ++ filter (fun q => upto (arrival q) clock) (skipn i1 ps)
           ++ (if 0 <? rem - run_time then [p] else []).

(** Sum of the durations of the events with pid [k], the events of an
    idle CPU left out. *)
Fixpoint busy_non_idle (k : string) (g : list Event) : Z :=
  match g with
  | [] => 0
  | e :: g' =>
      (if String.eqb (e_pid e) k && negb (String.eqb (e_pid e) IDLE)
       then duration e else 0) + busy_non_idle k g'
  end.

(** Every iteration of the main loop of an engine, from a state the loop
    can be in, makes progress.  The loop of FCFS is a [for] over the list. *)
Definition engine_progress (a : algo) (quantum : Z) (ps : list Process)
  : Prop :=
  match a with
  | FCFS => True
  | SJF =>
      forall st, sel_reach burst ps st -> sel_cond ps st = true ->
        exists st', sel_step burst ps st = inr st' /\ sel_progress ps st st'
  | Priority =>
      forall st, sel_reach prio ps st -> sel_cond ps st = true ->
        exists st', sel_step prio ps st = inr st' /\ sel_progress ps st st'
  | RoundRobin =>
      forall st, rr_reach ps quantum st -> rr_cond ps st = true ->
        exists st',
          rr_step ps quantum st = inr st' /\ rr_progress ps st st'
  end.

(** The process list the caller holds after an engine ran. *)
Definition processes_after (a : algo) (quantum : Z) (fuel : nat)
  (processes : list Process) : list Process :=
  fst (simulate a quantum fuel processes).

Definition P (k : string) (a b : Z) : Process := mkProcess k a b 1.

(** ** The whole run *)

(** What the "Run Simulation" button computes before it displays anything:
    the engine chosen by the select box, then the metrics of its
    completion records. *)
Definition run_simulation (a : algo) (quantum : Z) (fuel : nat)
  (processes : list Process)
  : outcome (list Event * (list MetricsRow * option Q * option Q)) :=
  match snd (simulate a quantum fuel processes) with
  | Done (gantt, results) => Done (gantt, calculate_metrics results)
  | Raise e => Raise e
  | OutOfFuel => OutOfFuel
  end.

(** The event [e] runs a process of [ps] in one piece, from its start to
    the completion recorded for it in [results]. *)
Definition runs_whole (results : dict Completion) (ps : list Process)
  (e : Event) : Prop :=
  exists p,
    In p ps /\ e_pid e = pid p /\ e_end e = e_start e + burst p /\
    arrival p <= e_start e /\
    dict_get results (pid p)
    = Some (mkCompletion (arrival p) (burst p) (e_end e)).

(** The events of a timeline that are not named as idle time. *)
Definition process_events (g : list Event) : list Event :=
  filter (fun e => negb (String.eqb (e_pid e) IDLE)) g.

(** No process is named as idle time. *)
Definition no_idle_pid (ps : list Process) : bool :=
  negb (mem_str IDLE (map pid ps)).

(** The event [e] is an idle gap of FCFS: it is not empty. *)
Definition idle_gap (e : Event) : Prop :=
  e_pid e = IDLE /\ e_start e < e_end e.

(** What the loop of SJF and Priority keeps about the events it emitted. *)
Record sel_events (ps : list Process) (st : sel_state) : Prop := {
  sel_ev_keys : map e_pid (s_gantt st) = dict_keys (s_results st);
  sel_ev_whole : Forall (runs_whole (s_results st) ps) (s_gantt st)
}.

(** The event [e] is a slice of a process of [ps] that has arrived: it is
    not empty and no longer than the quantum. *)
Definition slice_of (ps : list Process) (quantum : Z) (e : Event) : Prop :=
  e_start e < e_end e /\ e_end e - e_start e <= quantum /\
  exists p, In p ps /\ e_pid e = pid p /\ arrival p <= e_start e.

(** [c] is the end of the last slice with pid [k] in [g]. *)
Definition last_slice_end (g : list Event) (k : string) (c : Z) : Prop :=
  (exists e, In e g /\ e_pid e = k /\ e_end e = c) /\
  forall e, In e g -> e_pid e = k -> e_end e <= c.

(** What the loop of Round Robin keeps about the slices it emitted. *)
Record rr_events (ps : list Process) (quantum : Z) (st : rr_state)
  : Prop := {
  rr_ev_slices : Forall (slice_of ps quantum) (rr_gantt st);
  rr_ev_past : Forall (fun e => e_end e <= rr_time st) (rr_gantt st);
  rr_ev_lag :
    forall p, In p ps ->
      busy (pid p) (rr_gantt st) = 0 \/
      arrival p + busy (pid p) (rr_gantt st) <= rr_time st;
  rr_ev_comp :
    forall p c, In p ps -> dict_get (rr_completed st) (pid p) = Some c ->
      arrival p + burst p <= c /\ last_slice_end (rr_gantt st) (pid p) c
}.

(** Number of events of a timeline that carry pid [k]. *)
Fixpoint slices (k : string) (g : list Event) : Z :=
  match g with
  | [] => 0
  | e :: g' => (if String.eqb (e_pid e) k then 1 else 0) + slices k g'
  end.

(** What the loop of Round Robin keeps about the number of slices: an
    unfinished process has had full slices only, a finished one as many
    slices as its burst needs. *)
Record rr_counts (ps : list Process) (quantum : Z) (st : rr_state)
  : Prop := {
  rr_full :
    forall p, In p ps -> ~ In (pid p) (dict_keys (rr_completed st)) ->
      busy (pid p) (rr_gantt st) = quantum * slices (pid p) (rr_gantt st);
  rr_enough :
    forall p, In p ps -> In (pid p) (dict_keys (rr_completed st)) ->
      quantum * (slices (pid p) (rr_gantt st) - 1) < burst p
      <= quantum * slices (pid p) (rr_gantt st)
}.

(** What the loop of SJF and Priority keeps on any process list, valid or
    not: the processes queued or already run are the ones admitted. *)
Record sel_any (ps : list Process) (st : sel_state) : Prop := {
  sel_any_i : (s_i st <= length ps)%nat;
  sel_any_perm :
    Permutation (map pid (s_ready st) ++ map e_pid (s_gantt st))
      (map pid (firstn (s_i st) ps));
  sel_any_keys :
    NoDup (map pid ps) -> dict_keys (s_results st) = map e_pid (s_gantt st)
}.

(** Serving the processes of [ps] one after the other from time [t],
    each one whole, waiting for an arrival when there is nothing to run. *)
Fixpoint serve (t : Z) (ps : list Process) : list Event :=
  match ps with
  | [] => []
  | p :: ps' =>
      let s := Z.max t (arrival p) in
      mkEvent (pid p) s (s + burst p) :: serve (s + burst p) ps'
  end.

(** The event [e] runs some process of [ps] for the whole of its burst. *)
Definition whole_burst (ps : list Process) (e : Event) : Prop :=
  exists p, In p ps /\ e_pid e = pid p /\ e_end e = e_start e + burst p.

(** What the loop of Round Robin keeps when no burst exceeds the quantum:
    the processes already run, then the queue, are the admitted processes
    in their order, and every slice is a whole burst. *)
Record rr_fifo (ps : list Process) (st : rr_state) : Prop := {
  fifo_order :
    map e_pid (rr_gantt st) ++ map pid (rr_ready st)
    = map pid (firstn (rr_i st) ps);
  fifo_whole : Forall (whole_burst ps) (rr_gantt st)
}.

(** ** The default process table *)

(** [f"P{i+1}"] *)
Definition default_pid (i : nat) : string :=
  String.append "P" (NilEmpty.string_of_uint (Nat.to_uint (i + 1))).

(** The table the page proposes for [n] processes: pids P1, P2, ...,
    arrivals 0, 1, ..., and bursts and priorities drawn by
    [random.randint]; the draws are the lists [bursts] and [prios]. *)
Definition default_data (n : nat) (bursts prios : list Z) : list Process :=
  map (fun i =>
         mkProcess (default_pid i) (Z.of_nat i) (nth i bursts 0)
           (nth i prios 0))
      (seq 0 n).

(** ** Binary64 numbers and exact means *)

(** The binary64 numbers, without the bounds on the exponent: a
    significand of at most 53 bits times a power of two. *)
Definition representable (x : Q) : Prop :=
  exists m j, Z.abs m < 2 ^ 53 /\ (x == inject_Z m * 2 ^ j)%Q.

(** [f] is a binary64 number nearest to [x]. *)
Definition nearest (x f : Q) : Prop :=
  representable f /\
  forall g, representable g -> (Qabs (f - x) <= Qabs (g - x))%Q.

(** The arithmetic mean of a column, as a rational. *)
Definition exact_mean (l : list Z) : Q :=
  (inject_Z (zsum l) / inject_Z (Z.of_nat (length l)))%Q.

(** A column that binary64 sums without rounding, in any order. *)
Definition small_column (l : list Z) : Prop :=
  zsum (map Z.abs l) <= 2 ^ 53 /\ Z.of_nat (length l) <= 2 ^ 53.

(** [q] is the exact mean of [l] rounded once: a binary64 number nearest
    to it, within a relative error of 2^-53, and equal to it exactly when
    the exact mean is a binary64 number. *)
Definition rounded_mean (l : list Z) (q : Q) : Prop :=
  nearest (exact_mean l) q /\
  (Qabs (q - exact_mean l)
   <= Qabs (exact_mean l) * (1 # 9007199254740992))%Q /\
  ((q == exact_mean l)%Q <-> representable (exact_mean l)).

(** What [round_pos] computes for [x > 0]: the exponent [e] and the
    significand [m]. *)
Record scaled (x : Q) (e m : Z) : Prop := {
  sc_round : (round_pos x == inject_Z m * 2 ^ e)%Q;
  sc_lo : (4503599627370496 * 2 ^ e <= x)%Q;
  sc_hi : (x < 9007199254740992 * 2 ^ e)%Q;
  sc_m_lo : 4503599627370496 <= m;
  sc_m_hi : m <= 9007199254740992
}.

(** The same operations in the Standard Library's specification of IEEE
    754 binary64 ([SpecFloat], precision 53, [emax] 1024), to compare
    with. *)
Definition b64_of_Z (z : Z) : spec_float := binary_normalize 53 1024 z 0 false.

Definition b64_value (f : spec_float) : option Q :=
  match f with
  | S754_zero _ => Some 0%Q
  | S754_finite s m e =>
      Some (Qred (inject_Z (if s then Z.neg m else Z.pos m) * 2 ^ e))
  | _ => None
  end.

(** * Properties *)

(** ** Dictionaries *)

Section DictFacts.
Variable V : Type.
Implicit Types (d : dict V) (k : string) (v : V).

Lemma dict_get_set_same d k v : dict_get (dict_set d k v) k = Some v.
Proof.
  induction d as [|[k' v'] d IH]; simpl.
  - now rewrite String.eqb_refl.
  - destruct (String.eqb k' k) eqn:E; simpl; rewrite E; auto.
Qed.

Lemma dict_get_set_other d k k' v :
  k <> k' -> dict_get (dict_set d k v) k' = dict_get d k'.
Proof.
  intros Hne. induction d as [|[k0 v0] d IH]; simpl.
  - destruct (String.eqb_spec k k'); congruence.
  - destruct (String.eqb_spec k0 k); simpl.
    + subst. destruct (String.eqb_spec k k'); congruence.
    + destruct (String.eqb_spec k0 k'); auto.
Qed.

Lemma dict_keys_set_new d k v :
  ~ In k (dict_keys d) -> dict_keys (dict_set d k v) = dict_keys d ++ [k].
Proof.
  induction d as [|[k0 v0] d IH]; simpl; intros Hn; auto.
  destruct (String.eqb_spec k0 k).
  - exfalso. auto.
  - simpl. f_equal. apply IH. tauto.
Qed.

Lemma dict_keys_set_old d k v :
  In k (dict_keys d) -> dict_keys (dict_set d k v) = dict_keys d.
Proof.
  induction d as [|[k0 v0] d IH]; simpl; intros Hin; [tauto|].
  destruct (String.eqb_spec k0 k); simpl; auto.
  f_equal. apply IH. destruct Hin; congruence.
Qed.

Lemma dict_get_some_in d k v : dict_get d k = Some v -> In k (dict_keys d).
Proof.
  induction d as [|[k0 v0] d IH]; simpl; [discriminate|].
  destruct (String.eqb_spec k0 k); auto.
Qed.

Lemma dict_in_get d k : In k (dict_keys d) -> exists v, dict_get d k = Some v.
Proof.
  induction d as [|[k0 v0] d IH]; simpl; [tauto|].
  intros [->|Hin].
  - rewrite String.eqb_refl. eauto.
  - destruct (String.eqb k0 k); eauto.
Qed.

Lemma dict_len_keys d : dict_len d = length (dict_keys d).
Proof. unfold dict_len, dict_keys. now rewrite length_map. Qed.

Lemma dict_keys_set_in d k k' v :
  In k' (dict_keys (dict_set d k v)) <-> In k' (dict_keys d) \/ k' = k.
Proof.
  induction d as [|[k0 v0] d IH]; simpl.
  - intuition.
  - destruct (String.eqb_spec k0 k); simpl.
    + subst. intuition.
    + rewrite IH. intuition.
Qed.
End DictFacts.

Lemma mem_str_In k l : mem_str k l = true <-> In k l.
Proof.
  unfold mem_str. rewrite existsb_exists. split.
  - intros [x [Hin Heq]]. apply String.eqb_eq in Heq. now subst.
  - intros Hin. exists k. split; auto. apply String.eqb_refl.
Qed.

Lemma mem_str_false k l : mem_str k l = false <-> ~ In k l.
Proof.
  rewrite <- mem_str_In. destruct (mem_str k l); intuition congruence.
Qed.

Lemma nodupb_NoDup l : nodupb l = true -> NoDup l.
Proof.
  induction l as [|k l IH]; simpl; intros H; constructor.
  - apply andb_prop in H as [H _]. apply negb_true_iff in H.
    now apply mem_str_false.
  - apply andb_prop in H as [_ H]. auto.
Qed.

(** ** The stable sort *)

Section SortFacts.
Variable A : Type.
Variable key : A -> Z.

Lemma insert_by_perm x l : Permutation (insert_by key x l) (x :: l).
Proof.
  induction l as [|y l IH]; simpl; auto.
  destruct (key x <=? key y); auto.
  rewrite IH. apply perm_swap.
Qed.

Lemma sort_by_perm l : Permutation (sort_by key l) l.
Proof.
  induction l as [|x l IH]; simpl; auto.
  rewrite insert_by_perm. auto.
Qed.

Lemma insert_by_sorted x l :
  StronglySorted (key_le key) l -> StronglySorted (key_le key) (insert_by key x l).
Proof.
  induction 1 as [|y l Hs IH Hall]; simpl.
  - repeat constructor.
  - destruct (Z.leb_spec (key x) (key y)).
    + constructor; [constructor; auto|].
      constructor; [assumption|].
      eapply Forall_impl; [|exact Hall].
      unfold key_le. intros; lia.
    + constructor; auto.
      eapply Permutation_Forall; [symmetry; apply insert_by_perm|].
      constructor; auto. unfold key_le. lia.
Qed.

Lemma sort_by_sorted l : StronglySorted (key_le key) (sort_by key l).
Proof.
  induction l; simpl; [constructor | now apply insert_by_sorted].
Qed.

Lemma sort_by_fixed l : StronglySorted (key_le key) l -> sort_by key l = l.
Proof.
  induction 1 as [|x l Hs IH Hall]; simpl; auto.
  rewrite IH. destruct l as [|y l]; simpl; auto.
  inversion Hall as [|? ? Hxy _]; subst. unfold key_le in Hxy.
  destruct (Z.leb_spec (key x) (key y)); [reflexivity | lia].
Qed.

Lemma sort_by_length l : length (sort_by key l) = length l.
Proof. apply Permutation_length, sort_by_perm. Qed.
End SortFacts.

(** ** Lists, timelines and the admission loop *)

Lemma split_at (A : Type) (l1 l2 : list A) :
  firstn (length l1) (l1 ++ l2) = l1 /\ skipn (length l1) (l1 ++ l2) = l2.
Proof.
  induction l1 as [|x l1 [IH1 IH2]]; simpl; auto.
  split; [now rewrite IH1 | exact IH2].
Qed.

Lemma zsum_app l1 l2 : zsum (l1 ++ l2) = zsum l1 + zsum l2.
Proof. induction l1; simpl; lia. Qed.

Lemma busy_app k g1 g2 : busy k (g1 ++ g2) = busy k g1 + busy k g2.
Proof. induction g1; simpl; lia. Qed.

Lemma busy_snoc_same k g s e :
  busy k (g ++ [mkEvent k s e]) = busy k g + (e - s).
Proof.
  rewrite busy_app. simpl. rewrite String.eqb_refl. unfold duration. simpl. lia.
Qed.

Lemma busy_snoc_other k k' g s e :
  k' <> k -> busy k (g ++ [mkEvent k' s e]) = busy k g.
Proof.
  intros Hne. rewrite busy_app. simpl.
  destruct (String.eqb_spec k' k); [congruence | lia].
Qed.

Lemma chain_le_snoc g : forall t0 t1 e t2,
  chain Z.le t0 g t1 -> t1 <= e_start e -> e_end e <= t2 ->
  chain Z.le t0 (g ++ [e]) t2.
Proof.
  induction g as [|e0 g IH]; simpl; intros t0 t1 e t2 Hc H1 H2.
  - split; lia.
  - destruct Hc. split; eauto.
Qed.

Lemma chain_le_advance g : forall t0 t1 t2,
  chain Z.le t0 g t1 -> t1 <= t2 -> chain Z.le t0 g t2.
Proof.
  induction g as [|e g IH]; simpl; intros t0 t1 t2 Hc Hle; [lia|].
  destruct Hc; eauto.
Qed.

Lemma chain_eq_snoc g : forall t0 t1 e,
  chain eq t0 g t1 -> e_start e = t1 ->
  chain eq t0 (g ++ [e]) (e_end e).
Proof.
  induction g as [|e0 g IH]; simpl; intros t0 t1 e Hc Hs.
  - split; congruence.
  - destruct Hc. split; eauto.
Qed.

Lemma chain_eq_contiguous g : forall t0 t1,
  chain eq t0 g t1 -> contiguous g.
Proof.
  induction g as [|e g IH]; intros t0 t1 Hc i e1 e2 H1 H2.
  - destruct i; discriminate.
  - destruct Hc as [_ Hc]. destruct i as [|i]; simpl in H1, H2.
    + injection H1 as <-. destruct g as [|e' g]; [discriminate|].
      injection H2 as <-. now destruct Hc.
    + eapply IH; eauto.
Qed.

Lemma chain_le_non_overlapping g : forall t0 t1,
  chain Z.le t0 g t1 -> non_overlapping g.
Proof.
  induction g as [|e g IH]; intros t0 t1 Hc i e1 e2 H1 H2.
  - destruct i; discriminate.
  - destruct Hc as [_ Hc]. destruct i as [|i]; simpl in H1, H2.
    + injection H1 as <-. destruct g as [|e' g]; [discriminate|].
      injection H2 as <-. now destruct Hc.
    + eapply IH; eauto.
Qed.

Lemma last_event_snoc g e : last_event (g ++ [e]) = Some e.
Proof.
  induction g as [|x g IH]; simpl; auto.
  rewrite IH. now destruct (g ++ [e]) eqn:E; [destruct g; discriminate|].
Qed.

Lemma last_end_snoc a0 g e : last_end a0 (g ++ [e]) = e_end e.
Proof. unfold last_end. now rewrite last_event_snoc. Qed.

Lemma links_snoc (R : Event -> Event -> Prop) g e :
  links R g ->
  (forall e0, last_event g = Some e0 -> R e0 e) ->
  links R (g ++ [e]).
Proof.
  induction g as [|x g IH]; simpl; intros Hl Hlast; auto.
  destruct Hl as [Hx Hl]. destruct g as [|y g]; simpl in *.
  - auto.
  - split; [exact Hx|]. apply IH; auto.
Qed.

Lemma links_nth (R : Event -> Event -> Prop) g :
  links R g ->
  forall i e1 e2,
    nth_error g i = Some e1 -> nth_error g (S i) = Some e2 -> R e1 e2.
Proof.
  induction g as [|x g IH]; intros Hl i e1 e2 H1 H2.
  - destruct i; discriminate.
  - destruct Hl as [Hx Hl]. destruct i as [|i]; simpl in H1, H2.
    + injection H1 as <-. destruct g as [|y g]; [discriminate|].
      now injection H2 as <-.
    + eapply IH; eauto.
Qed.

Lemma enqueue_from_spec rest : forall t i ready i' ready',
  enqueue_from rest t i ready = (i', ready') ->
  exists new tail,
    rest = new ++ tail /\ ready' = ready ++ new /\
    i' = (i + length new)%nat /\
    Forall (fun q => arrival q <= t) new /\
    (forall q, hd_error tail = Some q -> t < arrival q).
Proof.
  induction rest as [|p rest IH]; simpl; intros t i ready i' ready' H.
  - injection H as <- <-. exists [], [].
    repeat split; simpl; auto using app_nil_r. discriminate.
  - destruct (Z.leb_spec (arrival p) t) as [Hle|Hgt].
    + apply IH in H as (new & tail & -> & -> & -> & Hall & Htl).
      exists (p :: new), tail. rewrite <- app_assoc. simpl.
      repeat split; auto; lia.
    + injection H as <- <-. exists [], (p :: rest).
      repeat split; simpl; auto using app_nil_r. intros q [= <-]. lia.
Qed.

Lemma nth_error_split (A : Type) (l1 l2 : list A) :
  nth_error (l1 ++ l2) (length l1) = hd_error l2.
Proof. induction l1; simpl; auto. Qed.

Lemma enqueue_spec ps t i ready i' ready' :
  (i <= length ps)%nat ->
  enqueue ps t i ready = (i', ready') ->
  exists new,
    ready' = ready ++ new /\
    firstn i' ps = firstn i ps ++ new /\
    i' = (i + length new)%nat /\ (i' <= length ps)%nat /\
    Forall (fun q => arrival q <= t) new /\
    (forall q, nth_error ps i' = Some q -> t < arrival q) /\
    incl new (skipn i ps).
Proof.
  intros Hi H. unfold enqueue in H.
  apply enqueue_from_spec in H as (new & tail & Hsk & -> & -> & Hall & Htl).
  assert (Hps : ps = (firstn i ps ++ new) ++ tail).
  { rewrite <- app_assoc, <- Hsk. symmetry. apply firstn_skipn. }
  assert (Hlen : length (firstn i ps ++ new) = (i + length new)%nat).
  { rewrite length_app, length_firstn. lia. }
  exists new. split; [reflexivity|].
  destruct (split_at (firstn i ps ++ new) tail) as [Hf Hs].
  rewrite Hlen, <- Hps in Hf.
  repeat split; auto.
  - apply (f_equal (@length _)) in Hps. rewrite length_app, Hlen in Hps. lia.
  - intros q Hq. apply Htl. rewrite Hps, <- Hlen in Hq.
    now rewrite nth_error_split in Hq.
  - rewrite Hsk. apply incl_appl, incl_refl.
Qed.

(** ** FCFS *)

Lemma fcfs_body_eq t g r p :
  fcfs_body (t, g, r) p =
  (Z.max t (arrival p) + burst p,
   (if t <? arrival p then g ++ [mkEvent IDLE t (arrival p)] else g)
     ++ [mkEvent (pid p) (Z.max t (arrival p)) (Z.max t (arrival p) + burst p)],
   dict_set r (pid p)
     (mkCompletion (arrival p) (burst p) (Z.max t (arrival p) + burst p))).
Proof.
  unfold fcfs_body.
  destruct (Z.ltb_spec t (arrival p));
    rewrite ?Z.max_r, ?Z.max_l by lia; reflexivity.
Qed.

Lemma fcfs_chain l : forall t0 t g r t' g' r',
  chain eq t0 g t ->
  fold_left fcfs_body l (t, g, r) = (t', g', r') ->
  chain eq t0 g' t'.
Proof.
  induction l as [|p l IH]; cbn [fold_left map length In]; intros t0 t g r t' g' r' Hc H.
  - now injection H as <- <- <-.
  - rewrite fcfs_body_eq in H. eapply IH; [|exact H].
    set (e := mkEvent (pid p) _ _).
    change (Z.max t (arrival p) + burst p) with (e_end e).
    destruct (Z.ltb_spec t (arrival p)).
    + eapply chain_eq_snoc; [|simpl; rewrite Z.max_r by lia; reflexivity].
      change (arrival p) with (e_end (mkEvent IDLE t (arrival p))).
      eapply chain_eq_snoc; eauto.
    + eapply chain_eq_snoc; eauto. simpl. lia.
Qed.

Lemma fcfs_events l : forall t g r t' g' r',
  fold_left fcfs_body l (t, g, r) = (t', g', r') ->
  exists g2,
    g' = g ++ g2 /\ (length l <= length g2)%nat /\
    (forall e, hd_error g2 = Some e -> e_start e = t) /\
    (forall p, In p l -> exists e, In e g2 /\ e_pid e = pid p).
Proof.
  induction l as [|p l IH]; cbn [fold_left map length In]; intros t g r t' g' r' H.
  - injection H as <- <- <-. exists []. rewrite app_nil_r.
    repeat split; simpl; auto; [discriminate | tauto].
  - rewrite fcfs_body_eq in H. apply IH in H as (g2 & -> & Hlen & _ & Hin).
    set (e := mkEvent (pid p) _ _) in *.
    destruct (Z.ltb_spec t (arrival p)).
    + exists ([mkEvent IDLE t (arrival p); e] ++ g2).
      rewrite <- !app_assoc. simpl. repeat split; auto; try lia.
      * now intros e0 [= <-].
      * intros q [<-|Hq]; [exists e; auto|].
        destruct (Hin q Hq) as (e0 & He0 & Hp). exists e0. auto.
    + exists ([e] ++ g2).
      rewrite <- !app_assoc. simpl. repeat split; auto; try lia.
      * intros e0 [= <-]. simpl. lia.
      * intros q [<-|Hq]; [exists e; auto|].
        destruct (Hin q Hq) as (e0 & He0 & Hp). exists e0. auto.
Qed.

Lemma fcfs_first p0 rest t g r :
  fold_left fcfs_body (p0 :: rest) (0, [], []) = (t, g, r) ->
  exists g2,
    g = (if 0 <? arrival p0 then [mkEvent IDLE 0 (arrival p0)] else [])
        ++ mkEvent (pid p0) (Z.max 0 (arrival p0))
             (Z.max 0 (arrival p0) + burst p0) :: g2.
Proof.
  cbn [fold_left]. rewrite fcfs_body_eq. intros H.
  apply fcfs_events in H as (g2 & -> & _). exists g2.
  destruct (0 <? arrival p0); simpl; reflexivity.
Qed.

Lemma fcfs_busy l : forall t g r t' g' r',
  NoDup (map pid l) ->
  fold_left fcfs_body l (t, g, r) = (t', g', r') ->
  forall k, k <> IDLE ->
    (~ In k (map pid l) -> busy k g' = busy k g) /\
    (forall p, In p l -> pid p = k -> busy k g' = busy k g + burst p).
Proof.
  induction l as [|p l IH]; cbn [fold_left map length In]; intros t g r t' g' r' Hnd H k Hk.
  - injection H as <- <- <-. split; [reflexivity | tauto].
  - rewrite fcfs_body_eq in H. inversion Hnd as [|? ? Hnotin Hnd']; subst.
    destruct (IH _ _ _ _ _ _ Hnd' H k Hk) as [IH1 IH2].
    assert (Hidle : forall g0,
      busy k (if t <? arrival p then g0 ++ [mkEvent IDLE t (arrival p)] else g0)
      = busy k g0).
    { intros g0. destruct (t <? arrival p); auto.
      apply busy_snoc_other. congruence. }
    split.
    + intros Hn. rewrite IH1 by tauto.
      rewrite busy_snoc_other by tauto. apply Hidle.
    + intros q [<-|Hq] Hpk.
      * subst k. rewrite IH1 by assumption.
        rewrite busy_snoc_same, Hidle. lia.
      * rewrite (IH2 q Hq Hpk). f_equal.
        rewrite busy_snoc_other; [apply Hidle|].
        intros Heq. apply Hnotin. rewrite Heq, <- Hpk. now apply in_map.
Qed.

Lemma fcfs_results l : forall t g r t' g' r',
  NoDup (map pid l) ->
  fold_left fcfs_body l (t, g, r) = (t', g', r') ->
  (forall k, ~ In k (map pid l) -> dict_get r' k = dict_get r k) /\
  (forall p, In p l ->
     exists c, dict_get r' (pid p) = Some (mkCompletion (arrival p) (burst p) c)
               /\ arrival p + burst p <= c).
Proof.
  induction l as [|p l IH]; cbn [fold_left map length In]; intros t g r t' g' r' Hnd H.
  - injection H as <- <- <-. split; [reflexivity | tauto].
  - rewrite fcfs_body_eq in H. inversion Hnd as [|? ? Hnotin Hnd']; subst.
    destruct (IH _ _ _ _ _ _ Hnd' H) as [IH1 IH2]. split.
    + intros k Hn. rewrite IH1 by tauto. apply dict_get_set_other. tauto.
    + intros q [<-|Hq]; [|auto].
      rewrite IH1 by assumption. rewrite dict_get_set_same.
      eexists. split; [reflexivity | lia].
Qed.

(** ** SJF and Priority *)

Lemma NoDup_pid_inj ps p q :
  NoDup (map pid ps) -> In p ps -> In q ps -> pid p = pid q -> p = q.
Proof.
  induction ps as [|x ps IH]; simpl; [tauto|].
  intros Hnd Hp Hq Heq. inversion Hnd as [|? ? Hn Hnd']; subst.
  destruct Hp as [<-|Hp], Hq as [<-|Hq]; auto.
  - exfalso. apply Hn. rewrite Heq. now apply in_map.
  - exfalso. apply Hn. rewrite <- Heq. now apply in_map.
Qed.

Lemma NoDup_firstn (A : Type) n (l : list A) : NoDup l -> NoDup (firstn n l).
Proof.
  intros H. rewrite <- (firstn_skipn n l) in H. now apply NoDup_app_remove_r in H.
Qed.

Lemma incl_firstn (A : Type) n (l : list A) : incl (firstn n l) l.
Proof.
  intros x Hx. rewrite <- (firstn_skipn n l). apply in_or_app. now left.
Qed.

Lemma skipn_nth_cons (A : Type) (l : list A) : forall i x,
  nth_error l i = Some x -> skipn i l = x :: skipn (S i) l.
Proof.
  induction l as [|y l IH]; intros [|i] x H; simpl in *; try discriminate.
  - now injection H as <-.
  - now apply IH.
Qed.

Lemma total_burst_nonneg l :
  Forall (fun p => 0 < burst p) l -> 0 <= total_burst l.
Proof.
  unfold total_burst. induction 1; simpl; lia.
Qed.

Lemma Forall_filter (A : Type) (Q : A -> Prop) f (l : list A) :
  Forall Q l -> Forall Q (filter f l).
Proof.
  induction 1; simpl; auto. destruct (f x); auto.
Qed.

Lemma pending_retire (K K' : list string) p l :
  NoDup (map pid l) ->
  ~ In (pid p) K ->
  (forall k, In k K' <-> In k K \/ k = pid p) ->
  (In p l -> pending K' l = pending K l - burst p) /\
  (~ In (pid p) (map pid l) -> pending K' l = pending K l).
Proof.
  intros Hnd HK HK'. unfold pending.
  induction l as [|x l IH]; simpl.
  - split; [tauto | reflexivity].
  - inversion Hnd as [|? ? Hn Hnd']; subst. destruct (IH Hnd') as [IH1 IH2].
    assert (Hx : pid x <> pid p ->
                 mem_str (pid x) K' = mem_str (pid x) K).
    { intros Hne. destruct (mem_str (pid x) K) eqn:E.
      - apply mem_str_In. apply HK'. left. now apply mem_str_In.
      - apply mem_str_false. rewrite HK'. apply mem_str_false in E. tauto. }
    split.
    + intros [<-|Hin].
      * assert (E1 : mem_str (pid x) K' = true)
          by (apply mem_str_In, HK'; auto).
        assert (E2 : mem_str (pid x) K = false)
          by (now apply mem_str_false).
        rewrite E1, E2. simpl. rewrite IH2 by assumption.
        unfold total_burst. simpl. lia.
      * assert (Hne : pid x <> pid p).
        { intros Heq. apply Hn. rewrite Heq. now apply in_map. }
        rewrite (Hx Hne). destruct (mem_str (pid x) K); simpl; auto.
        unfold total_burst in *. simpl. rewrite IH1 by assumption. lia.
    + intros Hnp. rewrite Hx by tauto.
      destruct (mem_str (pid x) K); simpl; [tauto|].
      unfold total_burst in *. simpl. rewrite IH2 by tauto. lia.
Qed.

Lemma pending_nil l : pending [] l = total_burst l.
Proof.
  unfold pending. f_equal.
  induction l as [|x l IH]; [reflexivity|].
  cbn [filter mem_str existsb negb]. f_equal. exact IH.
Qed.

Lemma StronglySorted_app_r (A : Type) (R : A -> A -> Prop) l1 l2 :
  StronglySorted R (l1 ++ l2) -> StronglySorted R l2.
Proof.
  induction l1 as [|x l1 IH]; simpl; auto.
  intros H. apply StronglySorted_inv in H as [H _]. auto.
Qed.

Lemma StronglySorted_skipn (A : Type) (R : A -> A -> Prop) i l :
  StronglySorted R l -> StronglySorted R (skipn i l).
Proof.
  intros H. rewrite <- (firstn_skipn i l) in H.
  now apply StronglySorted_app_r in H.
Qed.

Lemma sorted_skipn_head ps i q0 :
  StronglySorted (key_le arrival) ps -> nth_error ps i = Some q0 ->
  forall x, In x (skipn i ps) -> arrival q0 <= arrival x.
Proof.
  intros Hs Hq0 x Hx. apply (StronglySorted_skipn i) in Hs.
  rewrite (skipn_nth_cons _ _ Hq0) in Hs, Hx.
  apply StronglySorted_inv in Hs as [_ Hall].
  destruct Hx as [<-|Hx]; [lia|].
  rewrite Forall_forall in Hall. apply (Hall x Hx).
Qed.

Lemma sel_flag_range ps st : 0 <= sel_flag ps st <= 1.
Proof. unfold sel_flag. destruct (snd _); lia. Qed.

Section SelFacts.
Variable key : Process -> Z.
Variable ps : list Process.
Variable p0 : Process.
Variable rest : list Process.
Hypothesis Hps : ps = p0 :: rest.
Hypothesis Hnd : NoDup (map pid ps).
Hypothesis Hburst : Forall (fun p => 0 < burst p) ps.
Hypothesis Hsorted : StronglySorted (key_le arrival) ps.

Let a0 := arrival p0.

Lemma sel_inv_init : sel_inv ps a0 (sel_init a0).
Proof.
  constructor; simpl; auto; try lia; try (intros x []);
    unfold last_end; simpl; intros; lia.
Qed.

Lemma sel_work_nonneg st : 0 <= sel_work ps st.
Proof. apply total_burst_nonneg. now apply Forall_filter. Qed.

Lemma sel_step_ok st :
  sel_inv ps a0 st -> sel_cond ps st = true ->
  exists st',
    sel_step key ps st = inr st' /\ sel_inv ps a0 st' /\
    sel_progress ps st st' /\
    2 * sel_work ps st' + sel_flag ps st' < 2 * sel_work ps st + sel_flag ps st.
Proof.
  intros [Hi Hperm Hin Harr Hb0 Hb1 Hch Hhd Hlen HL HE HJ] Hcond.
  unfold sel_cond in Hcond. apply Nat.ltb_lt in Hcond.
  unfold sel_step, sel_flag at 2.
  destruct (enqueue ps (s_time st) (s_i st) (s_ready st)) as [i' ready'] eqn:Hadm.
  destruct (@enqueue_spec _ _ _ _ _ _ Hi Hadm)
    as (new & Hready' & Hfirst & Hi' & Hi'le & Hnew & Hnext & Hsub).
  assert (Hperm' : Permutation (map pid ready' ++ dict_keys (s_results st))
                     (map pid (firstn i' ps))).
  { rewrite Hfirst, Hready', !map_app, <- Hperm.
    rewrite <- !app_assoc. apply Permutation_app_head, Permutation_app_comm. }
  assert (Hnd' : NoDup (map pid ready' ++ dict_keys (s_results st))).
  { eapply Permutation_NoDup; [symmetry; exact Hperm'|].
    rewrite <- firstn_map. now apply NoDup_firstn. }
  assert (Hin' : incl ready' ps).
  { subst ready'. apply incl_app; auto.
    intros x Hx. apply (incl_firstn i'). rewrite Hfirst.
    apply in_or_app. now right. }
  assert (Harr' : Forall (fun p => arrival p <= s_time st) ready').
  { subst ready'. apply Forall_app. now split. }
  assert (Hnow : forall x, In x ready' ->
            last_end a0 (s_gantt st) < s_time st -> arrival x = s_time st).
  { intros x Hx Hlt. destruct (HJ Hlt) as (Hre & q0 & Hq0 & Hq0t).
    rewrite Hready', Hre in Hx. simpl in Hx.
    pose proof (sorted_skipn_head _ Hsorted Hq0 x (Hsub x Hx)).
    rewrite Forall_forall in Hnew. specialize (Hnew x Hx). simpl in Hnew. lia. }
  simpl snd.
  destruct ready' as [|r0 ready0] eqn:Hr.
  - (* no ready process: jump to the next arrival *)
    assert (Hlk : length (dict_keys (s_results st)) = i').
    { apply Permutation_length in Hperm'. simpl in Hperm'.
      rewrite Hperm', length_map, length_firstn. lia. }
    rewrite <- dict_len_keys in Hlk.
    destruct (nth_error ps i') as [q|] eqn:Hq;
      [|apply nth_error_None in Hq; lia].
    specialize (Hnext q eq_refl).
    eexists. split; [reflexivity|].
    assert (Hnonempty : s_gantt st <> []).
    { intros Hg. rewrite Hg in Hhd, Hlen. simpl in Hlen.
      assert (Hz : i' = 0%nat) by lia.
      rewrite Hz, Hps in Hq. simpl in Hq. injection Hq as <-.
      fold a0 in Hnext. lia. }
    split; [|split].
    + constructor; simpl; auto.
      * eapply chain_le_advance; eauto. lia.
      * destruct (s_gantt st); [congruence | assumption].
      * lia.
      * intros _. split; [reflexivity | eauto].
    + right. simpl. unfold sel_work. simpl. repeat split; auto. eauto.
    + unfold sel_flag, sel_work, enqueue. simpl.
      rewrite (@skipn_nth_cons _ _ _ _ Hq). simpl.
      rewrite Z.leb_refl.
      destruct (enqueue_from _ _ _ _) as [i2 r2] eqn:E.
      apply enqueue_from_spec in E as (n2 & _ & _ & -> & _).
      simpl. lia.
  - (* run the first process of the sorted queue *)
    rewrite <- Hr in *.
    assert (Hsp : Permutation (sort_by key ready') ready')
      by apply sort_by_perm.
    destruct (sort_by key ready') as [|p ready1] eqn:Hs.
    { apply Permutation_nil in Hsp. congruence. }
    assert (Hp_ready : In p ready').
    { eapply Permutation_in; [exact Hsp | now left]. }
    assert (Hp_ps : In p ps) by auto.
    assert (Hbp : 0 < burst p).
    { rewrite Forall_forall in Hburst. auto. }
    assert (Hp_arr : arrival p <= s_time st).
    { rewrite Forall_forall in Harr'. auto. }
    assert (Hsp' : Permutation
              (pid p :: map pid ready1 ++ dict_keys (s_results st))
              (map pid ready' ++ dict_keys (s_results st))).
    { apply (Permutation_map pid) in Hsp.
      apply (Permutation_app_tail (dict_keys (s_results st))) in Hsp.
      exact Hsp. }
    assert (Hnd2 : NoDup (pid p :: map pid ready1 ++ dict_keys (s_results st))).
    { eapply Permutation_NoDup; [symmetry; exact Hsp' | exact Hnd']. }
    pose proof Hnd2 as Hnd3. apply NoDup_cons_iff in Hnd3 as [Hp_new _].
    assert (Hp_nokey : ~ In (pid p) (dict_keys (s_results st))).
    { intros H. apply Hp_new. apply in_or_app. now right. }
    pose proof (@dict_keys_set_new _ (s_results st) (pid p)
                  (mkCompletion (arrival p) (burst p) (s_time st + burst p))
                  Hp_nokey) as Hkeys.
    assert (HK : forall k,
      In k (dict_keys (dict_set (s_results st) (pid p)
              (mkCompletion (arrival p) (burst p) (s_time st + burst p))))
      <-> In k (dict_keys (s_results st)) \/ k = pid p).
    { intros k. rewrite Hkeys, in_app_iff. simpl. intuition. }
    destruct (@pending_retire _ _ p ps Hnd Hp_nokey HK) as [Hret _].
    specialize (Hret Hp_ps).
    eexists. split; [reflexivity|].
    split; [|split].
    + constructor; simpl.
      * assumption.
      * rewrite Hkeys, <- Hperm', <- Hsp', app_assoc.
        symmetry. apply Permutation_cons_append.
      * intros x Hx. apply Hin'. eapply Permutation_in; [exact Hsp | now right].
      * apply Forall_forall. intros x Hx.
        rewrite Forall_forall in Harr'.
        assert (arrival x <= s_time st).
        { apply Harr'. eapply Permutation_in; [exact Hsp | now right]. }
        lia.
      * intros k Hk. rewrite Hkeys in Hk.
        rewrite busy_snoc_other.
        -- apply Hb0. intros H. apply Hk. apply in_or_app. now left.
        -- intros <-. apply Hk. apply in_or_app. right. now left.
      * intros q Hq Hk. rewrite Hkeys in Hk.
        apply in_app_or in Hk as [Hk|[Hk|[]]].
        -- assert (Hne : pid p <> pid q) by congruence.
           rewrite busy_snoc_other by assumption.
           rewrite dict_get_set_other by assumption. auto.
        -- assert (q = p) by (eapply NoDup_pid_inj; eauto). subst q.
           rewrite busy_snoc_same, Hb0 by assumption.
           rewrite dict_get_set_same.
           split; [lia|]. eexists. split; [reflexivity | lia].
      * eapply chain_le_snoc; eauto; simpl; lia.
      * destruct (s_gantt st); simpl; auto.
      * rewrite length_app, Hlen, !dict_len_keys, Hkeys, length_app.
        reflexivity.
      * apply links_snoc; [assumption|]. intros e0 He0.
        exists p. split; [exact Hp_ps|]. split; [reflexivity|]. simpl.
        specialize (Hnow p Hp_ready).
        unfold last_end in HE, Hnow. rewrite He0 in HE, Hnow. lia.
      * rewrite last_end_snoc. simpl. lia.
      * rewrite last_end_snoc. simpl. lia.
    + left. simpl. split; [|lia].
      unfold sel_work. simpl. lia.
    + unfold sel_work. cbn [s_results]. rewrite Hret.
      match goal with |- _ + ?f < _ =>
        assert (Hf : f <= 1) by apply sel_flag_range;
        generalize dependent f end.
      intros f Hf. lia.
Qed.

Lemma sel_loop_done : forall fuel st,
  sel_inv ps a0 st ->
  2 * sel_work ps st + sel_flag ps st < Z.of_nat fuel ->
  exists st',
    sel_loop key ps fuel st = Done (s_gantt st', s_results st') /\
    sel_inv ps a0 st' /\ sel_cond ps st' = false.
Proof.
  induction fuel as [|fuel IH]; intros st Hinv Hm.
  - pose proof (sel_work_nonneg st). pose proof (sel_flag_range ps st). lia.
  - simpl. destruct (sel_cond ps st) eqn:Hc.
    + destruct (sel_step_ok Hinv Hc) as (st1 & -> & Hinv1 & _ & Hdec).
      apply IH; [assumption | lia].
    + exists st. auto.
Qed.

Lemma sel_all_done st :
  sel_inv ps a0 st -> sel_cond ps st = false ->
  forall p, In p ps -> In (pid p) (dict_keys (s_results st)).
Proof.
  intros Hinv Hc p Hp. unfold sel_cond in Hc. apply Nat.ltb_ge in Hc.
  destruct Hinv as [_ Hperm _ _ _ _ _ _ _].
  assert (Hnd1 : NoDup (map pid (s_ready st) ++ dict_keys (s_results st))).
  { eapply Permutation_NoDup; [symmetry; exact Hperm|].
    rewrite <- firstn_map. now apply NoDup_firstn. }
  apply NoDup_app_remove_l in Hnd1.
  assert (Hincl : incl (dict_keys (s_results st)) (map pid ps)).
  { intros k Hk. apply (@incl_firstn _ (s_i st)). rewrite firstn_map.
    eapply Permutation_in; [exact Hperm|]. apply in_or_app. now right. }
  eapply NoDup_length_incl; [exact Hnd1 | | exact Hincl | now apply in_map].
  rewrite length_map, <- dict_len_keys. exact Hc.
Qed.

Lemma sel_reach_inv st : sel_reach key ps st -> sel_inv ps a0 st.
Proof.
  induction 1 as [q r Hq | st st' _ IH Hc Hs].
  - rewrite Hps in Hq. injection Hq as <- <-. apply sel_inv_init.
  - destruct (sel_step_ok IH Hc) as (st1 & Hs1 & Hinv1 & _).
    congruence.
Qed.

Lemma sel_init_work : sel_work ps (sel_init a0) = total_burst ps.
Proof. apply pending_nil. Qed.

End SelFacts.

(** ** Round Robin *)

Lemma rem_of_set_same d p v : rem_of (dict_set d (pid p) v) p = v.
Proof. unfold rem_of. now rewrite dict_get_set_same. Qed.

Lemma rem_of_set_other d p q v :
  pid p <> pid q -> rem_of (dict_set d (pid p) v) q = rem_of d q.
Proof. intros H. unfold rem_of. now rewrite dict_get_set_other. Qed.

Lemma rem_sum_set d p v l :
  NoDup (map pid l) ->
  (In p l ->
   zsum (map (rem_of (dict_set d (pid p) v)) l)
   = zsum (map (rem_of d) l) - rem_of d p + v) /\
  (~ In (pid p) (map pid l) ->
   zsum (map (rem_of (dict_set d (pid p) v)) l) = zsum (map (rem_of d) l)).
Proof.
  induction l as [|x l IH]; simpl; intros Hnd.
  - split; [tauto | reflexivity].
  - apply NoDup_cons_iff in Hnd as [Hn Hnd]. destruct (IH Hnd) as [IH1 IH2].
    split.
    + intros [<-|Hin].
      * rewrite rem_of_set_same, IH2 by assumption. lia.
      * assert (Hne : pid p <> pid x).
        { intros Heq. apply Hn. rewrite <- Heq. now apply in_map. }
        rewrite rem_of_set_other, IH1 by assumption. lia.
    + intros Hnp. rewrite rem_of_set_other by (intros E; apply Hnp; left; congruence).
      rewrite IH2 by tauto. lia.
Qed.

Lemma remaining_init_get l : forall d,
  NoDup (map pid l) ->
  let d' := fold_left (fun d p => dict_set d (pid p) (burst p)) l d in
  (forall k, ~ In k (map pid l) -> dict_get d' k = dict_get d k) /\
  (forall p, In p l -> dict_get d' (pid p) = Some (burst p)).
Proof.
  induction l as [|x l IH]; simpl; intros d Hnd.
  - split; [reflexivity | tauto].
  - apply NoDup_cons_iff in Hnd as [Hn Hnd].
    destruct (IH (dict_set d (pid x) (burst x)) Hnd) as [IH1 IH2]. split.
    + intros k Hk. rewrite IH1 by tauto. apply dict_get_set_other. tauto.
    + intros p [<-|Hp]; [|auto].
      rewrite IH1 by assumption. apply dict_get_set_same.
Qed.

Lemma zsum_nonneg l : Forall (fun z => 0 <= z) l -> 0 <= zsum l.
Proof. induction 1; simpl; lia. Qed.

Lemma rr_flag_range ps st : 0 <= rr_flag ps st <= 1.
Proof. unfold rr_flag. destruct (snd _); lia. Qed.

Section RRFacts.
Variable ps : list Process.
Variable quantum : Z.
Variable p0 : Process.
Variable rest : list Process.
Hypothesis Hps : ps = p0 :: rest.
Hypothesis Hnd : NoDup (map pid ps).
Hypothesis Hburst : Forall (fun p => 0 < burst p) ps.
Hypothesis Hq : 0 < quantum.
Hypothesis Hsorted : StronglySorted (key_le arrival) ps.

Let a0 := arrival p0.

Lemma rr_inv_init : rr_inv ps a0 (rr_init ps a0).
Proof.
  constructor; simpl; auto; try lia; try (intros x []);
    try (unfold last_end; simpl; intros; lia).
  intros p Hp. exists (burst p).
  destruct (@remaining_init_get ps [] Hnd) as [_ Hget].
  repeat split; auto; try tauto.
  rewrite Forall_forall in Hburst. auto.
Qed.

Lemma rr_rem_nonneg st p : rr_inv ps a0 st -> In p ps -> 0 <= rem_of (rr_remaining st) p.
Proof.
  intros Hinv Hp. destruct (rr_account Hinv p Hp) as (r & Hget & _ & Hz & Hpos).
  unfold rem_of. rewrite Hget.
  destruct (in_dec string_dec (pid p) (dict_keys (rr_completed st))) as [Hin|Hn].
  - rewrite (Hz Hin). lia.
  - specialize (Hpos Hn). lia.
Qed.

Lemma rr_work_nonneg st : rr_inv ps a0 st -> 0 <= rr_work ps st.
Proof.
  intros Hinv. apply zsum_nonneg. apply Forall_forall.
  intros z Hz. apply in_map_iff in Hz as (p & <- & Hp).
  now apply rr_rem_nonneg.
Qed.

Lemma rr_step_ok st :
  rr_inv ps a0 st -> rr_cond ps st = true ->
  exists st',
    rr_step ps quantum st = inr st' /\ rr_inv ps a0 st' /\
    rr_progress ps st st' /\
    2 * rr_work ps st' + rr_flag ps st' < 2 * rr_work ps st + rr_flag ps st.
Proof.
  intros Hinv Hcond.
  pose proof Hinv as [Hi Hperm Hin Hacc Hch Hhd Hlen HL HE HJ Harr].
  unfold rr_cond in Hcond. apply Nat.ltb_lt in Hcond.
  unfold rr_step, rr_flag at 2.
  destruct (enqueue ps (rr_time st) (rr_i st) (rr_ready st)) as [i1 ready1] eqn:Hadm.
  destruct (@enqueue_spec _ _ _ _ _ _ Hi Hadm)
    as (new & Hready1 & Hfirst & Hi1 & Hi1le & Hnew & Hnext & Hsub).
  assert (Hperm1 : Permutation (map pid ready1 ++ dict_keys (rr_completed st))
                     (map pid (firstn i1 ps))).
  { rewrite Hfirst, Hready1, !map_app, <- Hperm.
    rewrite <- !app_assoc. apply Permutation_app_head, Permutation_app_comm. }
  assert (Hnd1 : NoDup (map pid ready1 ++ dict_keys (rr_completed st))).
  { eapply Permutation_NoDup; [symmetry; exact Hperm1|].
    rewrite <- firstn_map. now apply NoDup_firstn. }
  assert (Hin1 : incl ready1 ps).
  { rewrite Hready1. apply incl_app; auto.
    intros x Hx. apply (@incl_firstn _ i1). rewrite Hfirst.
    apply in_or_app. now right. }
  assert (Harr1 : Forall (fun p => arrival p <= rr_time st) ready1).
  { rewrite Hready1. apply Forall_app. now split. }
  assert (Hnow : forall x, In x ready1 ->
            last_end a0 (rr_gantt st) < rr_time st ->
            arrival x = rr_time st).
  { intros x Hx Hlt. destruct (HJ Hlt) as (Hre & q0 & Hq0 & Hq0t).
    rewrite Hready1, Hre in Hx. simpl in Hx.
    pose proof (sorted_skipn_head _ Hsorted Hq0 x (Hsub x Hx)).
    rewrite Forall_forall in Hnew. specialize (Hnew x Hx). simpl in Hnew. lia. }
  simpl snd.
  destruct ready1 as [|p rq] eqn:Hr.
  - (* empty queue: jump to the next arrival *)
    assert (Hlk : length (dict_keys (rr_completed st)) = i1).
    { apply Permutation_length in Hperm1. simpl in Hperm1.
      rewrite Hperm1, length_map, length_firstn. lia. }
    rewrite <- dict_len_keys in Hlk.
    destruct (nth_error ps i1) as [q|] eqn:Hqn;
      [|apply nth_error_None in Hqn; lia].
    specialize (Hnext q eq_refl).
    eexists. split; [reflexivity|].
    assert (Hnonempty : rr_gantt st <> []).
    { intros Hg. rewrite Hg in Hhd, Hlen. simpl in Hlen.
      assert (Hz : i1 = 0%nat) by lia.
      rewrite Hz, Hps in Hqn. simpl in Hqn. injection Hqn as <-.
      fold a0 in Hnext. lia. }
    split; [|split].
    + constructor; simpl; auto.
      * eapply chain_le_advance; eauto. lia.
      * destruct (rr_gantt st); [congruence | assumption].
      * lia.
      * intros _. split; [reflexivity | eauto].
    + right. simpl. unfold rr_work. simpl. repeat split; auto. eauto.
    + unfold rr_flag, rr_work, enqueue. simpl.
      rewrite (@skipn_nth_cons _ _ _ _ Hqn). simpl.
      rewrite Z.leb_refl.
      destruct (enqueue_from _ _ _ _) as [i2 r2] eqn:E.
      apply enqueue_from_spec in E as (n2 & _ & _ & -> & _).
      simpl. lia.
  - (* run the process at the front of the queue for one slice *)
    assert (Hp_ps : In p ps) by (apply Hin1; now left).
    assert (Hp_nokey : ~ In (pid p) (dict_keys (rr_completed st))).
    { simpl in Hnd1. apply NoDup_cons_iff in Hnd1 as [Hn _].
      intros H. apply Hn. apply in_or_app. now right. }
    destruct (Hacc p Hp_ps) as (rem & Hget & Hsum & _ & Hpos).
    specialize (Hpos Hp_nokey).
    rewrite Hget.
    set (run_time := Z.min quantum rem).
    assert (Hrun : 1 <= run_time <= rem) by (unfold run_time; lia).
    set (time' := rr_time st + run_time).
    set (gantt' := rr_gantt st ++ [mkEvent (pid p) (rr_time st) time']).
    set (remaining' := dict_set (rr_remaining st) (pid p) (rem - run_time)).
    destruct (enqueue ps time' i1 rq) as [i2 ready2] eqn:Hadm2.
    destruct (@enqueue_spec _ _ _ _ _ _ Hi1le Hadm2)
      as (new2 & Hready2 & Hfirst2 & Hi2 & Hi2le & Hnew2 & Hnext2 & _).
    unfold remaining' at 1. rewrite dict_get_set_same. fold remaining'.
    assert (Hperm2 : Permutation
              (pid p :: map pid ready2 ++ dict_keys (rr_completed st))
              (map pid (firstn i2 ps))).
    { rewrite Hfirst2, Hready2, !map_app, <- Hperm1. simpl.
      apply perm_skip. rewrite <- !app_assoc.
      apply Permutation_app_head, Permutation_app_comm. }
    assert (Hin2 : incl ready2 ps).
    { rewrite Hready2. apply incl_app.
      - intros x Hx. apply Hin1. now right.
      - intros x Hx. apply (@incl_firstn _ i2). rewrite Hfirst2.
        apply in_or_app. now right. }
    assert (Hwork : zsum (map (rem_of remaining') ps)
                    = rr_work ps st - run_time).
    { destruct (@rem_sum_set (rr_remaining st) p (rem - run_time) ps Hnd)
        as [Hs _].
      unfold remaining', rr_work. rewrite (Hs Hp_ps).
      unfold rem_of at 2. rewrite Hget. lia. }
    assert (Hch' : chain Z.le a0 gantt' time').
    { eapply chain_le_snoc; eauto; simpl; lia. }
    assert (Hhd' : match gantt' with [] => time' = a0 | e :: _ => e_start e = a0 end).
    { unfold gantt'. destruct (rr_gantt st); simpl; auto. }
    assert (Hacc_other : forall q, In q ps -> pid q <> pid p ->
              dict_get remaining' (pid q) = dict_get (rr_remaining st) (pid q)
              /\ busy (pid q) gantt' = busy (pid q) (rr_gantt st)).
    { intros q _ Hne. split.
      - apply dict_get_set_other. congruence.
      - apply busy_snoc_other. congruence. }
    assert (Hbusy_p : busy (pid p) gantt' + (rem - run_time) = burst p).
    { unfold gantt', time'. rewrite busy_snoc_same. lia. }
    assert (HL' : links (linked ps) gantt').
    { apply links_snoc; [assumption|]. intros e0 He0.
      exists p. split; [exact Hp_ps|]. split; [reflexivity|]. simpl.
      specialize (Hnow p (or_introl eq_refl)).
      apply Forall_inv in Harr1.
      unfold last_end in HE, Hnow. rewrite He0 in HE, Hnow. lia. }
    assert (HE' : last_end a0 gantt' = time').
    { unfold gantt'. now rewrite last_end_snoc. }
    assert (Harr2 : Forall (fun x => arrival x <= time') (ready2 ++ [p])).
    { rewrite Hready2. rewrite !Forall_app. split; [split|].
      - apply Forall_inv_tail in Harr1.
        eapply Forall_impl; [|exact Harr1]. simpl. intros; lia.
      - exact Hnew2.
      - constructor; [|constructor]. apply Forall_inv in Harr1. lia. }
    destruct (Z.ltb_spec 0 (rem - run_time)) as [Hleft|Hfin].
    + (* unfinished: back to the tail of the queue *)
      eexists. split; [reflexivity|]. split; [|split].
      * constructor; simpl; auto.
        -- rewrite map_app. simpl. rewrite <- Hperm2.
           rewrite <- app_assoc. simpl.
           symmetry. apply Permutation_middle.
        -- apply incl_app; auto. intros x [<-|[]]. assumption.
        -- intros q Hqps.
           destruct (string_dec (pid q) (pid p)) as [Heq|Hne].
           ++ assert (q = p) by (eapply NoDup_pid_inj; eauto). subst q.
              exists (rem - run_time).
              unfold remaining' at 1. rewrite dict_get_set_same.
              repeat split; auto. tauto.
           ++ destruct (Hacc_other q Hqps Hne) as [-> ->]. auto.
        -- unfold gantt'. rewrite length_app. simpl. lia.
        -- lia.
        -- intros Hlt. exfalso. lia.
      * left. unfold rr_work at 1. simpl. split; lia.
      * unfold rr_work at 1. cbn [rr_remaining]. rewrite Hwork.
        match goal with |- _ + ?f < _ =>
          assert (Hf : f <= 1) by apply rr_flag_range;
          generalize dependent f end.
        intros f Hf. lia.
    + (* finished: record the completion *)
      assert (Hkeys := @dict_keys_set_new _ (rr_completed st) (pid p) time' Hp_nokey).
      eexists. split; [reflexivity|]. split; [|split].
      * constructor; simpl; auto.
        -- rewrite Hkeys, <- Hperm2, app_assoc.
           symmetry. apply Permutation_cons_append.
        -- intros q Hqps.
           destruct (string_dec (pid q) (pid p)) as [Heq|Hne].
           ++ assert (q = p) by (eapply NoDup_pid_inj; eauto). subst q.
              exists (rem - run_time).
              unfold remaining' at 1. rewrite dict_get_set_same.
              repeat split; auto; [lia|].
              intros Hn. exfalso. apply Hn. rewrite Hkeys.
              apply in_or_app. right. now left.
           ++ destruct (Hacc_other q Hqps Hne) as [-> ->].
              destruct (Hacc q Hqps) as (r & Hg & Hs & Hz & Hp).
              exists r. repeat split; auto.
              ** intros Hk. rewrite Hkeys in Hk.
                 apply in_app_or in Hk as [Hk|[Hk|[]]]; [auto | congruence].
              ** intros Hk. apply Hp. intros Hk'. apply Hk.
                 rewrite Hkeys. apply in_or_app. now left.
        -- unfold gantt'. rewrite length_app, dict_len_keys, Hkeys, length_app.
           rewrite <- dict_len_keys. simpl. lia.
        -- lia.
        -- intros Hlt. exfalso. lia.
        -- apply Forall_app in Harr2. tauto.
      * left. unfold rr_work at 1. simpl. split; lia.
      * unfold rr_work at 1. cbn [rr_remaining]. rewrite Hwork.
        match goal with |- _ + ?f < _ =>
          assert (Hf : f <= 1) by apply rr_flag_range;
          generalize dependent f end.
        intros f Hf. lia.
Qed.

Lemma rr_loop_done : forall fuel st,
  rr_inv ps a0 st ->
  2 * rr_work ps st + rr_flag ps st < Z.of_nat fuel ->
  exists st',
    rr_loop ps quantum fuel st = Done st' /\
    rr_inv ps a0 st' /\ rr_cond ps st' = false.
Proof.
  induction fuel as [|fuel IH]; intros st Hinv Hm.
  - pose proof (rr_work_nonneg Hinv). pose proof (rr_flag_range ps st). lia.
  - simpl. destruct (rr_cond ps st) eqn:Hc.
    + destruct (rr_step_ok Hinv Hc) as (st1 & -> & Hinv1 & _ & Hdec).
      apply IH; [assumption | lia].
    + exists st. auto.
Qed.

Lemma rr_all_done st :
  rr_inv ps a0 st -> rr_cond ps st = false ->
  forall p, In p ps -> In (pid p) (dict_keys (rr_completed st)).
Proof.
  intros Hinv Hc p Hp. unfold rr_cond in Hc. apply Nat.ltb_ge in Hc.
  pose proof (rr_perm Hinv) as Hperm.
  assert (Hnd1 : NoDup (map pid (rr_ready st) ++ dict_keys (rr_completed st))).
  { eapply Permutation_NoDup; [symmetry; exact Hperm|].
    rewrite <- firstn_map. now apply NoDup_firstn. }
  apply NoDup_app_remove_l in Hnd1.
  assert (Hincl : incl (dict_keys (rr_completed st)) (map pid ps)).
  { intros k Hk. apply (@incl_firstn _ (rr_i st)). rewrite firstn_map.
    eapply Permutation_in; [exact Hperm|]. apply in_or_app. now right. }
  eapply NoDup_length_incl; [exact Hnd1 | | exact Hincl | now apply in_map].
  rewrite length_map, <- dict_len_keys. exact Hc.
Qed.

Lemma rr_done_busy st :
  rr_inv ps a0 st -> rr_cond ps st = false ->
  forall p, In p ps -> busy (pid p) (rr_gantt st) = burst p.
Proof.
  intros Hinv Hc p Hp.
  destruct (rr_account Hinv p Hp) as (r & _ & Hsum & Hz & _).
  rewrite (Hz (rr_all_done Hinv Hc p Hp)) in Hsum. lia.
Qed.

Lemma rr_reach_inv st : rr_reach ps quantum st -> rr_inv ps a0 st.
Proof.
  induction 1 as [q r Hqr | st st' _ IH Hc Hs].
  - rewrite Hps in Hqr. injection Hqr as <- <-. apply rr_inv_init.
  - destruct (rr_step_ok IH Hc) as (st1 & Hs1 & Hinv1 & _).
    congruence.
Qed.

Lemma rr_init_work : rr_work ps (rr_init ps a0) = total_burst ps.
Proof.
  unfold rr_work, total_burst. simpl. f_equal.
  apply map_ext_in. intros p Hp.
  destruct (@remaining_init_get ps [] Hnd) as [_ Hget].
  unfold rem_of, rr_remaining_init. now rewrite (Hget p Hp).
Qed.

End RRFacts.

Lemma rr_results_ok completed l : forall acc,
  NoDup (map pid l) ->
  (forall p, In p l -> In (pid p) (dict_keys completed)) ->
  exists res,
    rr_results completed l acc = Done res /\
    (forall k, ~ In k (map pid l) -> dict_get res k = dict_get acc k) /\
    (forall p, In p l ->
       exists c, dict_get completed (pid p) = Some c /\
         dict_get res (pid p) = Some (mkCompletion (arrival p) (burst p) c)).
Proof.
  induction l as [|x l IH]; simpl; intros acc Hnd Hall.
  - exists acc. repeat split; auto. tauto.
  - apply NoDup_cons_iff in Hnd as [Hn Hnd].
    destruct (@dict_in_get _ completed (pid x)) as [c Hc]; [auto|].
    rewrite Hc.
    destruct (IH (dict_set acc (pid x) (mkCompletion (arrival x) (burst x) c)) Hnd)
      as (res & Hres & Hother & Hrec); [auto|].
    exists res. split; [exact Hres|]. split.
    + intros k Hk. rewrite Hother by tauto. apply dict_get_set_other. tauto.
    + intros p [<-|Hp]; [|auto].
      exists c. split; [exact Hc|].
      rewrite Hother by assumption. apply dict_get_set_same.
Qed.

(** ** Valid process lists and the engines as a whole *)

Lemma validb_NoDup l : validb l = true -> NoDup (map pid l).
Proof.
  unfold validb. intros H. apply andb_prop in H as [H _].
  now apply nodupb_NoDup.
Qed.

Lemma validb_burst l : validb l = true -> Forall (fun p => 0 < burst p) l.
Proof.
  unfold validb. intros H. apply andb_prop in H as [_ H].
  rewrite forallb_forall in H. apply Forall_forall. intros p Hp.
  specialize (H p Hp). apply andb_prop in H as [_ H]. lia.
Qed.

Lemma validb_arrival l : validb l = true -> Forall (fun p => 0 <= arrival p) l.
Proof.
  unfold validb. intros H. apply andb_prop in H as [_ H].
  rewrite forallb_forall in H. apply Forall_forall. intros p Hp.
  specialize (H p Hp). apply andb_prop in H as [H _]. lia.
Qed.

Lemma sorted_NoDup l : NoDup (map pid l) -> NoDup (map pid (sort_by arrival l)).
Proof.
  intros H. eapply Permutation_NoDup; [|exact H].
  apply Permutation_map. symmetry. apply sort_by_perm.
Qed.

Lemma sorted_Forall (Q : Process -> Prop) l :
  Forall Q l -> Forall Q (sort_by arrival l).
Proof.
  intros H. eapply Permutation_Forall; [|exact H].
  symmetry. apply sort_by_perm.
Qed.

Lemma sorted_In l p : In p (sort_by arrival l) <-> In p l.
Proof.
  split; apply Permutation_in; [|symmetry]; apply sort_by_perm.
Qed.

Lemma zsum_perm l l' : Permutation l l' -> zsum l = zsum l'.
Proof. induction 1; simpl; lia. Qed.

Lemma sorted_total_burst l : total_burst (sort_by arrival l) = total_burst l.
Proof.
  unfold total_burst. apply zsum_perm, Permutation_map, sort_by_perm.
Qed.

Lemma sorted_nonempty l :
  l <> [] -> exists p0 rest, sort_by arrival l = p0 :: rest.
Proof.
  intros Hne. destruct (sort_by arrival l) as [|p0 rest] eqn:E; eauto.
  exfalso. apply Hne. apply Permutation_nil.
  rewrite <- E. apply sort_by_perm.
Qed.

Lemma fuel_enough l fuel (f : Z) :
  (fuel_bound l <= fuel)%nat -> 0 <= f <= 1 -> 0 <= total_burst l ->
  2 * total_burst l + f < Z.of_nat fuel.
Proof. unfold fuel_bound. intros. lia. Qed.

Lemma fcfs_unfold l :
  exists t g r,
    fold_left fcfs_body (sort_by arrival l) (0, [], []) = (t, g, r) /\
    fcfs l = (sort_by arrival l, Done (g, r)).
Proof.
  unfold fcfs.
  destruct (fold_left fcfs_body (sort_by arrival l) (0, [], []))
    as [[t g] r]. eauto.
Qed.

Lemma sel_engine_cons key fuel l p0 rest :
  sort_by arrival l = p0 :: rest ->
  snd (sel_engine key fuel l)
  = sel_loop key (sort_by arrival l) fuel (sel_init (arrival p0)).
Proof.
  intros H. unfold sel_engine. cbn [snd].
  destruct (sort_by arrival l); [discriminate|].
  now injection H as -> ->.
Qed.

Lemma round_robin_cons fuel l quantum p0 rest :
  sort_by arrival l = p0 :: rest ->
  snd (round_robin fuel l quantum)
  = match rr_loop (sort_by arrival l) quantum fuel
            (rr_init (sort_by arrival l) (arrival p0)) with
    | Done st =>
        match rr_results (rr_completed st) (sort_by arrival l) [] with
        | Done results => Done (rr_gantt st, results)
        | Raise e => Raise e
        | OutOfFuel => OutOfFuel
        end
    | Raise e => Raise e
    | OutOfFuel => OutOfFuel
    end.
Proof.
  intros H. unfold round_robin. cbn [snd].
  destruct (sort_by arrival l); [discriminate|].
  now injection H as -> ->.
Qed.

Lemma sel_engine_ok key l fuel :
  validb l = true -> l <> [] -> (fuel_bound l <= fuel)%nat ->
  exists p0 rest st,
    sort_by arrival l = p0 :: rest /\
    snd (sel_engine key fuel l) = Done (s_gantt st, s_results st) /\
    sel_inv (sort_by arrival l) (arrival p0) st /\
    sel_cond (sort_by arrival l) st = false.
Proof.
  intros Hv Hne Hfuel.
  destruct (sorted_nonempty Hne) as (p0 & rest & Hs).
  pose proof (sorted_NoDup _ (validb_NoDup _ Hv)) as Hnd.
  pose proof (sorted_Forall (validb_burst _ Hv)) as Hb.
  destruct (@sel_loop_done key _ p0 rest Hs Hnd Hb (sort_by_sorted arrival l) fuel
              (sel_init (arrival p0)))
    as (st & Hrun & Hinv & Hc).
  - apply sel_inv_init.
  - rewrite sel_init_work, sorted_total_burst.
    apply fuel_enough; [assumption | apply sel_flag_range |].
    apply total_burst_nonneg. now apply validb_burst.
  - exists p0, rest, st. split; [exact Hs|]. split; [|split; assumption].
    now rewrite (sel_engine_cons key fuel _ Hs).
Qed.

Lemma rr_engine_ok l quantum fuel :
  validb l = true -> l <> [] -> 0 < quantum -> (fuel_bound l <= fuel)%nat ->
  exists p0 rest st res,
    sort_by arrival l = p0 :: rest /\
    snd (round_robin fuel l quantum) = Done (rr_gantt st, res) /\
    rr_inv (sort_by arrival l) (arrival p0) st /\
    rr_cond (sort_by arrival l) st = false /\
    (forall p, In p l ->
       exists c, dict_get (rr_completed st) (pid p) = Some c /\
         dict_get res (pid p) = Some (mkCompletion (arrival p) (burst p) c)).
Proof.
  intros Hv Hne Hq Hfuel.
  destruct (sorted_nonempty Hne) as (p0 & rest & Hs).
  pose proof (sorted_NoDup _ (validb_NoDup _ Hv)) as Hnd.
  pose proof (sorted_Forall (validb_burst _ Hv)) as Hb.
  destruct (@rr_loop_done _ quantum p0 rest Hs Hnd Hq (sort_by_sorted arrival l) fuel
              (rr_init (sort_by arrival l) (arrival p0)))
    as (st & Hrun & Hinv & Hc).
  - now apply rr_inv_init.
  - rewrite rr_init_work by assumption.
    rewrite sorted_total_burst.
    apply fuel_enough; [assumption | apply rr_flag_range |].
    apply total_burst_nonneg. now apply validb_burst.
  - destruct (@rr_results_ok (rr_completed st) (sort_by arrival l) [] Hnd)
      as (res & Hres & _ & Hrec).
    { intros p Hp. eapply rr_all_done; eauto. }
    exists p0, rest, st, res. split; [exact Hs|].
    split; [|split; [assumption | split; [assumption|]]].
    + now rewrite (round_robin_cons fuel _ quantum Hs), Hrun, Hres.
    + intros p Hp. apply Hrec. now apply sorted_In.
Qed.

(** ** The timeline: busy time, ordering and first event *)

Lemma busy_non_idle_eq k g : k <> IDLE -> busy_non_idle k g = busy k g.
Proof.
  intros Hk. induction g as [|e g IH]; simpl; [reflexivity|].
  rewrite IH. destruct (String.eqb_spec (e_pid e) k) as [->|]; simpl; auto.
  destruct (String.eqb_spec k IDLE); [contradiction | reflexivity].
Qed.

Lemma contiguous_non_overlapping g : contiguous g -> non_overlapping g.
Proof.
  intros H i e1 e2 H1 H2. rewrite (H i e1 e2 H1 H2). lia.
Qed.

Lemma simulate_busy a quantum fuel l :
  validb l = true -> l <> [] -> (a = RoundRobin -> 0 < quantum) ->
  (fuel_bound l <= fuel)%nat ->
  exists g r,
    snd (simulate a quantum fuel l) = Done (g, r) /\
    forall p, In p l -> (a = FCFS -> pid p <> IDLE) ->
      busy (pid p) g = burst p.
Proof.
  intros Hv Hne Hq Hfuel.
  pose proof (sorted_NoDup _ (validb_NoDup _ Hv)) as Hnd.
  assert (Hsel : forall key,
    exists g r, snd (sel_engine key fuel l) = Done (g, r) /\
      forall p, In p l -> busy (pid p) g = burst p).
  { intros key.
    destruct (sel_engine_ok key Hv Hne Hfuel) as (p0 & rest & st & Hs & Hrun & Hinv & Hc).
    exists (s_gantt st), (s_results st). split; [exact Hrun|].
    intros p Hp. apply sorted_In in Hp.
    apply (sel_busy_done Hinv p Hp).
    eapply sel_all_done; eauto. }
  destruct a; simpl.
  - destruct (fcfs_unfold l) as (t & g & r & Hfold & ->).
    exists g, r. split; [reflexivity|].
    intros p Hp Hidle. apply sorted_In in Hp.
    destruct (@fcfs_busy _ _ _ _ _ _ _ Hnd Hfold (pid p)) as [_ Hb]; [auto|].
    rewrite (Hb p Hp eq_refl). simpl. lia.
  - destruct (Hsel burst) as (g & r & Hrun & Hb). eauto.
  - destruct (Hsel prio) as (g & r & Hrun & Hb). eauto.
  - destruct (rr_engine_ok Hv Hne (Hq eq_refl) Hfuel)
      as (p0 & rest & st & res & Hs & Hrun & Hinv & Hc & _).
    exists (rr_gantt st), res. split; [exact Hrun|].
    intros p Hp _. apply sorted_In in Hp.
    eapply rr_done_busy; eauto.
Qed.

(** C1 (as stated) fails for a process whose pid is the string FCFS gives
    to its idle entries: FCFS on the single process IDLE(arrival 1, burst 2)
    returns the entries IDLE 0-1 and IDLE 1-3, so the entries with that pid
    last 3 with the idle entry and 0 without the entries named IDLE, while
    the burst is 2. *)
Lemma idle_pid_counterexample :
  let p := P "IDLE" 1 2 in
  validb [p] = true /\ In p [p] /\
  exists g r,
    snd (simulate FCFS 1 (fuel_bound [p]) [p]) = Done (g, r) /\
    busy (pid p) g <> burst p /\ busy_non_idle (pid p) g <> burst p.
Proof.
  cbv zeta. split; [reflexivity|]. split; [now left|].
  do 2 eexists. split; [reflexivity|]. split; discriminate.
Qed.

(** C1 (amended): for a valid process list and each of the four policies
    (Round Robin with a quantum > 0), the run returns a timeline in which
    the durations of the entries with a process's pid sum to its burst,
    provided, under FCFS, that the pid is not the string "IDLE". *)
Theorem busy_time_is_burst a quantum fuel l p :
  validb l = true -> (a = RoundRobin -> 0 < quantum) ->
  (fuel_bound l <= fuel)%nat ->
  In p l -> (a = FCFS -> pid p <> IDLE) ->
  exists g r,
    snd (simulate a quantum fuel l) = Done (g, r) /\
    busy (pid p) g = burst p /\
    (pid p <> IDLE -> busy_non_idle (pid p) g = burst p).
Proof.
  intros Hv Hq Hfuel Hp Hidle.
  assert (Hne : l <> []) by (intros ->; destruct Hp).
  destruct (@simulate_busy a quantum fuel l Hv Hne Hq Hfuel) as (g & r & Hrun & Hb).
  exists g, r. split; [exact Hrun|]. split; [auto|].
  intros Hk. rewrite busy_non_idle_eq by assumption. auto.
Qed.

Lemma busy_time_is_burst_witness :
  exists g r,
    snd (simulate RoundRobin 2 16 [P "P1" 0 4; P "P2" 1 3]) = Done (g, r) /\
    busy "P2" g = 3 /\ ("P2" <> IDLE -> busy_non_idle "P2" g = 3).
Proof.
  apply (@busy_time_is_burst RoundRobin 2 16 [P "P1" 0 4; P "P2" 1 3] (P "P2" 1 3)).
  - reflexivity.
  - intros _. lia.
  - vm_compute. lia.
  - simpl. tauto.
  - discriminate.
Defined.

Lemma simulate_chain a quantum fuel l :
  validb l = true -> l <> [] -> (a = RoundRobin -> 0 < quantum) ->
  (fuel_bound l <= fuel)%nat ->
  exists g r p0 rest,
    snd (simulate a quantum fuel l) = Done (g, r) /\
    sort_by arrival l = p0 :: rest /\
    (a = FCFS -> exists t, chain eq 0 g t) /\
    (a <> FCFS -> exists t e g',
       chain Z.le (arrival p0) g t /\ g = e :: g' /\ e_start e = arrival p0 /\
       links (linked (sort_by arrival l)) g).
Proof.
  intros Hv Hne Hq Hfuel.
  assert (Hsel : forall key,
    exists g r p0 rest, snd (sel_engine key fuel l) = Done (g, r) /\
      sort_by arrival l = p0 :: rest /\
      exists t e g',
        chain Z.le (arrival p0) g t /\ g = e :: g' /\ e_start e = arrival p0 /\
        links (linked (sort_by arrival l)) g).
  { intros key.
    destruct (@sel_engine_ok key l fuel Hv Hne Hfuel)
      as (p0 & rest & st & Hs & Hrun & Hinv & Hc).
    exists (s_gantt st), (s_results st), p0, rest.
    split; [exact Hrun|]. split; [exact Hs|].
    pose proof (sel_head Hinv) as Hhd. pose proof (sel_lengths Hinv) as Hlen.
    pose proof (sel_links Hinv) as Hlk. pose proof (sel_chain Hinv) as Hch.
    unfold sel_cond in Hc. apply Nat.ltb_ge in Hc.
    rewrite Hs in Hc. simpl in Hc.
    destruct (s_gantt st) as [|e g'] eqn:Hg; [simpl in Hlen; lia|].
    exists (s_time st), e, g'. auto. }
  destruct a; simpl.
  - destruct (fcfs_unfold l) as (t & g & r & Hfold & ->).
    destruct (sorted_nonempty Hne) as (p0 & rest & Hs).
    exists g, r, p0, rest. split; [reflexivity|]. split; [exact Hs|].
    split; [|congruence]. intros _. exists t.
    eapply fcfs_chain; [|exact Hfold]. reflexivity.
  - destruct (Hsel burst) as (g & r & p0 & rest & Hrun & Hs & H).
    exists g, r, p0, rest. repeat split; auto; discriminate.
  - destruct (Hsel prio) as (g & r & p0 & rest & Hrun & Hs & H).
    exists g, r, p0, rest. repeat split; auto; discriminate.
  - destruct (@rr_engine_ok l quantum fuel Hv Hne (Hq eq_refl) Hfuel)
      as (p0 & rest & st & res & Hs & Hrun & Hinv & Hc & _).
    exists (rr_gantt st), res, p0, rest.
    split; [exact Hrun|]. split; [exact Hs|]. split; [discriminate|].
    intros _. pose proof (rr_head Hinv) as Hhd.
    pose proof (rr_links Hinv) as Hlk. pose proof (rr_chain Hinv) as Hch.
    assert (Hp0 : In p0 (sort_by arrival l)) by (rewrite Hs; now left).
    pose proof (@rr_done_busy _ p0 (sorted_NoDup _ (validb_NoDup _ Hv))
                  st Hinv Hc p0 Hp0) as Hb.
    assert (Hbp : 0 < burst p0).
    { pose proof (sorted_Forall (validb_burst _ Hv)) as HF.
      rewrite Forall_forall in HF. auto. }
    destruct (rr_gantt st) as [|e g'] eqn:Hg; [simpl in Hb; lia|].
    exists (rr_time st), e, g'. auto.
Qed.

(** C2 (as stated) fails for SJF, Priority and Round Robin, which jump the
    clock over an idle CPU without an entry: SJF on P1(0,1), P2(5,1) returns
    P1 0-1, P2 5-6. *)
Lemma sjf_gap_counterexample :
  let l := [P "P1" 0 1; P "P2" 5 1] in
  validb l = true /\
  exists g r,
    snd (simulate SJF 1 (fuel_bound l) l) = Done (g, r) /\ ~ contiguous g.
Proof.
  cbv zeta. split; [reflexivity|].
  do 2 eexists. split; [reflexivity|].
  intros H. specialize (H 0%nat _ _ eq_refl eq_refl). discriminate.
Qed.

(** C2 (amended): for a non-empty valid process list and every policy the
    run returns a timeline whose entries do not overlap and are in time
    order, the end of entry i being at most the start of entry i+1.  The
    timeline of FCFS is contiguous, the two being equal.  In the timelines
    of SJF, Priority and Round Robin, which have no idle entries, entry i+1
    starts at the later of the end of entry i and the arrival of the
    process it runs: a gap is the wait for the next arrival. *)
Theorem timeline_ordered a quantum fuel l :
  validb l = true -> l <> [] -> (a = RoundRobin -> 0 < quantum) ->
  (fuel_bound l <= fuel)%nat ->
  exists g r,
    snd (simulate a quantum fuel l) = Done (g, r) /\
    non_overlapping g /\
    (a = FCFS -> contiguous g) /\
    (a <> FCFS -> gaps_are_waits l g).
Proof.
  intros Hv Hne Hq Hfuel.
  destruct (@simulate_chain a quantum fuel l Hv Hne Hq Hfuel)
    as (g & r & p0 & rest & Hrun & _ & Hf & Hn).
  exists g, r. split; [exact Hrun|].
  assert (Hgaps : a <> FCFS -> non_overlapping g /\ gaps_are_waits l g).
  { intros Ha. destruct (Hn Ha) as (t & e & g' & Hch & _ & _ & Hlk).
    split; [eapply chain_le_non_overlapping; eauto|].
    intros i e1 e2 H1 H2.
    destruct (@links_nth _ _ Hlk i e1 e2 H1 H2) as (p & Hp & Hpid & Hst).
    exists p. split; [now apply sorted_In | auto]. }
  destruct a.
  - destruct (Hf eq_refl) as (t & Hch).
    assert (contiguous g) by (eapply chain_eq_contiguous; eauto).
    split; [now apply contiguous_non_overlapping|].
    split; [auto | congruence].
  - destruct Hgaps as [H1 H2]; [discriminate|].
    split; [exact H1|]. split; [discriminate | auto].
  - destruct Hgaps as [H1 H2]; [discriminate|].
    split; [exact H1|]. split; [discriminate | auto].
  - destruct Hgaps as [H1 H2]; [discriminate|].
    split; [exact H1|]. split; [discriminate | auto].
Qed.

Lemma timeline_ordered_witness :
  exists g r,
    snd (simulate SJF 2 16 [P "P1" 0 4; P "P2" 6 3]) = Done (g, r) /\
    non_overlapping g /\
    (SJF = FCFS -> contiguous g) /\
    (SJF <> FCFS -> gaps_are_waits [P "P1" 0 4; P "P2" 6 3] g).
Proof.
  apply (@timeline_ordered SJF 2 16 [P "P1" 0 4; P "P2" 6 3]).
  - reflexivity.
  - discriminate.
  - discriminate.
  - vm_compute. lia.
Defined.

Lemma fold_min_spec l : forall a,
  let m := fold_left Z.min l a in
  (m = a \/ In m l) /\ m <= a /\ Forall (fun x => m <= x) l.
Proof.
  induction l as [|x l IH]; simpl; intros a.
  - repeat split; auto; lia.
  - destruct (IH (Z.min a x)) as ([Hm|Hm] & Hle & Hall).
    + repeat split; try lia. constructor; [lia | assumption].
    + repeat split; auto; try lia. constructor; [lia | assumption].
Qed.

Lemma min_arrival_sorted l p0 rest :
  sort_by arrival l = p0 :: rest -> min_arrival l = Some (arrival p0).
Proof.
  intros Hs. destruct l as [|x l]; [discriminate|].
  unfold min_arrival. f_equal.
  destruct (fold_min_spec (map arrival l) (arrival x)) as (Hin & Hle & Hall).
  set (m := fold_left Z.min (map arrival l) (arrival x)) in *.
  assert (Hlow : forall q, In q (x :: l) -> m <= arrival q).
  { intros q [<-|Hq]; [exact Hle|].
    rewrite Forall_forall in Hall. apply Hall. now apply in_map. }
  assert (Hm : exists q, In q (x :: l) /\ arrival q = m).
  { destruct Hin as [->|Hin]; [exists x; split; [now left | reflexivity]|].
    apply in_map_iff in Hin as (q & Hq & Hin). exists q. split; [now right | auto]. }
  destruct Hm as (q & Hq & Hqm).
  assert (Hp0 : In p0 (x :: l)).
  { apply sorted_In. rewrite Hs. now left. }
  pose proof (sort_by_sorted arrival (x :: l)) as Hsorted.
  rewrite Hs in Hsorted. apply StronglySorted_inv in Hsorted as [_ Hall0].
  assert (Hq0 : arrival p0 <= arrival q).
  { apply sorted_In in Hq. rewrite Hs in Hq. destruct Hq as [<-|Hq]; [lia|].
    rewrite Forall_forall in Hall0. apply (Hall0 q Hq). }
  specialize (Hlow p0 Hp0). lia.
Qed.

(** C3 (as stated) fails for FCFS, whose clock starts at 0 and not at the
    first arrival: on the single process P1(arrival 3, burst 2) the first
    entry is the idle entry 0-3, which starts before the earliest arrival. *)
Lemma fcfs_first_event_counterexample :
  let l := [P "P1" 3 2] in
  validb l = true /\
  exists g r e,
    snd (simulate FCFS 1 (fuel_bound l) l) = Done (g, r) /\
    hd_error g = Some e /\ min_arrival l = Some 3 /\ e_start e <> 3.
Proof.
  cbv zeta. split; [reflexivity|].
  do 3 eexists. repeat split; try reflexivity. discriminate.
Qed.

(** C3 (amended): for a non-empty valid process list, the first entry of the
    timeline of SJF, Priority and Round Robin starts at the earliest
    arrival; the clock of FCFS starts at 0, so the first entry of FCFS
    starts at 0, which is the earliest arrival only when that is 0. *)
Theorem first_event_start a quantum fuel l :
  validb l = true -> l <> [] -> (a = RoundRobin -> 0 < quantum) ->
  (fuel_bound l <= fuel)%nat ->
  exists g r e m,
    snd (simulate a quantum fuel l) = Done (g, r) /\
    hd_error g = Some e /\ min_arrival l = Some m /\
    (a <> FCFS -> e_start e = m) /\
    (a = FCFS ->
     e_start e = 0 /\ 0 <= m /\ (0 < m -> e = mkEvent IDLE 0 m)).
Proof.
  intros Hv Hne Hq Hfuel.
  destruct (@simulate_chain a quantum fuel l Hv Hne Hq Hfuel)
    as (g & r & p0 & rest & Hrun & Hs & Hf & Hn).
  pose proof (min_arrival_sorted _ Hs) as Hmin.
  destruct a.
  - simpl in Hrun. destruct (fcfs_unfold l) as (t & g1 & r1 & Hfold & Hfc).
    rewrite Hfc in Hrun. simpl in Hrun. injection Hrun as <- <-.
    rewrite Hs in Hfold.
    destruct (fcfs_first _ _ Hfold) as (g2 & Hg).
    assert (Ha : 0 <= arrival p0).
    { pose proof (validb_arrival _ Hv) as Ha. rewrite Forall_forall in Ha.
      apply Ha. apply sorted_In. rewrite Hs. now left. }
    destruct (Z.ltb_spec 0 (arrival p0)) as [Hpos|Hzero]; simpl in Hg.
    + exists g1, r1, (mkEvent IDLE 0 (arrival p0)), (arrival p0).
      split; [simpl; now rewrite Hfc|]. split; [now rewrite Hg|].
      split; [exact Hmin|]. split; [congruence|]. intros _. auto.
    + eexists g1, r1, _, (arrival p0).
      split; [simpl; now rewrite Hfc|]. split; [now rewrite Hg|].
      split; [exact Hmin|]. split; [congruence|]. intros _.
      simpl. repeat split; lia.
  - destruct Hn as (t & e & g' & _ & -> & He & _); [discriminate|].
    exists (e :: g'), r, e, (arrival p0). repeat split; auto; discriminate.
  - destruct Hn as (t & e & g' & _ & -> & He & _); [discriminate|].
    exists (e :: g'), r, e, (arrival p0). repeat split; auto; discriminate.
  - destruct Hn as (t & e & g' & _ & -> & He & _); [discriminate|].
    exists (e :: g'), r, e, (arrival p0). repeat split; auto; discriminate.
Qed.

Lemma first_event_start_witness :
  exists g r e m,
    snd (simulate SJF 2 16 [P "P1" 4 4; P "P2" 1 3]) = Done (g, r) /\
    hd_error g = Some e /\ min_arrival [P "P1" 4 4; P "P2" 1 3] = Some m /\
    (SJF <> FCFS -> e_start e = m) /\
    (SJF = FCFS ->
     e_start e = 0 /\ 0 <= m /\ (0 < m -> e = mkEvent IDLE 0 m)).
Proof.
  apply (@first_event_start SJF 2 16 [P "P1" 4 4; P "P2" 1 3]).
  - reflexivity.
  - discriminate.
  - discriminate.
  - vm_compute. lia.
Defined.

(** ** Round Robin: who is queued before the process that just ran *)

Lemma filter_arrived new tail t :
  StronglySorted (key_le arrival) tail ->
  Forall (fun q => arrival q <= t) new ->
  (forall q, hd_error tail = Some q -> t < arrival q) ->
  filter (fun q => arrival q <=? t) (new ++ tail) = new.
Proof.
  intros Hs Hnew Htl. rewrite filter_app.
  assert (H1 : filter (fun q => arrival q <=? t) new = new).
  { induction Hnew as [|x new Hx _ IH]; simpl; auto.
    destruct (Z.leb_spec (arrival x) t); [now rewrite IH | lia]. }
  assert (H2 : filter (fun q => arrival q <=? t) tail = []).
  { destruct tail as [|y tail]; auto.
    specialize (Htl y eq_refl).
    apply StronglySorted_inv in Hs as [_ Hall].
    assert (Hall' : Forall (fun q => t < arrival q) (y :: tail)).
    { constructor; auto. eapply Forall_impl; [|exact Hall].
      unfold key_le. intros; lia. }
    clear - Hall'. induction Hall' as [|x l Hx _ IH]; simpl; auto.
    destruct (Z.leb_spec (arrival x) t); [lia | exact IH]. }
  now rewrite H1, H2, app_nil_r.
Qed.

(** C4 (as stated) fails: the second admission loop of Round Robin tests
    [arrival <= time], so a process that arrives exactly at the new clock is
    queued before the unfinished process that just ran.  With P1(0,4),
    P2(2,3) and quantum 2, after the slice P1 0-2 the queue is P2, P1. *)
Lemma rr_half_open_counterexample :
  let ps := [P "P1" 0 4; P "P2" 2 3] in
  (exists st',
     rr_step ps 2 (rr_init ps 0) = inr st' /\
     rr_time st' = arrival (P "P2" 2 3) /\
     rr_ready st' = [P "P2" 2 3; P "P1" 0 4]) /\
  ~ rr_slice_spec Z.ltb ps 2 (rr_init ps 0).
Proof.
  cbv zeta. split.
  - eexists. split; [reflexivity|]. split; reflexivity.
  - intros H.
    specialize (H 1%nat (P "P1" 0 4) [] 4 eq_refl eq_refl).
    destruct H as (st' & Hstep & _ & Hready).
    vm_compute in Hstep. injection Hstep as <-.
    vm_compute in Hready. discriminate.
Qed.

(** C4 (amended): in Round Robin, after a process p runs a slice
    [start, new clock), every process not yet queued whose arrival is at
    most the new clock (the closed bound: an arrival exactly at the new
    clock included) is enqueued, in arrival order, before p is re-enqueued
    when p is unfinished. *)
Theorem rr_requeue_order ps quantum st :
  StronglySorted (key_le arrival) ps ->
  rr_slice_spec Z.leb ps quantum st.
Proof.
  intros Hsorted i1 p rq rem Hadm Hget run_time clock.
  unfold rr_step. rewrite Hadm, Hget. fold run_time. fold clock.
  destruct (enqueue ps clock i1 rq) as [i2 ready2] eqn:Hadm2.
  unfold enqueue in Hadm2.
  apply enqueue_from_spec in Hadm2 as (new & tail & Hsk & -> & -> & Hnew & Htl).
  rewrite dict_get_set_same.
  assert (Hf : filter (fun q => arrival q <=? clock) (skipn i1 ps) = new).
  { rewrite Hsk. apply filter_arrived; auto.
    apply StronglySorted_app_r with (l1 := new). rewrite <- Hsk.
    now apply StronglySorted_skipn. }
  rewrite Hf.
  destruct (0 <? rem - run_time); eexists;
    (split; [reflexivity|]); (split; [reflexivity|]); simpl.
  - now rewrite <- app_assoc.
  - now rewrite app_nil_r.
Qed.

Lemma rr_requeue_order_witness :
  rr_slice_spec Z.leb [P "P1" 0 4; P "P2" 2 3] 2
    (rr_init [P "P1" 0 4; P "P2" 2 3] 0).
Proof.
  apply (@rr_requeue_order [P "P1" 0 4; P "P2" 2 3] 2).
  repeat constructor; unfold key_le; simpl; lia.
Defined.

(** ** SJF on two equal jobs *)



(** ** Inputs that are not valid *)

Lemma fcfs_keys l : forall t g r t' g' r',
  fold_left fcfs_body l (t, g, r) = (t', g', r') ->
  (forall k, In k (dict_keys r) -> In k (dict_keys r')) /\
  (forall p, In p l -> In (pid p) (dict_keys r')).
Proof.
  induction l as [|p l IH]; cbn [fold_left In]; intros t g r t' g' r' H.
  - injection H as <- <- <-. split; [auto | tauto].
  - rewrite fcfs_body_eq in H. destruct (IH _ _ _ _ _ _ H) as [IH1 IH2].
    split.
    + intros k Hk. apply IH1. apply dict_keys_set_in. now left.
    + intros q [<-|Hq]; [|auto].
      apply IH1. apply dict_keys_set_in. now right.
Qed.

(** Round Robin does not check its quantum: with quantum 0 every slice has
    length 0 and the loop never ends, whatever the bound on the loop. *)
Lemma rr_zero_quantum_spins fuel : forall g,
  rr_loop [P "A" 0 1] 0 fuel (mkRR 0 g [P "A" 0 1] [("A", 1)] [] 1)
  = OutOfFuel.
Proof.
  induction fuel as [|fuel IH]; intros g; [reflexivity|].
  cbn. apply IH.
Qed.

Lemma rr_zero_quantum_never_returns fuel :
  snd (round_robin fuel [P "A" 0 1] 0) = OutOfFuel.
Proof.
  destruct fuel as [|fuel]; [reflexivity|].
  unfold round_robin. cbn. now rewrite rr_zero_quantum_spins.
Qed.

(** C6 (as stated) fails: no engine validates its input.  FCFS on two
    processes that share the pid A reports no error and returns a timeline
    of two entries and one completion record; SJF schedules a process of
    burst 0, and FCFS a process of arrival -1, without an error. *)
Lemma no_validation_counterexample :
  let dup := [P "A" 0 1; P "A" 0 1] in
  (validb dup = false /\
   forall fuel,
     snd (simulate FCFS 1 fuel dup) =
     Done ([mkEvent "A" 0 1; mkEvent "A" 1 2], [("A", mkCompletion 0 1 2)])) /\
  (validb [P "A" 0 0] = false /\
   snd (simulate SJF 1 2 [P "A" 0 0]) =
   Done ([mkEvent "A" 0 0], [("A", mkCompletion 0 0 0)])) /\
  (validb [P "A" (-1) 1] = false /\
   snd (simulate FCFS 1 0 [P "A" (-1) 1]) =
   Done ([mkEvent "A" 0 1], [("A", mkCompletion (-1) 1 1)])).
Proof.
  cbv zeta. repeat split.
Qed.

(** C6 (amended): the engines have no validation step and no validation
    error.  FCFS reports no error on any process list, valid or not: it
    returns a timeline with an entry for every process and a completion
    record for every pid.  On the empty list SJF, Priority and Round Robin
    fail with an index error before any entry is emitted. *)
Theorem fcfs_never_rejects quantum fuel l :
  (exists g r,
     snd (simulate FCFS quantum fuel l) = Done (g, r) /\
     (length l <= length g)%nat /\
     forall p, In p l ->
       (exists e, In e g /\ e_pid e = pid p) /\ In (pid p) (dict_keys r)) /\
  forall a, a <> FCFS -> snd (simulate a quantum fuel []) = Raise IndexError.
Proof.
  split.
  - simpl. destruct (fcfs_unfold l) as (t & g & r & Hfold & ->).
    exists g, r. split; [reflexivity|].
    destruct (@fcfs_events _ _ _ _ _ _ _ Hfold) as (g2 & Hg & Hlen & _ & Hev).
    destruct (@fcfs_keys _ _ _ _ _ _ _ Hfold) as [_ Hk].
    simpl in Hg. subst g2. rewrite sort_by_length in Hlen.
    split; [exact Hlen|]. intros p Hp. apply sorted_In in Hp. auto.
  - intros [] Ha; try reflexivity. congruence.
Qed.

(** ** Metrics *)

(** *** Rounding to binary64 *)

Section Binary64.
Local Open Scope Q_scope.

Lemma pow2_pos e : 0 < 2 ^ e.
Proof. apply Qpower_0_lt. reflexivity. Qed.

Lemma pow2_plus a b : 2 ^ (a + b) == 2 ^ a * 2 ^ b.
Proof. apply Qpower_plus. discriminate. Qed.

Lemma pow2_le a b : (a <= b)%Z -> 2 ^ a <= 2 ^ b.
Proof. intros H. apply Qpower_le_compat_l; [exact H | discriminate]. Qed.

Lemma pow2_lt_inv a b : 2 ^ a < 2 ^ b -> (a < b)%Z.
Proof. intros H. apply (Qpower_lt_compat_l_inv 2); [exact H | reflexivity]. Qed.

Lemma pow2_Z a : (0 <= a)%Z -> inject_Z (2 ^ a) == 2 ^ a.
Proof. intros H. apply (Zpower_Qpower 2 a H). Qed.

Lemma pow2_succ a : 2 ^ (a + 1) == 2 * 2 ^ a.
Proof. rewrite pow2_plus. change (2 ^ 1) with 2. ring. Qed.

Lemma inject_Z_pos z : (0 < z)%Z -> 0 < inject_Z z.
Proof. intros H. unfold Qlt. simpl. lia. Qed.

Lemma ilog2_spec x : 0 < x -> 2 ^ ilog2 x <= x /\ x < 2 ^ (ilog2 x + 1).
Proof.
  intros Hx. destruct x as [p q]. unfold ilog2. cbn [Qnum Qden].
  assert (Hp : (0 < p)%Z).
  { unfold Qlt in Hx. simpl in Hx. lia. }
  set (a := Z.log2 p). set (b := Z.log2 (Z.pos q)).
  assert (Ha : (0 <= a)%Z) by apply Z.log2_nonneg.
  assert (Hb : (0 <= b)%Z) by apply Z.log2_nonneg.
  destruct (Z.log2_spec p Hp) as [Ha1 Ha2]. fold a in Ha1, Ha2.
  destruct (Z.log2_spec (Z.pos q) eq_refl) as [Hb1 Hb2]. fold b in Hb1, Hb2.
  assert (Hlow : 2 ^ (a - b - 1) < p # q).
  { replace (a - b - 1)%Z with (a - (b + 1))%Z by lia.
    rewrite Qpower_minus by discriminate.
    rewrite <- !pow2_Z by lia. rewrite Qmake_Qdiv.
    apply Qlt_shift_div_l; [reflexivity|].
    unfold Qdiv. rewrite <- Qmult_assoc, (Qmult_comm (/ _)), Qmult_assoc.
    apply Qlt_shift_div_r.
    { apply inject_Z_pos. lia. }
    rewrite <- !inject_Z_mult, <- Zlt_Qlt.
    replace (Z.succ b) with (b + 1)%Z in Hb2 by lia. nia. }
  assert (Hhigh : p # q < 2 ^ (a - b + 1)).
  { replace (a - b + 1)%Z with (a + 1 - b)%Z by lia.
    rewrite Qpower_minus by discriminate.
    rewrite <- !pow2_Z by lia. rewrite Qmake_Qdiv.
    apply Qlt_shift_div_l.
    { apply inject_Z_pos. lia. }
    unfold Qdiv. rewrite <- Qmult_assoc, (Qmult_comm (/ _)), Qmult_assoc.
    apply Qlt_shift_div_r; [reflexivity|].
    rewrite <- !inject_Z_mult, <- Zlt_Qlt.
    replace (Z.succ a) with (a + 1)%Z in Ha2 by lia. nia. }
  destruct (Qle_bool (2 ^ (a - b)) (p # q)) eqn:E.
  - apply Qle_bool_iff in E. split; [exact E | exact Hhigh].
  - assert (Hn : ~ 2 ^ (a - b) <= p # q).
    { intros H. apply Qle_bool_iff in H. congruence. }
    apply Qnot_le_lt in Hn.
    replace (a - b - 1 + 1)%Z with (a - b)%Z by lia.
    split; [apply Qlt_le_weak; exact Hlow | exact Hn].
Qed.


Lemma rhe_bounds y :
  inject_Z (round_half_even y) - (1 # 2) <= y /\
  y <= inject_Z (round_half_even y) + (1 # 2).
Proof.
  unfold round_half_even.
  pose proof (Qfloor_le y) as H1. pose proof (Qlt_floor y) as H2.
  rewrite inject_Z_plus in H2. change (inject_Z 1) with 1 in H2.
  destruct (Qcompare_spec (y - inject_Z (Qfloor y)) (1 # 2)) as [E|E|E].
  - destruct (Z.even (Qfloor y)).
    + split; lra.
    + rewrite inject_Z_plus. change (inject_Z 1) with 1. split; lra.
  - split; lra.
  - rewrite inject_Z_plus. change (inject_Z 1) with 1. split; lra.
Qed.

Lemma rhe_floor y :
  round_half_even y = Qfloor y \/ round_half_even y = (Qfloor y + 1)%Z.
Proof.
  unfold round_half_even.
  destruct (y - inject_Z (Qfloor y) ?= 1 # 2); auto.
  destruct (Z.even (Qfloor y)); auto.
Qed.

Lemma rhe_Z y k : y == inject_Z k -> round_half_even y = k.
Proof.
  intros E. unfold round_half_even.
  rewrite (Qfloor_comp _ _ E), Qfloor_Z.
  destruct (Qcompare_spec (y - inject_Z k) (1 # 2)) as [H|H|H];
    try reflexivity; lra.
Qed.

Lemma rhe_mono y1 y2 : y1 <= y2 -> (round_half_even y1 <= round_half_even y2)%Z.
Proof.
  intros H. pose proof (Qfloor_resp_le _ _ H) as Hf.
  destruct (Z.eq_dec (Qfloor y1) (Qfloor y2)) as [E|N].
  - unfold round_half_even. rewrite E.
    destruct (Qcompare_spec (y1 - inject_Z (Qfloor y2)) (1 # 2)) as [H1|H1|H1];
      destruct (Qcompare_spec (y2 - inject_Z (Qfloor y2)) (1 # 2)) as [H2|H2|H2];
      try destruct (Z.even (Qfloor y2)); try lia; lra.
  - destruct (rhe_floor y1) as [-> | ->], (rhe_floor y2) as [E2 | E2];
      rewrite E2; try lia.
Qed.

Lemma rhe_nearest y k :
  Qabs (inject_Z (round_half_even y) - y) <= Qabs (inject_Z k - y).
Proof.
  destruct (rhe_bounds y) as [B1 B2].
  pose proof (Qfloor_le y) as H1. pose proof (Qlt_floor y) as H2.
  rewrite inject_Z_plus in H2. change (inject_Z 1) with 1 in H2.
  assert (Hk : (k <= Qfloor y)%Z \/ (Qfloor y + 1 <= k)%Z) by lia.
  assert (Hm : inject_Z (round_half_even y) == inject_Z (Qfloor y) \/
               inject_Z (round_half_even y) == inject_Z (Qfloor y) + 1).
  { destruct (rhe_floor y) as [-> | ->]; [left; reflexivity|].
    right. rewrite inject_Z_plus. reflexivity. }
  destruct Hk as [Hk | Hk]; rewrite Zle_Qle in Hk;
    [|rewrite inject_Z_plus in Hk; change (inject_Z 1) with 1 in Hk];
    apply Qabs_Qle_condition;
    (eapply Qabs_case with (x := inject_Z k - y); intros Hs);
    destruct Hm as [Hm | Hm]; split; lra.
Qed.

Lemma round_pos_scaled x :
  0 < x -> scaled x (ilog2 x - 52) (round_half_even (x / 2 ^ (ilog2 x - 52))).
Proof.
  intros Hx. destruct (ilog2_spec Hx) as [L H].
  set (e := (ilog2 x - 52)%Z).
  pose proof (pow2_pos e) as He.
  assert (E1 : 2 ^ ilog2 x == 4503599627370496 * 2 ^ e).
  { replace (ilog2 x) with (52 + e)%Z by (unfold e; lia).
    rewrite pow2_plus. reflexivity. }
  assert (E2 : 2 ^ (ilog2 x + 1) == 9007199254740992 * 2 ^ e).
  { replace (ilog2 x + 1)%Z with (53 + e)%Z by (unfold e; lia).
    rewrite pow2_plus. reflexivity. }
  rewrite E1 in L. rewrite E2 in H.
  assert (Hy1 : inject_Z 4503599627370496 <= x / 2 ^ e).
  { apply Qle_shift_div_l; [exact He | exact L]. }
  assert (Hy2 : x / 2 ^ e <= inject_Z 9007199254740992).
  { apply Qle_shift_div_r; [exact He | apply Qlt_le_weak; exact H]. }
  apply rhe_mono in Hy1, Hy2.
  rewrite (@rhe_Z (inject_Z _) _ (Qeq_refl _)) in Hy1.
  rewrite (@rhe_Z (inject_Z 9007199254740992) _ (Qeq_refl _)) in Hy2.
  constructor; try assumption; try reflexivity.
  unfold round_pos. fold e. apply Qred_correct.
Qed.

Lemma ilog2_mono x y : 0 < x -> x <= y -> (ilog2 x <= ilog2 y)%Z.
Proof.
  intros Hx Hxy.
  destruct (ilog2_spec Hx) as [L _].
  destruct (@ilog2_spec y) as [_ H]; [lra|].
  assert (Hlt : 2 ^ ilog2 x < 2 ^ (ilog2 y + 1)) by lra.
  apply pow2_lt_inv in Hlt. lia.
Qed.

Lemma scale_div x e : x / 2 ^ e * 2 ^ e == x.
Proof.
  pose proof (pow2_pos e). rewrite Qmult_comm. apply Qmult_div_r. lra.
Qed.

Lemma div_le_compat x y d : 0 < d -> x <= y -> x / d <= y / d.
Proof.
  intros Hd H. apply Qle_shift_div_r; [exact Hd|].
  rewrite Qmult_comm, Qmult_div_r; lra.
Qed.

Lemma round_pos_mono x y : 0 < x -> x <= y -> round_pos x <= round_pos y.
Proof.
  intros Hx Hxy.
  assert (Hy : 0 < y) by lra.
  pose proof (ilog2_mono Hx Hxy) as Hl.
  destruct (round_pos_scaled Hx) as [Rx _ _ _ Mx].
  destruct (round_pos_scaled Hy) as [Ry _ _ My _].
  rewrite Rx, Ry.
  set (ex := (ilog2 x - 52)%Z) in *. set (ey := (ilog2 y - 52)%Z) in *.
  pose proof (pow2_pos ex) as Px. pose proof (pow2_pos ey) as Py.
  destruct (Z.eq_dec ex ey) as [E|N].
  - rewrite <- E in *.
    apply Qmult_le_compat_r; [|lra].
    rewrite <- Zle_Qle. apply rhe_mono.
    apply div_le_compat; assumption.
  - assert (Hstep : 2 * 2 ^ ex <= 2 ^ ey).
    { rewrite <- pow2_succ. apply pow2_le. unfold ex, ey in *. lia. }
    rewrite Zle_Qle in Mx, My.
    set (mx := inject_Z (round_half_even (x / 2 ^ ex))) in *.
    set (my := inject_Z (round_half_even (y / 2 ^ ey))) in *.
    change (inject_Z 9007199254740992) with 9007199254740992 in Mx.
    change (inject_Z 4503599627370496) with 4503599627370496 in My.
    apply Qle_trans with (9007199254740992 * 2 ^ ex).
    { apply Qmult_le_compat_r; lra. }
    apply Qle_trans with (4503599627370496 * 2 ^ ey); [lra|].
    apply Qmult_le_compat_r; lra.
Qed.

Lemma round_pos_pos x : 0 < x -> 0 < round_pos x.
Proof.
  intros Hx. destruct (round_pos_scaled Hx) as [R _ _ M _].
  rewrite R. apply Qmult_lt_0_compat; [|apply pow2_pos].
  apply inject_Z_pos. lia.
Qed.

Lemma Qnum_sign x :
  match Qnum x with
  | Z0 => x == 0
  | Zpos _ => 0 < x
  | Zneg _ => x < 0
  end.
Proof.
  destruct x as [[|p|p] q]; cbn [Qnum]; unfold Qeq, Qlt; simpl; lia.
Qed.

Lemma neg_pos x : x < 0 -> 0 < - x.
Proof. intros H. lra. Qed.

Lemma f64_round_mono x y : x <= y -> f64_round x <= f64_round y.
Proof.
  intros H. unfold f64_round.
  pose proof (Qnum_sign x) as Sx. pose proof (Qnum_sign y) as Sy.
  destruct (Qnum x), (Qnum y); try lra.
  - pose proof (round_pos_pos Sy). lra.
  - apply round_pos_mono; assumption.
  - pose proof (round_pos_pos (neg_pos Sx)). lra.
  - pose proof (round_pos_pos (neg_pos Sx)).
    pose proof (round_pos_pos Sy). lra.
  - assert (Hm : round_pos (- y) <= round_pos (- x)).
    { apply round_pos_mono; lra. }
    lra.
Qed.

Lemma f64_round_comp x y : x == y -> f64_round x == f64_round y.
Proof.
  intros E. apply Qle_antisym; apply f64_round_mono; lra.
Qed.

Lemma f64_round_0 x : x == 0 -> f64_round x == 0.
Proof.
  intros E. unfold f64_round. pose proof (Qnum_sign x) as S.
  destruct (Qnum x); lra.
Qed.

Lemma f64_round_nonneg x : 0 <= x -> 0 <= f64_round x.
Proof.
  intros H. apply f64_round_mono in H.
  rewrite (@f64_round_0 0) in H; [exact H | reflexivity].
Qed.

Lemma representable_comp x y : x == y -> representable x -> representable y.
Proof.
  intros E (m & j & Hm & Hx). exists m, j. split; [exact Hm|].
  rewrite <- E. exact Hx.
Qed.

Lemma representable_opp x : representable x -> representable (- x).
Proof.
  intros (m & j & Hm & Hx). exists (- m)%Z, j. split; [lia|].
  rewrite Hx, inject_Z_opp. ring.
Qed.

Lemma representable_scale x j : representable x -> representable (x * 2 ^ j).
Proof.
  intros (m & i & Hm & Hx). exists m, (i + j)%Z. split; [exact Hm|].
  rewrite Hx, pow2_plus. ring.
Qed.

Lemma representable_int k :
  (Z.abs k <= 2 ^ 53)%Z -> representable (inject_Z k).
Proof.
  intros Hk. destruct (Z.eq_dec (Z.abs k) (2 ^ 53)) as [E|N].
  - exists (k / 2)%Z, 1%Z. split.
    + change (2 ^ 53)%Z with 9007199254740992%Z in *. 
      assert (k = 9007199254740992 \/ k = - 9007199254740992)%Z as [-> | ->]
        by lia; reflexivity.
    + change (2 ^ 53)%Z with 9007199254740992%Z in *.
      assert (k = 9007199254740992 \/ k = - 9007199254740992)%Z as [-> | ->]
        by lia; reflexivity.
  - exists k, 0%Z. split; [lia|]. change (2 ^ 0) with 1. ring.
Qed.

Lemma round_pos_exact x m j :
  0 < x -> (Z.abs m < 2 ^ 53)%Z -> x == inject_Z m * 2 ^ j ->
  round_pos x == x.
Proof.
  intros Hx Hm E.
  destruct (round_pos_scaled Hx) as [R L _ _ _].
  set (e := (ilog2 x - 52)%Z) in *.
  pose proof (pow2_pos e) as Pe. pose proof (pow2_pos j) as Pj.
  assert (Hmq : inject_Z m < 9007199254740992).
  { change 9007199254740992 with (inject_Z 9007199254740992).
    rewrite <- Zlt_Qlt. change (2 ^ 53)%Z with 9007199254740992%Z in Hm. lia. }
  assert (Hej : (e <= j)%Z).
  { assert (Hlt : 2 ^ (52 + e) < 2 ^ (53 + j)).
    { rewrite !pow2_plus.
      change (2 ^ 52) with 4503599627370496.
      change (2 ^ 53) with 9007199254740992.
      apply Qle_lt_trans with x; [exact L|]. rewrite E.
      apply Qmult_lt_compat_r; assumption. }
    apply pow2_lt_inv in Hlt. lia. }
  assert (Ey : x / 2 ^ e == inject_Z (m * 2 ^ (j - e))).
  { rewrite inject_Z_mult, pow2_Z by lia.
    rewrite Qpower_minus by discriminate. rewrite E. field. lra. }
  rewrite R, (rhe_Z Ey). rewrite <- Ey. apply scale_div.
Qed.

Lemma f64_round_exact x : representable x -> f64_round x == x.
Proof.
  intros Hr. unfold f64_round. pose proof (Qnum_sign x) as S.
  destruct (Qnum x).
  - lra.
  - destruct Hr as (m & j & Hm & E). apply (@round_pos_exact x m j S Hm E).
  - destruct (representable_opp Hr) as (m & j & Hm & E).
    rewrite (@round_pos_exact (- x) m j (neg_pos S) Hm E). ring.
Qed.

Lemma round_pos_representable x : 0 < x -> representable (round_pos x).
Proof.
  intros Hx. destruct (round_pos_scaled Hx) as [R _ _ M1 M2].
  set (e := (ilog2 x - 52)%Z) in *.
  set (m := round_half_even (x / 2 ^ e)) in *.
  destruct (Z.eq_dec m 9007199254740992) as [E|N].
  - exists 4503599627370496%Z, (e + 1)%Z. split; [reflexivity|].
    rewrite R, E, pow2_succ.
    change (inject_Z 9007199254740992) with 9007199254740992.
    change (inject_Z 4503599627370496) with 4503599627370496. ring.
  - exists m, e. split; [|exact R].
    change (2 ^ 53)%Z with 9007199254740992%Z. lia.
Qed.

Lemma f64_round_representable x : representable (f64_round x).
Proof.
  unfold f64_round. pose proof (Qnum_sign x) as S.
  destruct (Qnum x).
  - exists 0%Z, 0%Z. split; reflexivity.
  - apply round_pos_representable, S.
  - apply representable_opp, round_pos_representable, neg_pos, S.
Qed.

Lemma Qabs_scale a e : Qabs (a * 2 ^ e) == Qabs a * 2 ^ e.
Proof.
  rewrite Qabs_Qmult. rewrite (Qabs_pos (2 ^ e)); [reflexivity|].
  apply Qlt_le_weak, pow2_pos.
Qed.

Lemma round_pos_nearest x g :
  0 < x -> representable g -> Qabs (round_pos x - x) <= Qabs (g - x).
Proof.
  intros Hx (mg & j & Hmg & Eg).
  destruct (round_pos_scaled Hx) as [R L _ _ _].
  set (e := (ilog2 x - 52)%Z) in *.
  set (y := x / 2 ^ e) in *.
  pose proof (pow2_pos e) as Pe. pose proof (pow2_pos j) as Pj.
  assert (Ex : x == y * 2 ^ e) by (symmetry; apply scale_div).
  assert (Hy : inject_Z 4503599627370496 <= y).
  { apply Qle_shift_div_l; [exact Pe | exact L]. }
  clearbody y.
  assert (HA : forall k,
             Qabs (round_pos x - x) <= Qabs (inject_Z k * 2 ^ e - x)).
  { intros k.
    assert (E1 : round_pos x - x
                 == (inject_Z (round_half_even y) - y) * 2 ^ e).
    { rewrite R, Ex. ring. }
    assert (E2 : inject_Z k * 2 ^ e - x == (inject_Z k - y) * 2 ^ e).
    { rewrite Ex. ring. }
    rewrite E1, E2, !Qabs_scale.
    apply Qmult_le_compat_r; [apply rhe_nearest | lra]. }
  set (F := Qfloor y).
  assert (Hlo : inject_Z F * 2 ^ e <= x).
  { rewrite Ex. apply Qmult_le_compat_r; [apply Qfloor_le | lra]. }
  assert (Hhi : x < inject_Z (F + 1) * 2 ^ e).
  { rewrite Ex. apply Qmult_lt_compat_r; [lra | apply Qlt_floor]. }
  assert (HF : (4503599627370496 <= F)%Z).
  { rewrite <- (Qfloor_Z 4503599627370496). apply Qfloor_resp_le, Hy. }
  assert (HB : g <= inject_Z F * 2 ^ e \/ inject_Z (F + 1) * 2 ^ e <= g).
  { destruct (Z_le_gt_dec mg 0) as [Hneg | Hpos].
    - left. apply Qle_trans with 0.
      + rewrite Eg. rewrite Zle_Qle in Hneg.
        change (inject_Z 0) with 0 in Hneg.
        setoid_replace 0 with (0 * 2 ^ j) by ring.
        apply Qmult_le_compat_r; lra.
      + apply Qmult_le_0_compat; [|lra].
        change 0 with (inject_Z 0). rewrite <- Zle_Qle. lia.
    - destruct (Z_le_gt_dec e j) as [Hej | Hej].
      + assert (EK : g == inject_Z (mg * 2 ^ (j - e)) * 2 ^ e).
        { rewrite inject_Z_mult, pow2_Z by lia.
          rewrite Eg. rewrite Qpower_minus by discriminate. field. lra. }
        destruct (Z_le_gt_dec (mg * 2 ^ (j - e)) F) as [HK | HK].
        * left. rewrite EK. apply Qmult_le_compat_r; [|lra].
          rewrite <- Zle_Qle. exact HK.
        * right. rewrite EK. apply Qmult_le_compat_r; [|lra].
          rewrite <- Zle_Qle. lia.
      + left.
        assert (Hstep : 2 * 2 ^ j <= 2 ^ e).
        { rewrite <- pow2_succ. apply pow2_le. lia. }
        assert (Hmq : inject_Z mg <= 9007199254740992).
        { change 9007199254740992 with (inject_Z 9007199254740992).
          rewrite <- Zle_Qle.
          change (2 ^ 53)%Z with 9007199254740992%Z in Hmg. lia. }
        assert (HFq : 4503599627370496 <= inject_Z F).
        { change 4503599627370496 with (inject_Z 4503599627370496).
          rewrite <- Zle_Qle. exact HF. }
        rewrite Eg.
        apply Qle_trans with (9007199254740992 * 2 ^ j).
        { apply Qmult_le_compat_r; lra. }
        apply Qle_trans with (4503599627370496 * 2 ^ e); [lra|].
        apply Qmult_le_compat_r; lra. }
  destruct HB as [HB | HB].
  - apply Qle_trans with (1 := HA F).
    apply Qabs_Qle_condition.
    eapply Qabs_case with (x := g - x); intros Hs; split; lra.
  - apply Qle_trans with (1 := HA (F + 1)%Z).
    apply Qabs_Qle_condition.
    eapply Qabs_case with (x := g - x); intros Hs; split; lra.
Qed.

Lemma f64_round_nearest x : nearest x (f64_round x).
Proof.
  split; [apply f64_round_representable|].
  intros g Hg. unfold f64_round. pose proof (Qnum_sign x) as S.
  destruct (Qnum x).
  - setoid_replace (0 - x) with 0 by lra. apply Qabs_nonneg.
  - apply round_pos_nearest; assumption.
  - pose proof (@round_pos_nearest (- x) (- g) (neg_pos S)
                  (representable_opp Hg)) as H.
    rewrite <- (Qabs_opp (- round_pos (- x) - x)).
    rewrite <- (Qabs_opp (g - x)).
    setoid_replace (- (- round_pos (- x) - x)) with (round_pos (- x) - - x)
      by ring.
    setoid_replace (- (g - x)) with (- g - - x) by ring.
    exact H.
Qed.

Lemma round_pos_error x :
  0 < x -> Qabs (round_pos x - x) <= x * (1 # 9007199254740992).
Proof.
  intros Hx.
  destruct (round_pos_scaled Hx) as [R L _ _ _].
  set (e := (ilog2 x - 52)%Z) in *.
  set (y := x / 2 ^ e) in *.
  pose proof (pow2_pos e) as Pe.
  assert (Ex : x == y * 2 ^ e) by (symmetry; apply scale_div).
  clearbody y.
  assert (E1 : round_pos x - x
               == (inject_Z (round_half_even y) - y) * 2 ^ e).
  { rewrite R, Ex. ring. }
  rewrite E1, Qabs_scale.
  destruct (rhe_bounds y) as [B1 B2].
  assert (Hh : Qabs (inject_Z (round_half_even y) - y) <= 1 # 2).
  { apply Qabs_Qle_condition. split; lra. }
  apply Qle_trans with ((1 # 2) * 2 ^ e).
  { apply Qmult_le_compat_r; lra. }
  lra.
Qed.

Lemma f64_round_error x :
  Qabs (f64_round x - x) <= Qabs x * (1 # 9007199254740992).
Proof.
  unfold f64_round. pose proof (Qnum_sign x) as S.
  destruct (Qnum x).
  - setoid_replace (0 - x) with 0 by lra.
    apply Qmult_le_0_compat; [apply Qabs_nonneg | discriminate].
  - rewrite (Qabs_pos x) by lra. apply round_pos_error, S.
  - rewrite (Qabs_neg x) by lra.
    pose proof (round_pos_error (neg_pos S)) as H.
    rewrite <- (Qabs_opp (- round_pos (- x) - x)).
    setoid_replace (- (- round_pos (- x) - x)) with (round_pos (- x) - - x)
      by ring.
    exact H.
Qed.

Lemma f64_round_int x k :
  x == inject_Z k -> (Z.abs k <= 2 ^ 53)%Z -> f64_round x == inject_Z k.
Proof.
  intros E Hk. rewrite <- E. apply f64_round_exact.
  apply (@representable_comp (inject_Z k)); [symmetry; exact E|].
  apply representable_int, Hk.
Qed.

Lemma f64_sum_fold_exact l : forall a acc,
  acc == inject_Z a ->
  (Z.abs a + zsum (map Z.abs l) <= 2 ^ 53)%Z ->
  fold_left (fun acc x => f64_add acc (f64_of_int x)) l acc
  == inject_Z (a + zsum l).
Proof.
  induction l as [|x l IH]; intros a acc Ha Hr; cbn [fold_left].
  - change (zsum []) with 0%Z. rewrite Z.add_0_r. exact Ha.
  - change (zsum (x :: l)) with (x + zsum l)%Z.
    change (zsum (map Z.abs (x :: l)))
      with (Z.abs x + zsum (map Z.abs l))%Z in Hr.
    assert (Hl : (0 <= zsum (map Z.abs l))%Z).
    { clear. induction l as [|y l IH]; [simpl; lia|].
      change (zsum (map Z.abs (y :: l)))
        with (Z.abs y + zsum (map Z.abs l))%Z. lia. }
    rewrite Z.add_assoc. apply IH; [|lia].
    unfold f64_add, f64_of_int. apply f64_round_int; [|lia].
    rewrite inject_Z_plus, Ha.
    rewrite (@f64_round_int (inject_Z x) x); [reflexivity | reflexivity | lia].
Qed.

Lemma f64_sum_exact l :
  (zsum (map Z.abs l) <= 2 ^ 53)%Z -> f64_sum l == inject_Z (zsum l).
Proof.
  intros H. unfold f64_sum.
  rewrite (@f64_sum_fold_exact l 0%Z 0); [reflexivity | reflexivity | simpl; lia].
Qed.

Lemma f64_sum_fold_mono (A : Type) (f g : A -> Z) (l : list A) :
  (forall x, In x l -> (f x <= g x)%Z) ->
  forall a b, a <= b ->
  fold_left (fun acc x => f64_add acc (f64_of_int x)) (map f l) a
  <= fold_left (fun acc x => f64_add acc (f64_of_int x)) (map g l) b.
Proof.
  induction l as [|x l IH]; intros H a b Hab; cbn [map fold_left].
  - exact Hab.
  - apply IH; [intros y Hy; apply H; right; exact Hy|].
    unfold f64_add, f64_of_int. apply f64_round_mono.
    assert (Hx : f64_round (inject_Z (f x)) <= f64_round (inject_Z (g x))).
    { apply f64_round_mono. rewrite <- Zle_Qle. apply H. left. reflexivity. }
    lra.
Qed.

Lemma f64_sum_fold_nonneg (l : list Z) :
  (forall x, In x l -> (0 <= x)%Z) ->
  forall a, 0 <= a ->
  0 <= fold_left (fun acc x => f64_add acc (f64_of_int x)) l a.
Proof.
  induction l as [|x l IH]; intros H a Ha; cbn [fold_left].
  - exact Ha.
  - apply IH; [intros y Hy; apply H; right; exact Hy|].
    unfold f64_add, f64_of_int. apply f64_round_nonneg.
    assert (Hx : 0 <= f64_round (inject_Z x)).
    { apply f64_round_nonneg. change 0 with (inject_Z 0).
      rewrite <- Zle_Qle. apply H. left. reflexivity. }
    lra.
Qed.

Lemma f64_count_pos n : (1 <= n)%Z -> 1 <= f64_of_int n.
Proof.
  intros H. unfold f64_of_int.
  rewrite <- (@f64_round_int 1 1); [|reflexivity | simpl; lia].
  apply f64_round_mono. change 1 with (inject_Z 1) at 1.
  rewrite <- Zle_Qle. exact H.
Qed.

Lemma mean_mono (A : Type) (f g : A -> Z) (l : list A) :
  l <> [] ->
  (forall x, In x l -> (f x <= g x)%Z) ->
  exists q1 q2,
    mean (map f l) = Some q1 /\ mean (map g l) = Some q2 /\ q1 <= q2.
Proof.
  intros Hne H. destruct l as [|x l]; [congruence|].
  do 2 eexists. split; [reflexivity|]. split; [reflexivity|].
  rewrite !length_map. unfold f64_div. apply f64_round_mono.
  apply div_le_compat.
  - pose proof (@f64_count_pos (Z.of_nat (length (x :: l)))) as Hc.
    simpl length in *. lapply Hc; [lra | lia].
  - unfold f64_sum. apply f64_sum_fold_mono; [exact H | lra].
Qed.

Lemma mean_nonneg (l : list Z) :
  l <> [] ->
  (forall x, In x l -> (0 <= x)%Z) ->
  exists q, mean l = Some q /\ 0 <= q.
Proof.
  intros Hne H. destruct l as [|x l]; [congruence|].
  eexists. split; [reflexivity|].
  unfold f64_div. apply f64_round_nonneg.
  apply Qle_shift_div_l.
  - pose proof (@f64_count_pos (Z.of_nat (length (x :: l)))) as Hc.
    simpl length in *. lapply Hc; [lra | lia].
  - rewrite Qmult_0_l. unfold f64_sum.
    apply f64_sum_fold_nonneg; [exact H | lra].
Qed.

Lemma mean_small (l : list Z) :
  l <> [] -> small_column l ->
  exists q, mean l = Some q /\ q == f64_round (exact_mean l).
Proof.
  intros Hne [Hs Hn]. destruct l as [|x l]; [congruence|].
  eexists. split; [reflexivity|].
  unfold f64_div, exact_mean. apply f64_round_comp.
  rewrite (@f64_sum_exact _ Hs).
  unfold f64_of_int.
  rewrite (@f64_round_int (inject_Z (Z.of_nat (length (x :: l)))) _
             (Qeq_refl _)); [reflexivity | lia].
Qed.

Lemma nearest_comp x y f g : x == y -> f == g -> nearest x f -> nearest y g.
Proof.
  intros Ex Ef [Hr Hn]. split.
  - apply (representable_comp Ef Hr).
  - intros h Hh. rewrite <- Ex, <- Ef. apply Hn, Hh.
Qed.

Lemma nearest_exact x f :
  nearest x f -> (f == x <-> representable x).
Proof.
  intros [Hr Hn]. split.
  - intros E. apply (representable_comp E Hr).
  - intros Hx. specialize (Hn x Hx).
    setoid_replace (x - x) with 0 in Hn by ring.
    change (Qabs 0) with 0 in Hn.
    pose proof (Qabs_nonneg (f - x)) as H0.
    assert (E : Qabs (f - x) == 0) by lra.
    revert E. apply Qabs_case; intros; lra.
Qed.

End Binary64.

(** *** The mean of a column *)

Lemma zsum_abs l : Z.abs (zsum l) <= zsum (map Z.abs l).
Proof.
  induction l as [|x l IH]; [simpl; lia|].
  change (zsum (x :: l)) with (x + zsum l).
  change (zsum (map Z.abs (x :: l))) with (Z.abs x + zsum (map Z.abs l)).
  lia.
Qed.

Lemma mean_representable l :
  l <> [] -> exists q, mean l = Some q /\ representable q.
Proof.
  intros Hne. destruct l as [|x l]; [congruence|].
  eexists. split; [reflexivity|]. apply f64_round_representable.
Qed.

Lemma mean_rounded l :
  l <> [] -> small_column l ->
  exists q, mean l = Some q /\ rounded_mean l q.
Proof.
  intros Hne Hs. destruct (mean_small Hne Hs) as (q & Hq & E).
  exists q. split; [exact Hq|].
  assert (Hn : nearest (exact_mean l) q).
  { apply (@nearest_comp (exact_mean l) (exact_mean l)
             (f64_round (exact_mean l)) q).
    - reflexivity.
    - symmetry. exact E.
    - apply f64_round_nearest. }
  split; [exact Hn|]. split.
  - rewrite E. apply f64_round_error.
  - apply nearest_exact, Hn.
Qed.

Lemma exact_mean_pow2 l k :
  small_column l -> length l = (2 ^ k)%nat -> representable (exact_mean l).
Proof.
  intros [Hs _] Hlen. unfold exact_mean. rewrite Hlen.
  pose proof (zsum_abs l) as Ha.
  apply (@representable_comp
           ((inject_Z (zsum l) * 2 ^ (- Z.of_nat k))%Q)).
  - rewrite Nat2Z.inj_pow. change (Z.of_nat 2) with 2.
    rewrite pow2_Z by lia. rewrite Qpower_opp. reflexivity.
  - apply representable_scale, representable_int. lia.
Qed.

(** The rounding agrees with IEEE 754 binary64 as the Standard Library
    specifies it: on the conversion of an integer beyond 2^53, on an
    inexact sum, and on the quotient of every column sum from -64 to 64 by
    every number of rows from 1 to 10. *)
Example f64_agrees_with_binary64 :
  b64_value (b64_of_Z 9223372036854775807)
  = Some (f64_of_int 9223372036854775807) /\
  b64_value (SFadd 53 1024 (b64_of_Z 9007199254740993) (b64_of_Z 3))
  = Some (f64_add (f64_of_int 9007199254740993) (f64_of_int 3)) /\
  forallb
    (fun n =>
       forallb
         (fun s =>
            match b64_value (SFdiv 53 1024 (b64_of_Z s) (b64_of_Z n)) with
            | Some q => Qeq_bool q (f64_div (f64_of_int s) (f64_of_int n))
            | None => false
            end)
         (map (fun i => Z.of_nat i - 64) (seq 0 129)))
    (map Z.of_nat (seq 1 10))
  = true.
Proof. repeat split; vm_compute; reflexivity. Qed.

(** C7 (as stated) fails on the averages: they are binary64 numbers, not
    exact means.  For the records of three processes that waited 0, 1 and
    0 (FCFS on P1(0,1), P2(0,1), P3(2,1)), the average waiting time is
    6004799503160661 / 2^54, printed 0.3333333333333333, and the average
    turnaround 6004799503160661 / 2^52; neither, times the number of rows,
    is the sum of its column. *)
Lemma mean_not_exact_counterexample :
  let results :=
    [("P1", mkCompletion 0 1 1); ("P2", mkCompletion 0 1 2);
     ("P3", mkCompletion 2 1 3)] in
  snd (simulate FCFS 1 0 [P "P1" 0 1; P "P2" 0 1; P "P3" 2 1])
  = Done ([mkEvent "P1" 0 1; mkEvent "P2" 1 2; mkEvent "P3" 2 3], results) /\
  exists df qw qt,
    calculate_metrics results = (df, Some qw, Some qt) /\
    map m_waiting df = [0; 1; 0] /\ map m_turnaround df = [1; 2; 1] /\
    qw = (6004799503160661 # 18014398509481984)%Q /\
    qt = (6004799503160661 # 4503599627370496)%Q /\
    ~ (qw * inject_Z (Z.of_nat (length df))
       == inject_Z (zsum (map m_waiting df)))%Q /\
    ~ (qt * inject_Z (Z.of_nat (length df))
       == inject_Z (zsum (map m_turnaround df)))%Q.
Proof.
  cbv zeta. split; [reflexivity|].
  do 3 eexists. split; [vm_compute; reflexivity|].
  split; [reflexivity|]. split; [reflexivity|].
  split; [reflexivity|]. split; [reflexivity|].
  split; intros H; vm_compute in H; discriminate.
Qed.

(** C7 (amended): on a non-empty set of completion records
    [calculate_metrics] returns, in the order of the records, one row per
    record with turnaround = completion - arrival and waiting = turnaround
    - burst, exact integers.  The two averages are binary64 numbers.  When
    the absolute values of a column sum to at most 2^53, so that its
    floating-point sum is exact, the average is the arithmetic mean of the
    column rounded once: a binary64 number nearest to the mean, within a
    relative error of 2^-53 of it, and equal to it exactly when the mean
    is itself a binary64 number. *)
Theorem calculate_metrics_spec results :
  results <> [] ->
  let '(df, avg_wt, avg_tat) := calculate_metrics results in
  length df = length results /\
  (forall i k r, nth_error results i = Some (k, r) ->
     nth_error df i =
     Some (mkRow k (r_arrival r) (r_burst r) (r_completion r)
             (r_completion r - r_arrival r)
             (r_completion r - r_arrival r - r_burst r))) /\
  (forall row, In row df ->
     m_turnaround row = m_completion row - m_arrival row /\
     m_waiting row = m_turnaround row - m_burst row) /\
  exists qw qt,
    avg_wt = Some qw /\ avg_tat = Some qt /\
    representable qw /\ representable qt /\
    (small_column (map m_waiting df) ->
     rounded_mean (map m_waiting df) qw) /\
    (small_column (map m_turnaround df) ->
     rounded_mean (map m_turnaround df) qt).
Proof.
  intros Hne. unfold calculate_metrics.
  set (df := map metrics_row results).
  assert (Hlen : length df = length results) by apply length_map.
  split; [exact Hlen|]. split; [|split].
  - intros i k r Hi. unfold df. rewrite nth_error_map, Hi. reflexivity.
  - intros row Hrow. unfold df in Hrow.
    apply in_map_iff in Hrow as ([k r] & <- & _). simpl. split; reflexivity.
  - assert (Hdf : df <> []).
    { intros E. rewrite E in Hlen. destruct results; [congruence | discriminate]. }
    assert (Hw : map m_waiting df <> []).
    { destruct df; [congruence | discriminate]. }
    assert (Ht : map m_turnaround df <> []).
    { destruct df; [congruence | discriminate]. }
    destruct (mean_representable Hw) as (qw & Eqw & Rw).
    destruct (mean_representable Ht) as (qt & Eqt & Rt).
    exists qw, qt.
    split; [exact Eqw|]. split; [exact Eqt|].
    split; [exact Rw|]. split; [exact Rt|].
    split; intros Hs.
    + destruct (mean_rounded Hw Hs) as (q & Eq & Hq).
      rewrite Eqw in Eq. injection Eq as <-. exact Hq.
    + destruct (mean_rounded Ht Hs) as (q & Eq & Hq).
      rewrite Eqt in Eq. injection Eq as <-. exact Hq.
Qed.

Lemma calculate_metrics_spec_witness :
  let '(df, avg_wt, avg_tat) :=
    calculate_metrics
      [("P1", mkCompletion 0 1 1); ("P2", mkCompletion 0 1 2);
       ("P3", mkCompletion 2 1 3)] in
  length df = 3%nat /\
  (forall i k r,
     nth_error [("P1", mkCompletion 0 1 1); ("P2", mkCompletion 0 1 2);
                ("P3", mkCompletion 2 1 3)] i
     = Some (k, r) ->
     nth_error df i =
     Some (mkRow k (r_arrival r) (r_burst r) (r_completion r)
             (r_completion r - r_arrival r)
             (r_completion r - r_arrival r - r_burst r))) /\
  (forall row, In row df ->
     m_turnaround row = m_completion row - m_arrival row /\
     m_waiting row = m_turnaround row - m_burst row) /\
  exists qw qt,
    avg_wt = Some qw /\ avg_tat = Some qt /\
    representable qw /\ representable qt /\
    (small_column (map m_waiting df) ->
     rounded_mean (map m_waiting df) qw) /\
    (small_column (map m_turnaround df) ->
     rounded_mean (map m_turnaround df) qt).
Proof.
  apply (@calculate_metrics_spec
           [("P1", mkCompletion 0 1 1); ("P2", mkCompletion 0 1 2);
            ("P3", mkCompletion 2 1 3)]).
  discriminate.
Defined.

Example metrics_scenario :
  calculate_metrics [("P1", mkCompletion 0 4 4); ("P2", mkCompletion 1 3 7)]
  = ([mkRow "P1" 0 4 4 4 0; mkRow "P2" 1 3 7 6 3],
     Some (Qmake 3 2), Some (Qmake 5 1)).
Proof. vm_compute. reflexivity. Qed.

(** ** The caller's list *)

Lemma processes_after_eq a quantum fuel l :
  processes_after a quantum fuel l = sort_by arrival l.
Proof.
  unfold processes_after. destruct a; simpl; try reflexivity.
  destruct (fcfs_unfold l) as (t & g & r & _ & ->). reflexivity.
Qed.

(** C8 (as stated) fails: every engine starts with
    [processes.sort(key=arrival)], which sorts the caller's list in place.
    After FCFS on P1(5,1), P2(0,1) the caller holds P2, P1. *)
Lemma sort_in_place_counterexample :
  let l := [P "P1" 5 1; P "P2" 0 1] in
  validb l = true /\
  processes_after FCFS 1 (fuel_bound l) l = [P "P2" 0 1; P "P1" 5 1] /\
  processes_after FCFS 1 (fuel_bound l) l <> l.
Proof.
  cbv zeta. split; [reflexivity|]. split; [reflexivity | discriminate].
Qed.

(** C8 (amended): after any engine returns or fails, the caller's process
    sequence holds the same processes, stably sorted by arrival: it is a
    permutation of the sequence before the call, and it is in the same
    order as before exactly when that sequence was already in arrival
    order. *)
Theorem processes_after_sorted a quantum fuel l :
  processes_after a quantum fuel l = sort_by arrival l /\
  Permutation (processes_after a quantum fuel l) l /\
  StronglySorted (key_le arrival) (processes_after a quantum fuel l) /\
  (processes_after a quantum fuel l = l <->
   StronglySorted (key_le arrival) l).
Proof.
  rewrite processes_after_eq. split; [reflexivity|].
  split; [apply sort_by_perm|]. split; [apply sort_by_sorted|]. split.
  - intros H. rewrite <- H. apply sort_by_sorted.
  - apply sort_by_fixed.
Qed.

(** ** Termination *)

Lemma engine_progress_holds a quantum l p0 rest :
  validb l = true -> sort_by arrival l = p0 :: rest ->
  (a = RoundRobin -> 0 < quantum) ->
  engine_progress a quantum (sort_by arrival l).
Proof.
  intros Hv Hs Hq.
  pose proof (sorted_NoDup _ (validb_NoDup _ Hv)) as Hnd.
  pose proof (sorted_Forall (validb_burst _ Hv)) as Hb.
  pose proof (sort_by_sorted arrival l) as Hso.
  destruct a; simpl; auto.
  - intros st Hreach Hc.
    pose proof (@sel_reach_inv burst _ p0 rest Hs Hnd Hb Hso st Hreach) as Hinv.
    destruct (@sel_step_ok burst _ p0 rest Hs Hnd Hb Hso st Hinv Hc)
      as (st' & Hstep & _ & Hprog & _). eauto.
  - intros st Hreach Hc.
    pose proof (@sel_reach_inv prio _ p0 rest Hs Hnd Hb Hso st Hreach) as Hinv.
    destruct (@sel_step_ok prio _ p0 rest Hs Hnd Hb Hso st Hinv Hc)
      as (st' & Hstep & _ & Hprog & _). eauto.
  - intros st Hreach Hc. specialize (Hq eq_refl).
    pose proof (@rr_reach_inv _ quantum p0 rest Hs Hnd Hb Hq Hso st Hreach) as Hinv.
    destruct (@rr_step_ok _ quantum p0 rest Hs Hnd Hq Hso st Hinv Hc)
      as (st' & Hstep & _ & Hprog & _). eauto.
Qed.

Lemma simulate_records a quantum fuel l :
  validb l = true -> l <> [] -> (a = RoundRobin -> 0 < quantum) ->
  (fuel_bound l <= fuel)%nat ->
  exists g r,
    snd (simulate a quantum fuel l) = Done (g, r) /\
    forall p, In p l ->
      exists c,
        dict_get r (pid p) = Some (mkCompletion (arrival p) (burst p) c).
Proof.
  intros Hv Hne Hq Hfuel.
  pose proof (sorted_NoDup _ (validb_NoDup _ Hv)) as Hnd.
  assert (Hsel : forall key,
    exists g r, snd (sel_engine key fuel l) = Done (g, r) /\
      forall p, In p l ->
        exists c,
          dict_get r (pid p) = Some (mkCompletion (arrival p) (burst p) c)).
  { intros key.
    destruct (@sel_engine_ok key l fuel Hv Hne Hfuel)
      as (p0 & rest & st & Hs & Hrun & Hinv & Hc).
    exists (s_gantt st), (s_results st). split; [exact Hrun|].
    intros p Hp. apply sorted_In in Hp.
    destruct (sel_busy_done Hinv p Hp) as (_ & c & Hget & _).
    - eapply sel_all_done; eauto.
    - eauto. }
  destruct a; simpl.
  - destruct (fcfs_unfold l) as (t & g & r & Hfold & ->).
    exists g, r. split; [reflexivity|].
    intros p Hp. apply sorted_In in Hp.
    destruct (@fcfs_results _ _ _ _ _ _ _ Hnd Hfold) as [_ Hrec].
    destruct (Hrec p Hp) as (c & Hget & _). eauto.
  - apply Hsel.
  - apply Hsel.
  - destruct (@rr_engine_ok l quantum fuel Hv Hne (Hq eq_refl) Hfuel)
      as (p0 & rest & st & res & Hs & Hrun & Hinv & Hc & Hrec).
    exists (rr_gantt st), res. split; [exact Hrun|].
    intros p Hp. destruct (Hrec p Hp) as (c & _ & Hget). eauto.
Qed.

(** C9: for a non-empty valid process list and, for Round Robin, a quantum
    > 0, every engine terminates: run with at least [fuel_bound]
    evaluations of the loop condition it returns a result, in which every
    process has a completion record; and every iteration of the main loop
    of SJF, Priority and Round Robin, from any state the loop reaches,
    either strictly reduces the remaining work or keeps it and strictly
    advances the clock to the arrival of the next process. *)
Theorem engines_terminate a quantum fuel l :
  validb l = true -> l <> [] -> (a = RoundRobin -> 0 < quantum) ->
  (fuel_bound l <= fuel)%nat ->
  (exists g r,
     snd (simulate a quantum fuel l) = Done (g, r) /\
     forall p, In p l ->
       exists c,
         dict_get r (pid p) = Some (mkCompletion (arrival p) (burst p) c)) /\
  engine_progress a quantum (processes_after a quantum fuel l).
Proof.
  intros Hv Hne Hq Hfuel. split.
  - now apply simulate_records.
  - rewrite processes_after_eq.
    destruct (sorted_nonempty Hne) as (p0 & rest & Hs).
    eapply engine_progress_holds; eauto.
Qed.

Lemma engines_terminate_witness :
  (exists g r,
     snd (simulate RoundRobin 2 16 [P "P1" 0 4; P "P2" 1 3]) = Done (g, r) /\
     forall p, In p [P "P1" 0 4; P "P2" 1 3] ->
       exists c,
         dict_get r (pid p) = Some (mkCompletion (arrival p) (burst p) c)) /\
  engine_progress RoundRobin 2
    (processes_after RoundRobin 2 16 [P "P1" 0 4; P "P2" 1 3]).
Proof.
  apply (@engines_terminate RoundRobin 2 16 [P "P1" 0 4; P "P2" 1 3]).
  - reflexivity.
  - discriminate.
  - intros _. lia.
  - vm_compute. lia.
Defined.

(** ** The empty process list *)

(** C10: on the empty process list FCFS returns an empty timeline and an
    empty completion map, while SJF, Priority and Round Robin fail at once
    with an index error, raised by [processes[0]] before the loop. *)
Theorem empty_list_behaviour quantum fuel :
  snd (simulate FCFS quantum fuel []) = Done ([], []) /\
  snd (simulate SJF quantum fuel []) = Raise IndexError /\
  snd (simulate Priority quantum fuel []) = Raise IndexError /\
  snd (simulate RoundRobin quantum fuel []) = Raise IndexError.
Proof. repeat split. Qed.

(** ** Scenarios of the specification *)

Example fcfs_scenario :
  snd (fcfs [P "P1" 0 4; P "P2" 1 3]) =
  Done ([mkEvent "P1" 0 4; mkEvent "P2" 4 7],
        [("P1", mkCompletion 0 4 4); ("P2", mkCompletion 1 3 7)]).
Proof. reflexivity. Qed.

Example rr_scenario :
  snd (round_robin 10 [P "P1" 0 4; P "P2" 1 3] 2) =
  Done ([mkEvent "P1" 0 2; mkEvent "P2" 2 4; mkEvent "P1" 4 6; mkEvent "P2" 6 7],
        [("P1", mkCompletion 0 4 6); ("P2", mkCompletion 1 3 7)]).
Proof. reflexivity. Qed.

(** * More about the engines *)

(** ** One iteration, read backwards *)

Lemma sel_step_inv key ps st st' :
  sel_step key ps st = inr st' ->
  exists i' ready',
    enqueue ps (s_time st) (s_i st) (s_ready st) = (i', ready') /\
    ((ready' = [] /\
      exists q, nth_error ps i' = Some q /\
        st' = mkSel (arrival q) i' [] (s_gantt st) (s_results st)) \/
     (ready' <> [] /\
      exists p rest,
        sort_by key ready' = p :: rest /\
        st' = mkSel (s_time st + burst p) i' rest
                (s_gantt st ++
                 [mkEvent (pid p) (s_time st) (s_time st + burst p)])
                (dict_set (s_results st) (pid p)
                   (mkCompletion (arrival p) (burst p)
                      (s_time st + burst p))))).
Proof.
  unfold sel_step.
  destruct (enqueue ps (s_time st) (s_i st) (s_ready st)) as [i' ready'].
  intros H. exists i', ready'. split; [reflexivity|].
  destruct ready' as [|r0 ready0].
  - left. split; [reflexivity|].
    destruct (nth_error ps i') as [q|]; [|discriminate].
    injection H as <-. eauto.
  - right. split; [discriminate|].
    destruct (sort_by key (r0 :: ready0)) as [|p rest]; [discriminate|].
    injection H as <-. eauto.
Qed.

Lemma rr_step_inv ps quantum st st' :
  rr_step ps quantum st = inr st' ->
  exists i1 ready1,
    enqueue ps (rr_time st) (rr_i st) (rr_ready st) = (i1, ready1) /\
    ((ready1 = [] /\
      exists q, nth_error ps i1 = Some q /\
        st' = mkRR (arrival q) (rr_gantt st) [] (rr_remaining st)
                (rr_completed st) i1) \/
     (exists p rq rem i2 ready2,
        ready1 = p :: rq /\
        dict_get (rr_remaining st) (pid p) = Some rem /\
        let run_time := Z.min quantum rem in
        let time' := rr_time st + run_time in
        let gantt' := rr_gantt st ++ [mkEvent (pid p) (rr_time st) time'] in
        let remaining' :=
          dict_set (rr_remaining st) (pid p) (rem - run_time) in
        enqueue ps time' i1 rq = (i2, ready2) /\
        st' = if 0 <? rem - run_time
              then mkRR time' gantt' (ready2 ++ [p]) remaining'
                     (rr_completed st) i2
              else mkRR time' gantt' ready2 remaining'
                     (dict_set (rr_completed st) (pid p) time') i2)).
Proof.
  unfold rr_step.
  destruct (enqueue ps (rr_time st) (rr_i st) (rr_ready st)) as [i1 ready1].
  intros H. exists i1, ready1. split; [reflexivity|].
  destruct ready1 as [|p rq].
  - left. split; [reflexivity|].
    destruct (nth_error ps i1) as [q|]; [|discriminate].
    injection H as <-. eauto.
  - right.
    destruct (dict_get (rr_remaining st) (pid p)) as [rem|] eqn:Hget;
      [|discriminate].
    cbv zeta in H.
    destruct (enqueue ps (rr_time st + Z.min quantum rem) i1 rq)
      as [i2 ready2] eqn:E2.
    rewrite dict_get_set_same in H.
    exists p, rq, rem, i2, ready2. cbv zeta.
    split; [reflexivity|]. split; [exact Hget|]. split; [exact E2|].
    destruct (0 <? rem - Z.min quantum rem); now injection H as <-.
Qed.

(** The state a loop returns from is one the loop reaches. *)
Lemma sel_loop_reach key ps : forall fuel st g r,
  sel_reach key ps st ->
  sel_loop key ps fuel st = Done (g, r) ->
  exists st',
    sel_reach key ps st' /\ sel_cond ps st' = false /\
    g = s_gantt st' /\ r = s_results st'.
Proof.
  induction fuel as [|fuel IH]; intros st g r Hreach H; [discriminate|].
  simpl in H. destruct (sel_cond ps st) eqn:Hc.
  - destruct (sel_step key ps st) as [e|st1] eqn:Hs; [discriminate|].
    eapply IH; [|exact H]. eapply sel_reach_step; eauto.
  - injection H as <- <-. eauto.
Qed.

Lemma rr_loop_reach ps quantum : forall fuel st st',
  rr_reach ps quantum st ->
  rr_loop ps quantum fuel st = Done st' ->
  rr_reach ps quantum st' /\ rr_cond ps st' = false.
Proof.
  induction fuel as [|fuel IH]; intros st st' Hreach H; [discriminate|].
  simpl in H. destruct (rr_cond ps st) eqn:Hc.
  - destruct (rr_step ps quantum st) as [e|st1] eqn:Hs; [discriminate|].
    eapply IH; [|exact H]. eapply rr_reach_step; eauto.
  - injection H as <-. auto.
Qed.

(** ** What SJF and Priority keep about their events *)

Section SelMore.
Variable key : Process -> Z.
Variable ps : list Process.
Variable p0 : Process.
Variable rest : list Process.
Hypothesis Hps : ps = p0 :: rest.
Hypothesis Hnd : NoDup (map pid ps).
Hypothesis Hburst : Forall (fun p => 0 < burst p) ps.
Hypothesis Hsorted : StronglySorted (key_le arrival) ps.

Lemma sel_run_facts st i' ready' p rest1 :
  sel_inv ps (arrival p0) st ->
  enqueue ps (s_time st) (s_i st) (s_ready st) = (i', ready') ->
  sort_by key ready' = p :: rest1 ->
  In p ps /\ In p ready' /\ ~ In (pid p) (dict_keys (s_results st)) /\
  arrival p <= s_time st /\ 0 < burst p.
Proof.
  intros Hinv Hadm Hs.
  destruct (@enqueue_spec _ _ _ _ _ _ (sel_i_le Hinv) Hadm)
    as (new & Hready' & Hfirst & _ & _ & Hnew & _ & _).
  assert (Hp : In p ready').
  { eapply Permutation_in; [apply (sort_by_perm key)|]. rewrite Hs. now left. }
  assert (Hin : In p ps).
  { rewrite Hready' in Hp. apply in_app_or in Hp as [Hp|Hp].
    - now apply (sel_ready_in Hinv).
    - apply (@incl_firstn _ i'). rewrite Hfirst. apply in_or_app. now right. }
  assert (Harr : arrival p <= s_time st).
  { pose proof (sel_ready_arrived Hinv) as Ha.
    rewrite Forall_forall in Ha, Hnew.
    rewrite Hready' in Hp. apply in_app_or in Hp as [Hp|Hp]; auto. }
  assert (Hnokey : ~ In (pid p) (dict_keys (s_results st))).
  { assert (Hnd1 : NoDup (map pid ready' ++ dict_keys (s_results st))).
    { eapply Permutation_NoDup;
        [|apply (@NoDup_firstn _ i' _ Hnd)].
      rewrite firstn_map, Hfirst, Hready', !map_app.
      rewrite <- (sel_perm Hinv), <- !app_assoc.
      apply Permutation_app_head, Permutation_app_comm. }
    intros Hk. apply in_split in Hp as (l1 & l2 & ->).
    rewrite map_app, <- app_assoc in Hnd1. simpl in Hnd1.
    apply NoDup_remove_2 in Hnd1. apply Hnd1.
    apply in_or_app. right. apply in_or_app. now right. }
  repeat split; auto. rewrite Forall_forall in Hburst. auto.
Qed.

Lemma sel_reach_events st : sel_reach key ps st -> sel_events ps st.
Proof.
  induction 1 as [q r Hq | st st' Hreach IH Hc Hstep].
  - constructor; simpl; constructor.
  - pose proof (sel_reach_inv Hps Hnd Hburst Hsorted Hreach) as Hinv.
    destruct IH as [Hkeys Hwhole].
    apply sel_step_inv in Hstep as (i' & ready' & Hadm & [Hidle|Hrun]).
    + destruct Hidle as (_ & q & _ & ->). constructor; simpl; auto.
    + destruct Hrun as (_ & p & rest1 & Hs & ->).
      destruct (@sel_run_facts st i' ready' p rest1 Hinv Hadm Hs)
        as (Hin & _ & Hnokey & Harr & Hb).
      pose proof (@dict_keys_set_new _ (s_results st) (pid p)
                    (mkCompletion (arrival p) (burst p) (s_time st + burst p))
                    Hnokey) as Hk'.
      constructor; simpl.
      * rewrite map_app, Hkeys, Hk'. reflexivity.
      * apply Forall_app. split.
        -- eapply Forall_impl; [|exact Hwhole].
           intros e (q & Hq & Hpid & Hend & Ha & Hget).
           exists q. repeat split; auto.
           rewrite dict_get_set_other; [exact Hget|].
           intros Heq. apply Hnokey. rewrite Heq.
           eapply dict_get_some_in; eauto.
        -- constructor; [|constructor].
           exists p. simpl. repeat split; auto.
           apply dict_get_set_same.
Qed.

End SelMore.

(** ** What Round Robin keeps about its slices *)

Section RRMore.
Variable ps : list Process.
Variable quantum : Z.
Variable p0 : Process.
Variable rest : list Process.
Hypothesis Hps : ps = p0 :: rest.
Hypothesis Hnd : NoDup (map pid ps).
Hypothesis Hburst : Forall (fun p => 0 < burst p) ps.
Hypothesis Hq : 0 < quantum.
Hypothesis Hsorted : StronglySorted (key_le arrival) ps.

Lemma rr_run_facts st i1 p rq :
  rr_inv ps (arrival p0) st ->
  enqueue ps (rr_time st) (rr_i st) (rr_ready st) = (i1, p :: rq) ->
  In p ps /\ ~ In (pid p) (dict_keys (rr_completed st)) /\
  arrival p <= rr_time st /\
  forall rem, dict_get (rr_remaining st) (pid p) = Some rem ->
    0 < rem /\ busy (pid p) (rr_gantt st) + rem = burst p.
Proof.
  intros Hinv Hadm.
  destruct (@enqueue_spec _ _ _ _ _ _ (rr_i_le Hinv) Hadm)
    as (new & Hready1 & Hfirst & _ & _ & Hnew & _ & _).
  assert (Hp : In p (rr_ready st ++ new)) by (rewrite <- Hready1; now left).
  assert (Hin : In p ps).
  { apply in_app_or in Hp as [Hp|Hp].
    - now apply (rr_ready_in Hinv).
    - apply (@incl_firstn _ i1). rewrite Hfirst. apply in_or_app. now right. }
  assert (Harr : arrival p <= rr_time st).
  { pose proof (rr_ready_arrived Hinv) as Ha.
    rewrite Forall_forall in Ha, Hnew.
    apply in_app_or in Hp as [Hp|Hp]; auto. }
  assert (Hnokey : ~ In (pid p) (dict_keys (rr_completed st))).
  { assert (Hnd1 : NoDup (map pid (p :: rq) ++ dict_keys (rr_completed st))).
    { eapply Permutation_NoDup;
        [|apply (@NoDup_firstn _ i1 _ Hnd)].
      rewrite firstn_map, Hfirst, Hready1, !map_app.
      rewrite <- (rr_perm Hinv), <- !app_assoc.
      apply Permutation_app_head, Permutation_app_comm. }
    simpl in Hnd1. apply NoDup_cons_iff in Hnd1 as [Hn _].
    intros Hk. apply Hn. apply in_or_app. now right. }
  repeat split; auto;
    destruct (rr_account Hinv p Hin) as (r & Hget & Hsum & _ & Hpos);
    rewrite Hget in H; injection H as <-; auto.
Qed.

Lemma rr_reach_events st : rr_reach ps quantum st -> rr_events ps quantum st.
Proof.
  induction 1 as [q r Hqr | st st' Hreach IH Hc Hstep].
  - constructor; simpl; auto; try discriminate.
  - pose proof (rr_reach_inv Hps Hnd Hburst Hq Hsorted Hreach) as Hinv.
    destruct IH as [Hsl Hpast Hlag Hcomp].
    apply rr_step_inv in Hstep as (i1 & ready1 & Hadm & [Hidle|Hrun]).
    + destruct Hidle as (_ & q & Hqn & ->).
      destruct (@enqueue_spec _ _ _ _ _ _ (rr_i_le Hinv) Hadm)
        as (_ & _ & _ & _ & _ & _ & Hnext & _).
      specialize (Hnext q Hqn).
      constructor; simpl; auto.
      * eapply Forall_impl; [|exact Hpast]. simpl. intros; lia.
      * intros p Hp. destruct (Hlag p Hp); [now left | right; lia].
    + destruct Hrun as (p & rq & rem & i2 & ready2 & -> & Hget & Hrun).
      cbv zeta in Hrun. destruct Hrun as (_ & ->).
      destruct (@rr_run_facts st i1 p rq Hinv Hadm)
        as (Hin & Hnokey & Harr & Hrem).
      destruct (Hrem rem Hget) as [Hpos Hsum].
      set (run_time := Z.min quantum rem) in *.
      assert (Hrun : 1 <= run_time <= rem /\ run_time <= quantum)
        by (unfold run_time; lia).
      set (time' := rr_time st + run_time) in *.
      set (gantt' := rr_gantt st ++ [mkEvent (pid p) (rr_time st) time']) in *.
      assert (Hsl' : Forall (slice_of ps quantum) gantt').
      { apply Forall_app. split; [exact Hsl|].
        constructor; [|constructor]. unfold slice_of. simpl.
        split; [lia|]. split; [lia|]. exists p. auto. }
      assert (Hpast' : Forall (fun e => e_end e <= time') gantt').
      { apply Forall_app. split.
        - eapply Forall_impl; [|exact Hpast]. simpl. intros; lia.
        - constructor; [simpl; lia | constructor]. }
      assert (Hbusy_p : busy (pid p) gantt'
                        = busy (pid p) (rr_gantt st) + run_time).
      { unfold gantt', time'. rewrite busy_snoc_same. lia. }
      assert (Hlag' : forall q, In q ps ->
                busy (pid q) gantt' = 0 \/
                arrival q + busy (pid q) gantt' <= time').
      { intros q Hqin. destruct (string_dec (pid q) (pid p)) as [Heq|Hne].
        - assert (q = p) by (eapply NoDup_pid_inj; eauto). subst q.
          right. rewrite Hbusy_p. destruct (Hlag p Hin); lia.
        - unfold gantt'. rewrite busy_snoc_other by congruence.
          destruct (Hlag q Hqin); [now left | right; lia]. }
      assert (Hold : forall q c, In q ps ->
                dict_get (rr_completed st) (pid q) = Some c ->
                arrival q + burst q <= c /\ last_slice_end gantt' (pid q) c).
      { intros q c Hqin Hc0. destruct (Hcomp q c Hqin Hc0) as [Hle [Hex Hmax]].
        assert (Hne : pid p <> pid q).
        { intros Heq. apply Hnokey. rewrite Heq.
          eapply dict_get_some_in; eauto. }
        split; [exact Hle|]. split.
        - destruct Hex as (e & He & Hpe & Hee). exists e.
          split; [apply in_or_app; now left | auto].
        - intros e He Hpe. apply in_app_or in He as [He|[<-|[]]]; auto.
          simpl in Hpe. congruence. }
      destruct (Z.ltb_spec 0 (rem - run_time)) as [Hleft|Hfin];
        constructor; simpl; auto.
      intros q c Hqin Hc0.
      destruct (string_dec (pid p) (pid q)) as [Heq|Hne].
      * assert (q = p) by (eapply NoDup_pid_inj; eauto). subst q.
        rewrite dict_get_set_same in Hc0. injection Hc0 as <-.
        split.
        -- destruct (Hlag' p Hin); lia.
        -- split.
           ++ exists (mkEvent (pid p) (rr_time st) time').
              split; [apply in_or_app; right; now left | auto].
           ++ intros e He _. rewrite Forall_forall in Hpast'. auto.
      * rewrite dict_get_set_other in Hc0 by assumption. auto.
Qed.

End RRMore.

(** ** What FCFS keeps about its events *)

Lemma process_events_app g1 g2 :
  process_events (g1 ++ g2) = process_events g1 ++ process_events g2.
Proof. apply filter_app. Qed.

Lemma process_events_all g :
  Forall (fun e => e_pid e <> IDLE) g -> process_events g = g.
Proof.
  induction 1 as [|e g He _ IH]; simpl; auto.
  destruct (String.eqb_spec (e_pid e) IDLE); [contradiction|].
  simpl. now rewrite IH.
Qed.

Lemma fcfs_order l : forall t g r t' g' r',
  fold_left fcfs_body l (t, g, r) = (t', g', r') ->
  Forall (fun p => pid p <> IDLE) l ->
  map e_pid (process_events g')
  = map e_pid (process_events g) ++ map pid l.
Proof.
  induction l as [|p l IH]; cbn [fold_left map]; intros t g r t' g' r' H Hl.
  - injection H as <- <- <-. now rewrite app_nil_r.
  - rewrite fcfs_body_eq in H. inversion Hl as [|? ? Hp Hl']; subst.
    rewrite (IH _ _ _ _ _ _ H Hl').
    rewrite process_events_app. simpl.
    destruct (String.eqb_spec (pid p) IDLE); [contradiction|]. simpl.
    replace (process_events
               (if t <? arrival p
                then g ++ [mkEvent IDLE t (arrival p)] else g))
      with (process_events g).
    + now rewrite map_app, <- app_assoc.
    + destruct (t <? arrival p); auto.
      rewrite process_events_app. simpl. now rewrite app_nil_r.
Qed.

Lemma fcfs_keys_order l : forall t g r t' g' r',
  fold_left fcfs_body l (t, g, r) = (t', g', r') ->
  NoDup (dict_keys r ++ map pid l) ->
  dict_keys r' = dict_keys r ++ map pid l.
Proof.
  induction l as [|p l IH]; cbn [fold_left map]; intros t g r t' g' r' H Hnd.
  - injection H as <- <- <-. now rewrite app_nil_r.
  - rewrite fcfs_body_eq in H.
    assert (Hn : ~ In (pid p) (dict_keys r)).
    { apply NoDup_remove_2 in Hnd. intros Hk. apply Hnd.
      apply in_or_app. now left. }
    pose proof (@dict_keys_set_new _ r (pid p)
                  (mkCompletion (arrival p) (burst p)
                     (Z.max t (arrival p) + burst p)) Hn) as Hk.
    rewrite (IH _ _ _ _ _ _ H); rewrite Hk, <- app_assoc; auto.
Qed.

Lemma fcfs_whole l : forall t g r t' g' r',
  NoDup (map pid l) ->
  Forall (fun p => 0 < burst p) l ->
  fold_left fcfs_body l (t, g, r) = (t', g', r') ->
  exists g2,
    g' = g ++ g2 /\
    Forall (fun e => idle_gap e \/ runs_whole r' l e) g2.
Proof.
  induction l as [|p l IH]; cbn [fold_left map]; intros t g r t' g' r' Hnd Hb H.
  - injection H as <- <- <-. exists []. now rewrite app_nil_r.
  - rewrite fcfs_body_eq in H.
    apply NoDup_cons_iff in Hnd as [Hn Hnd].
    inversion Hb as [|? ? Hbp Hb']; subst.
    destruct (@fcfs_results _ _ _ _ _ _ _ Hnd H) as [Hother _].
    destruct (IH _ _ _ _ _ _ Hnd Hb' H) as (g2 & -> & Hall).
    set (e := mkEvent (pid p) (Z.max t (arrival p))
                (Z.max t (arrival p) + burst p)).
    assert (He : runs_whole r' (p :: l) e).
    { exists p. simpl. split; [now left|]. split; [reflexivity|].
      split; [reflexivity|]. split; [lia|].
      rewrite Hother by assumption. apply dict_get_set_same. }
    assert (Hall' : Forall (fun e => idle_gap e \/ runs_whole r' (p :: l) e) g2).
    { eapply Forall_impl; [|exact Hall].
      intros e0 [Hi|(q & Hq & Hrest)]; [now left | right].
      exists q. split; [now right | exact Hrest]. }
    destruct (Z.ltb_spec t (arrival p)).
    + exists (mkEvent IDLE t (arrival p) :: e :: g2).
      rewrite <- !app_assoc. split; [reflexivity|].
      constructor; [left; split; simpl; auto|].
      constructor; [now right | exact Hall'].
    + exists (e :: g2). rewrite <- !app_assoc. split; [reflexivity|].
      constructor; [now right | exact Hall'].
Qed.

(** ** The engines as a whole, with the states they end in *)

Lemma sel_engine_reach key l fuel :
  validb l = true -> l <> [] -> (fuel_bound l <= fuel)%nat ->
  exists p0 rest st,
    sort_by arrival l = p0 :: rest /\
    snd (sel_engine key fuel l) = Done (s_gantt st, s_results st) /\
    sel_reach key (sort_by arrival l) st /\
    sel_inv (sort_by arrival l) (arrival p0) st /\
    sel_events (sort_by arrival l) st /\
    sel_cond (sort_by arrival l) st = false.
Proof.
  intros Hv Hne Hfuel.
  destruct (@sel_engine_ok key l fuel Hv Hne Hfuel)
    as (p0 & rest & st0 & Hs & Hrun & _ & _).
  pose proof (sorted_NoDup _ (validb_NoDup _ Hv)) as Hnd.
  pose proof (sorted_Forall (validb_burst _ Hv)) as Hb.
  pose proof (sort_by_sorted arrival l) as Hso.
  rewrite (sel_engine_cons key fuel _ Hs) in Hrun.
  pose proof Hrun as Hrun'.
  apply sel_loop_reach in Hrun' as (st & Hreach & Hc & Hg & Hr);
    [|eapply sel_reach_init; eauto].
  exists p0, rest, st. split; [exact Hs|].
  split.
  - rewrite (sel_engine_cons key fuel _ Hs), Hrun. now rewrite Hg, Hr.
  - split; [exact Hreach|]. split; [|split; [|exact Hc]].
    + eapply sel_reach_inv; eauto.
    + eapply sel_reach_events; eauto.
Qed.

Lemma rr_engine_reach l quantum fuel :
  validb l = true -> l <> [] -> 0 < quantum -> (fuel_bound l <= fuel)%nat ->
  exists p0 rest st res,
    sort_by arrival l = p0 :: rest /\
    snd (round_robin fuel l quantum) = Done (rr_gantt st, res) /\
    rr_results (rr_completed st) (sort_by arrival l) [] = Done res /\
    rr_reach (sort_by arrival l) quantum st /\
    rr_inv (sort_by arrival l) (arrival p0) st /\
    rr_events (sort_by arrival l) quantum st /\
    rr_cond (sort_by arrival l) st = false.
Proof.
  intros Hv Hne Hq Hfuel.
  destruct (sorted_nonempty Hne) as (p0 & rest & Hs).
  pose proof (sorted_NoDup _ (validb_NoDup _ Hv)) as Hnd.
  pose proof (sorted_Forall (validb_burst _ Hv)) as Hb.
  pose proof (sort_by_sorted arrival l) as Hso.
  destruct (@rr_loop_done _ quantum p0 rest Hs Hnd Hq Hso fuel
              (rr_init (sort_by arrival l) (arrival p0)))
    as (st & Hrun & Hinv & Hc).
  - now apply rr_inv_init.
  - rewrite rr_init_work by assumption.
    rewrite sorted_total_burst.
    apply fuel_enough; [assumption | apply rr_flag_range |].
    apply total_burst_nonneg. now apply validb_burst.
  - destruct (@rr_results_ok (rr_completed st) (sort_by arrival l) [] Hnd)
      as (res & Hres & _ & _).
    { intros p Hp. eapply rr_all_done; eauto. }
    pose proof Hrun as Hrun'.
    apply rr_loop_reach in Hrun' as [Hreach _];
      [|eapply rr_reach_init; eauto].
    exists p0, rest, st, res. split; [exact Hs|].
    split; [now rewrite (round_robin_cons fuel _ quantum Hs), Hrun, Hres|].
    split; [exact Hres|]. split; [exact Hreach|]. split; [exact Hinv|].
    split; [|exact Hc]. eapply rr_reach_events; eauto.
Qed.

Lemma runs_whole_incl r l l' e :
  (forall p, In p l -> In p l') -> runs_whole r l e -> runs_whole r l' e.
Proof.
  intros Hincl (p & Hp & Hrest). exists p. split; [auto | exact Hrest].
Qed.

Lemma slice_of_incl l l' quantum e :
  (forall p, In p l -> In p l') -> slice_of l quantum e ->
  slice_of l' quantum e.
Proof.
  intros Hincl (H1 & H2 & p & Hp & Hrest).
  split; [exact H1|]. split; [exact H2|]. exists p. split; [auto | exact Hrest].
Qed.

Lemma rr_results_keys completed l : forall acc res,
  NoDup (dict_keys acc ++ map pid l) ->
  rr_results completed l acc = Done res ->
  dict_keys res = dict_keys acc ++ map pid l.
Proof.
  induction l as [|p l IH]; simpl; intros acc res Hnd H.
  - injection H as <-. now rewrite app_nil_r.
  - destruct (dict_get completed (pid p)) as [c|]; [|discriminate].
    assert (Hn : ~ In (pid p) (dict_keys acc)).
    { apply NoDup_remove_2 in Hnd. intros Hk. apply Hnd.
      apply in_or_app. now left. }
    pose proof (@dict_keys_set_new _ acc (pid p)
                  (mkCompletion (arrival p) (burst p) c) Hn) as Hk.
    assert (Hnd' : NoDup (dict_keys (dict_set acc (pid p)
                             (mkCompletion (arrival p) (burst p) c))
                          ++ map pid l)).
    { rewrite Hk, <- app_assoc. exact Hnd. }
    rewrite (IH _ _ Hnd' H), Hk, <- app_assoc. reflexivity.
Qed.

Lemma sel_final_keys l p0 rest st :
  validb l = true -> sort_by arrival l = p0 :: rest ->
  sel_inv (sort_by arrival l) (arrival p0) st ->
  sel_cond (sort_by arrival l) st = false ->
  Permutation (dict_keys (s_results st)) (map pid l).
Proof.
  intros Hv Hs Hinv Hc. unfold sel_cond in Hc. apply Nat.ltb_ge in Hc.
  pose proof (sel_perm Hinv) as Hperm. pose proof (sel_i_le Hinv) as Hi.
  pose proof (Permutation_length Hperm) as Hlen.
  rewrite length_app, !length_map, length_firstn in Hlen.
  rewrite dict_len_keys in Hc.
  assert (Hr : s_ready st = []).
  { destruct (s_ready st); [reflexivity | simpl in Hlen; lia]. }
  rewrite Hr in Hperm, Hlen. simpl in Hperm, Hlen.
  rewrite firstn_all2 in Hperm by lia.
  rewrite Hperm. apply Permutation_map, sort_by_perm.
Qed.

Lemma simulate_events a quantum fuel l :
  validb l = true -> l <> [] -> (a = RoundRobin -> 0 < quantum) ->
  (fuel_bound l <= fuel)%nat ->
  exists g r,
    snd (simulate a quantum fuel l) = Done (g, r) /\
    (a = FCFS ->
     Forall (fun e => idle_gap e \/ runs_whole r l e) g /\
     dict_keys r = map pid (sort_by arrival l)) /\
    (a = SJF \/ a = Priority ->
     Forall (runs_whole r l) g /\ map e_pid g = dict_keys r /\
     Permutation (dict_keys r) (map pid l)) /\
    (a = RoundRobin ->
     Forall (slice_of l quantum) g /\
     dict_keys r = map pid (sort_by arrival l) /\
     forall p, In p l ->
       exists c,
         dict_get r (pid p) = Some (mkCompletion (arrival p) (burst p) c) /\
         arrival p + burst p <= c /\ last_slice_end g (pid p) c).
Proof.
  intros Hv Hne Hq Hfuel.
  pose proof (sorted_NoDup _ (validb_NoDup _ Hv)) as Hnd.
  pose proof (sorted_Forall (validb_burst _ Hv)) as Hb.
  assert (Hin : forall p, In p (sort_by arrival l) -> In p l)
    by (intros p; apply sorted_In).
  assert (Hsel : forall key,
    exists g r, snd (sel_engine key fuel l) = Done (g, r) /\
      Forall (runs_whole r l) g /\ map e_pid g = dict_keys r /\
      Permutation (dict_keys r) (map pid l)).
  { intros key.
    destruct (@sel_engine_reach key l fuel Hv Hne Hfuel)
      as (p0 & rest & st & Hs & Hrun & _ & Hinv & [Hk Hw] & Hc).
    exists (s_gantt st), (s_results st). split; [exact Hrun|].
    split; [|split; [exact Hk|]].
    - eapply Forall_impl; [|exact Hw]. intros e. now apply runs_whole_incl.
    - eapply sel_final_keys; eauto. }
  destruct a; simpl.
  - destruct (fcfs_unfold l) as (t & g & r & Hfold & ->).
    exists g, r. split; [reflexivity|].
    split; [|split; [intros [|]; discriminate | discriminate]].
    intros _.
    destruct (@fcfs_whole _ _ _ _ _ _ _ Hnd Hb Hfold) as (g2 & Hg & Hall).
    simpl in Hg. subst g2. split.
    + eapply Forall_impl; [|exact Hall].
      intros e [Hi|Hw]; [now left | right].
      eapply runs_whole_incl; eauto.
    + apply (@fcfs_keys_order _ _ _ _ _ _ _ Hfold). exact Hnd.
  - destruct (Hsel burst) as (g & r & Hrun & H).
    exists g, r. split; [exact Hrun|].
    split; [discriminate|]. split; [auto | discriminate].
  - destruct (Hsel prio) as (g & r & Hrun & H).
    exists g, r. split; [exact Hrun|].
    split; [discriminate|]. split; [auto | discriminate].
  - destruct (@rr_engine_reach l quantum fuel Hv Hne (Hq eq_refl) Hfuel)
      as (p0 & rest & st & res & Hs & Hrun & Hres & _ & Hinv & Hev & Hc).
    exists (rr_gantt st), res. split; [exact Hrun|].
    split; [discriminate|]. split; [intros [|]; discriminate|]. intros _.
    split; [|split].
    + eapply Forall_impl; [|exact (rr_ev_slices Hev)].
      intros e. now apply slice_of_incl.
    + apply (@rr_results_keys (rr_completed st) _ [] res); [exact Hnd | exact Hres].
    + intros p Hp. apply sorted_In in Hp.
      destruct (@rr_results_ok (rr_completed st) (sort_by arrival l) [] Hnd)
        as (res' & Hres' & _ & Hrec).
      { intros x Hx. eapply rr_all_done; eauto. }
      rewrite Hres in Hres'. injection Hres' as <-.
      destruct (Hrec p Hp) as (c & Hc0 & Hget).
      destruct (rr_ev_comp Hev p Hp Hc0) as [Hle Hlast].
      exists c. auto.
Qed.

(** ** Completion times *)

Lemma busy_event k g : busy k g <> 0 -> exists e, In e g /\ e_pid e = k.
Proof.
  induction g as [|e g IH]; simpl; [congruence|].
  destruct (String.eqb_spec (e_pid e) k) as [Hk|Hk].
  - intros _. exists e. auto.
  - intros H. destruct IH as (e' & He' & Hk'); [lia|]. exists e'. auto.
Qed.

Lemma whole_last_slice r l g p a b c :
  NoDup (map pid l) -> In p l ->
  (exists e, In e g /\ e_pid e = pid p) ->
  (forall e, In e g -> e_pid e = pid p -> runs_whole r l e) ->
  dict_get r (pid p) = Some (mkCompletion a b c) ->
  last_slice_end g (pid p) c /\ arrival p + burst p <= c.
Proof.
  intros Hnd Hp (e & He & Hpe) Hall Hget.
  assert (Hend : forall e', In e' g -> e_pid e' = pid p ->
            e_end e' = c /\ arrival p + burst p <= c).
  { intros e' He' Hpe'.
    destruct (Hall e' He' Hpe') as (q & Hq & Hpq & Hen & Ha & Hg).
    assert (q = p) by (eapply NoDup_pid_inj; eauto; congruence). subst q.
    rewrite Hget in Hg. injection Hg as _ _ ->. split; [reflexivity | lia]. }
  destruct (Hend e He Hpe) as [Hec Hle].
  split; [|exact Hle]. split.
  - exists e. auto.
  - intros e' He' Hpe'. destruct (Hend e' He' Hpe'). lia.
Qed.

Lemma no_idle_pid_spec l p : no_idle_pid l = true -> In p l -> pid p <> IDLE.
Proof.
  unfold no_idle_pid. intros H Hp Heq. apply negb_true_iff in H.
  apply mem_str_false in H. apply H. rewrite <- Heq. now apply in_map.
Qed.

Lemma simulate_completion a quantum fuel l :
  validb l = true -> l <> [] -> (a = RoundRobin -> 0 < quantum) ->
  (fuel_bound l <= fuel)%nat ->
  exists g r,
    snd (simulate a quantum fuel l) = Done (g, r) /\
    forall p, In p l ->
      exists c,
        dict_get r (pid p) = Some (mkCompletion (arrival p) (burst p) c) /\
        arrival p + burst p <= c /\
        ((a = FCFS -> pid p <> IDLE) -> last_slice_end g (pid p) c).
Proof.
  intros Hv Hne Hq Hfuel.
  destruct (@simulate_events a quantum fuel l Hv Hne Hq Hfuel)
    as (g & r & Hrun & Hf & Hs & Hr).
  destruct (@simulate_records a quantum fuel l Hv Hne Hq Hfuel)
    as (g1 & r1 & Hrun1 & Hrec).
  destruct (@simulate_busy a quantum fuel l Hv Hne Hq Hfuel)
    as (g2 & r2 & Hrun2 & Hbusy).
  rewrite Hrun in Hrun1, Hrun2.
  injection Hrun1 as <- <-. injection Hrun2 as <- <-.
  exists g, r. split; [exact Hrun|]. intros p Hp.
  pose proof (validb_NoDup _ Hv) as Hnd.
  assert (Hbp : 0 < burst p).
  { pose proof (validb_burst _ Hv) as HF. rewrite Forall_forall in HF. auto. }
  destruct (Hrec p Hp) as (c & Hget). exists c. split; [exact Hget|].
  assert (Hwhole : forall (Hall : forall e, In e g -> e_pid e = pid p ->
                                 runs_whole r l e),
            (a = FCFS -> pid p <> IDLE) ->
            last_slice_end g (pid p) c /\ arrival p + burst p <= c).
  { intros Hall Hidle. eapply whole_last_slice; eauto.
    apply busy_event. rewrite (Hbusy p Hp Hidle). lia. }
  destruct a.
  - destruct (Hf eq_refl) as [Hall _]. rewrite Forall_forall in Hall.
    split.
    + simpl in Hrun. destruct (fcfs_unfold l) as (t & g0 & r0 & Hfold & Hfc).
      rewrite Hfc in Hrun. simpl in Hrun. injection Hrun as -> ->.
      destruct (@fcfs_results _ _ _ _ _ _ _
                  (sorted_NoDup _ Hnd) Hfold) as [_ Hres].
      destruct (Hres p (proj2 (sorted_In l p) Hp)) as (c' & Hget' & Hle).
      rewrite Hget in Hget'. injection Hget' as <-. exact Hle.
    + intros Hidle. apply Hwhole; [|exact Hidle].
      intros e He Hpe. destruct (Hall e He) as [[Hi _]|Hw]; [|exact Hw].
      exfalso. apply (Hidle eq_refl). congruence.
  - destruct (Hs (or_introl eq_refl)) as (Hall & _).
    rewrite Forall_forall in Hall.
    destruct (Hwhole (fun e He _ => Hall e He)) as [H1 H2]; [discriminate|].
    auto.
  - destruct (Hs (or_intror eq_refl)) as (Hall & _).
    rewrite Forall_forall in Hall.
    destruct (Hwhole (fun e He _ => Hall e He)) as [H1 H2]; [discriminate|].
    auto.
  - destruct (Hr eq_refl) as (_ & _ & Hcomp).
    destruct (Hcomp p Hp) as (c' & Hget' & Hle & Hlast).
    rewrite Hget in Hget'. injection Hget' as <-. auto.
Qed.

(** X1: for a valid process list every engine records, for every process,
    a completion time of at least arrival + burst; and that time is the end
    of the last timeline entry with the process's pid (under FCFS, for a
    pid other than the one of the idle entries). *)
Theorem completion_after_burst a quantum fuel l p :
  validb l = true -> (a = RoundRobin -> 0 < quantum) ->
  (fuel_bound l <= fuel)%nat -> In p l ->
  exists g r c,
    snd (simulate a quantum fuel l) = Done (g, r) /\
    dict_get r (pid p) = Some (mkCompletion (arrival p) (burst p) c) /\
    arrival p + burst p <= c /\
    ((a = FCFS -> pid p <> IDLE) -> last_slice_end g (pid p) c).
Proof.
  intros Hv Hq Hfuel Hp.
  assert (Hne : l <> []) by (intros ->; destruct Hp).
  destruct (@simulate_completion a quantum fuel l Hv Hne Hq Hfuel)
    as (g & r & Hrun & Hall).
  destruct (Hall p Hp) as (c & H). exists g, r, c. auto.
Qed.

Lemma completion_after_burst_witness :
  exists g r c,
    snd (simulate RoundRobin 2 16 [P "P1" 0 4; P "P2" 1 3]) = Done (g, r) /\
    dict_get r "P1" = Some (mkCompletion 0 4 c) /\
    0 + 4 <= c /\
    ((RoundRobin = FCFS -> "P1" <> IDLE) -> last_slice_end g "P1" c).
Proof.
  apply (@completion_after_burst RoundRobin 2 16
           [P "P1" 0 4; P "P2" 1 3] (P "P1" 0 4)).
  - reflexivity.
  - intros _. lia.
  - vm_compute. lia.
  - simpl. tauto.
Defined.

(** ** Records and rows *)

Lemma dict_get_in_nodup (V : Type) (d : dict V) k v :
  NoDup (dict_keys d) -> In (k, v) d -> dict_get d k = Some v.
Proof.
  induction d as [|[k0 v0] d IH]; simpl; intros Hnd Hin; [tauto|].
  apply NoDup_cons_iff in Hnd as [Hn Hnd].
  destruct Hin as [[= -> ->]|Hin].
  - now rewrite String.eqb_refl.
  - destruct (String.eqb_spec k0 k) as [->|]; [|auto].
    exfalso. apply Hn. change k with (fst (k, v)). now apply in_map.
Qed.

Lemma simulate_keys a quantum fuel l :
  validb l = true -> l <> [] -> (a = RoundRobin -> 0 < quantum) ->
  (fuel_bound l <= fuel)%nat ->
  exists g r,
    snd (simulate a quantum fuel l) = Done (g, r) /\
    Permutation (dict_keys r) (map pid l) /\
    (a = FCFS \/ a = RoundRobin -> dict_keys r = map pid (sort_by arrival l)) /\
    (a = SJF \/ a = Priority -> dict_keys r = map e_pid g).
Proof.
  intros Hv Hne Hq Hfuel.
  destruct (@simulate_events a quantum fuel l Hv Hne Hq Hfuel)
    as (g & r & Hrun & Hf & Hs & Hr).
  exists g, r. split; [exact Hrun|].
  assert (Hp : Permutation (map pid (sort_by arrival l)) (map pid l))
    by apply Permutation_map, sort_by_perm.
  destruct a.
  - destruct (Hf eq_refl) as [_ Hk]. rewrite Hk.
    split; [exact Hp|]. split; [auto | intros [|]; discriminate].
  - destruct (Hs (or_introl eq_refl)) as (_ & Hk & Hperm).
    split; [exact Hperm|]. split; [intros [|]; discriminate | auto].
  - destruct (Hs (or_intror eq_refl)) as (_ & Hk & Hperm).
    split; [exact Hperm|]. split; [intros [|]; discriminate | auto].
  - destruct (Hr eq_refl) as (_ & Hk & _). rewrite Hk.
    split; [exact Hp|]. split; [auto | intros [|]; discriminate].
Qed.

(** X2: for a valid process list every engine returns exactly one
    completion record per process.  FCFS and Round Robin hold the records,
    and so the rows of the metrics table, in arrival order; SJF and
    Priority hold them in the order in which the processes ran. *)
Theorem records_order a quantum fuel l :
  validb l = true -> l <> [] -> (a = RoundRobin -> 0 < quantum) ->
  (fuel_bound l <= fuel)%nat ->
  exists g r,
    snd (simulate a quantum fuel l) = Done (g, r) /\
    Permutation (dict_keys r) (map pid l) /\
    dict_len r = length l /\
    (a = FCFS \/ a = RoundRobin -> dict_keys r = map pid (sort_by arrival l)) /\
    (a = SJF \/ a = Priority -> dict_keys r = map e_pid g) /\
    map m_pid (fst (fst (calculate_metrics r))) = dict_keys r.
Proof.
  intros Hv Hne Hq Hfuel.
  destruct (@simulate_keys a quantum fuel l Hv Hne Hq Hfuel)
    as (g & r & Hrun & Hperm & Hfr & Hs).
  exists g, r. split; [exact Hrun|]. split; [exact Hperm|].
  split; [|split; [exact Hfr|split; [exact Hs|]]].
  - rewrite dict_len_keys, (Permutation_length Hperm). apply length_map.
  - simpl. unfold dict_keys. rewrite map_map. apply map_ext.
    now intros [k v].
Qed.

Lemma records_order_witness :
  exists g r,
    snd (simulate SJF 2 26 [P "P1" 0 8; P "P2" 1 3; P "P3" 2 1])
    = Done (g, r) /\
    Permutation (dict_keys r) (map pid [P "P1" 0 8; P "P2" 1 3; P "P3" 2 1]) /\
    dict_len r = length [P "P1" 0 8; P "P2" 1 3; P "P3" 2 1] /\
    (SJF = FCFS \/ SJF = RoundRobin ->
     dict_keys r
     = map pid (sort_by arrival [P "P1" 0 8; P "P2" 1 3; P "P3" 2 1])) /\
    (SJF = SJF \/ SJF = Priority -> dict_keys r = map e_pid g) /\
    map m_pid (fst (fst (calculate_metrics r))) = dict_keys r.
Proof.
  apply (@records_order SJF 2 26 [P "P1" 0 8; P "P2" 1 3; P "P3" 2 1]).
  - reflexivity.
  - discriminate.
  - discriminate.
  - vm_compute. lia.
Defined.

(** X3: what the "Run Simulation" button computes for a valid process
    list: the engine returns, the metrics table has one row per process,
    each row carries the arrival and burst of its process, a waiting time
    >= 0 and a turnaround >= burst, and the averages satisfy
    0 <= average waiting <= average turnaround. *)
Theorem run_simulation_metrics a quantum fuel l :
  validb l = true -> l <> [] -> (a = RoundRobin -> 0 < quantum) ->
  (fuel_bound l <= fuel)%nat ->
  exists g df qw qt,
    run_simulation a quantum fuel l = Done (g, (df, Some qw, Some qt)) /\
    Permutation (map m_pid df) (map pid l) /\
    (forall row, In row df ->
       exists p, In p l /\ m_pid row = pid p /\
         m_arrival row = arrival p /\ m_burst row = burst p /\
         0 <= m_waiting row /\ m_burst row <= m_turnaround row) /\
    (0 <= qw)%Q /\ (qw <= qt)%Q.
Proof.
  intros Hv Hne Hq Hfuel.
  destruct (@simulate_keys a quantum fuel l Hv Hne Hq Hfuel)
    as (g & r & Hrun & Hperm & _ & _).
  destruct (@simulate_completion a quantum fuel l Hv Hne Hq Hfuel)
    as (g1 & r1 & Hrun1 & Hcomp).
  rewrite Hrun in Hrun1. injection Hrun1 as <- <-.
  pose proof (validb_NoDup _ Hv) as Hnd.
  assert (Hndk : NoDup (dict_keys r)).
  { eapply Permutation_NoDup; [symmetry; exact Hperm | exact Hnd]. }
  assert (Hrows : forall row, In row (map metrics_row r) ->
    exists p, In p l /\ m_pid row = pid p /\
      m_arrival row = arrival p /\ m_burst row = burst p /\
      0 <= m_waiting row /\ m_burst row <= m_turnaround row).
  { intros row Hrow. apply in_map_iff in Hrow as ([k v] & <- & Hkv).
    assert (Hk : In k (map pid l)).
    { eapply Permutation_in; [exact Hperm|].
      change k with (fst (k, v)). now apply in_map. }
    apply in_map_iff in Hk as (p & <- & Hp).
    destruct (Hcomp p Hp) as (c & Hget & Hle & _).
    rewrite (@dict_get_in_nodup _ _ _ _ Hndk Hkv) in Hget. injection Hget as ->.
    exists p. simpl. repeat split; auto; lia. }
  assert (Hr : r <> []).
  { intros ->. apply Permutation_nil in Hperm.
    destruct l; [congruence | discriminate]. }
  unfold run_simulation. rewrite Hrun. unfold calculate_metrics.
  set (df := map metrics_row r) in *.
  assert (Hdf : df <> []) by (unfold df; destruct r; [congruence | discriminate]).
  assert (Hle : forall row, In row df -> m_waiting row <= m_turnaround row).
  { intros row Hrow.
    destruct (Hrows row Hrow) as (p & Hp & _ & _ & Hb & _ & Ht).
    assert (0 < burst p).
    { pose proof (validb_burst _ Hv) as HF.
      rewrite Forall_forall in HF. auto. }
    assert (Hrel : m_waiting row = m_turnaround row - m_burst row).
    { unfold df in Hrow. apply in_map_iff in Hrow as ([k v] & <- & _).
      reflexivity. }
    lia. }
  destruct (@mean_mono _ m_waiting m_turnaround df Hdf Hle)
    as (qw & qt & Hqw & Hqt & Hwt).
  destruct (@mean_nonneg (map m_waiting df)) as (qw' & Hqw' & H0).
  { destruct df; [congruence | discriminate]. }
  { intros z Hz. apply in_map_iff in Hz as (row & <- & Hrow).
    destruct (Hrows row Hrow) as (p & _ & _ & _ & _ & Hz & _). exact Hz. }
  rewrite Hqw in Hqw'. injection Hqw' as <-.
  exists g, df, qw, qt.
  split.
  - rewrite Hqw, Hqt. reflexivity.
  - split.
    + unfold df. rewrite map_map.
      replace (map (fun x => m_pid (metrics_row x)) r) with (dict_keys r);
        [exact Hperm|].
      unfold dict_keys. apply map_ext. now intros [k v].
    + split; [exact Hrows|]. split; [exact H0 | exact Hwt].
Qed.

Lemma run_simulation_metrics_witness :
  exists g df qw qt,
    run_simulation FCFS 2 16 [P "P1" 0 4; P "P2" 1 3]
    = Done (g, (df, Some qw, Some qt)) /\
    Permutation (map m_pid df) (map pid [P "P1" 0 4; P "P2" 1 3]) /\
    (forall row, In row df ->
       exists p, In p [P "P1" 0 4; P "P2" 1 3] /\ m_pid row = pid p /\
         m_arrival row = arrival p /\ m_burst row = burst p /\
         0 <= m_waiting row /\ m_burst row <= m_turnaround row) /\
    (0 <= qw)%Q /\ (qw <= qt)%Q.
Proof.
  apply (@run_simulation_metrics FCFS 2 16 [P "P1" 0 4; P "P2" 1 3]).
  - reflexivity.
  - discriminate.
  - discriminate.
  - vm_compute. lia.
Defined.

(** ** The entries of the timeline *)

(** X4: in the timeline every engine returns for a valid process list,
    every entry lasts a positive time, and every entry is either an idle
    entry of FCFS or runs a process of the list no earlier than that
    process's arrival. *)
Theorem events_well_formed a quantum fuel l :
  validb l = true -> l <> [] -> (a = RoundRobin -> 0 < quantum) ->
  (fuel_bound l <= fuel)%nat ->
  exists g r,
    snd (simulate a quantum fuel l) = Done (g, r) /\
    forall e, In e g ->
      e_start e < e_end e /\
      ((a = FCFS /\ e_pid e = IDLE) \/
       exists p, In p l /\ e_pid e = pid p /\ arrival p <= e_start e).
Proof.
  intros Hv Hne Hq Hfuel.
  destruct (@simulate_events a quantum fuel l Hv Hne Hq Hfuel)
    as (g & r & Hrun & Hf & Hs & Hr).
  exists g, r. split; [exact Hrun|].
  pose proof (validb_burst _ Hv) as HF. rewrite Forall_forall in HF.
  assert (Hwhole : forall e, runs_whole r l e ->
            e_start e < e_end e /\
            exists p, In p l /\ e_pid e = pid p /\ arrival p <= e_start e).
  { intros e (p & Hp & Hpid & Hend & Ha & _).
    specialize (HF p Hp). simpl in HF. split; [lia | eauto]. }
  intros e He. destruct a.
  - destruct (Hf eq_refl) as [Hall _]. rewrite Forall_forall in Hall.
    destruct (Hall e He) as [[Hi Hpos]|Hw].
    + split; [exact Hpos | left; auto].
    + destruct (Hwhole e Hw). auto.
  - destruct (Hs (or_introl eq_refl)) as (Hall & _).
    rewrite Forall_forall in Hall. destruct (Hwhole e (Hall e He)). auto.
  - destruct (Hs (or_intror eq_refl)) as (Hall & _).
    rewrite Forall_forall in Hall. destruct (Hwhole e (Hall e He)). auto.
  - destruct (Hr eq_refl) as (Hall & _). rewrite Forall_forall in Hall.
    destruct (Hall e He) as (Hpos & _ & Hp). auto.
Qed.

Lemma events_well_formed_witness :
  exists g r,
    snd (simulate FCFS 2 10 [P "P1" 3 4]) = Done (g, r) /\
    forall e, In e g ->
      e_start e < e_end e /\
      ((FCFS = FCFS /\ e_pid e = IDLE) \/
       exists p, In p [P "P1" 3 4] /\ e_pid e = pid p /\
         arrival p <= e_start e).
Proof.
  apply (@events_well_formed FCFS 2 10 [P "P1" 3 4]).
  - reflexivity.
  - discriminate.
  - discriminate.
  - vm_compute. lia.
Defined.

Lemma no_idle_pid_Forall l :
  no_idle_pid l = true -> Forall (fun p => pid p <> IDLE) l.
Proof.
  intros H. apply Forall_forall. intros p Hp.
  eapply no_idle_pid_spec; eauto.
Qed.

(** X5: FCFS serves in arrival order, ties in the order of the input: on
    any process list (valid or not) in which no process is named IDLE, the
    pids of the entries that are not idle entries are, in order, the pids
    of the list stably sorted by arrival. *)
Theorem fcfs_arrival_order quantum fuel l :
  no_idle_pid l = true ->
  exists g r,
    snd (simulate FCFS quantum fuel l) = Done (g, r) /\
    map e_pid (process_events g) = map pid (sort_by arrival l).
Proof.
  intros Hidle. simpl.
  destruct (fcfs_unfold l) as (t & g & r & Hfold & ->).
  exists g, r. split; [reflexivity|].
  apply fcfs_order in Hfold; [exact Hfold|].
  apply sorted_Forall. now apply no_idle_pid_Forall.
Qed.

Lemma fcfs_arrival_order_witness :
  exists g r,
    snd (simulate FCFS 1 0 [P "B" 5 1; P "A" 2 0; P "C" 2 3]) = Done (g, r) /\
    map e_pid (process_events g)
    = map pid (sort_by arrival [P "B" 5 1; P "A" 2 0; P "C" 2 3]).
Proof.
  apply (@fcfs_arrival_order 1 0 [P "B" 5 1; P "A" 2 0; P "C" 2 3]).
  reflexivity.
Defined.

Lemma process_events_whole r l g :
  Forall (fun e => idle_gap e \/ runs_whole r l e) g ->
  Forall (runs_whole r l) (process_events g).
Proof.
  induction 1 as [|e g He _ IH]; simpl; [constructor|].
  destruct (String.eqb_spec (e_pid e) IDLE) as [Hi|Hi]; simpl; [exact IH|].
  constructor; [|exact IH]. destruct He as [[Hpid _]|Hw]; [contradiction | auto].
Qed.

(** X6: FCFS, SJF and Priority do not preempt: for a valid process list
    with no process named IDLE, the entries that are not idle entries are
    one per process, and each runs its process in one piece, from a start
    no earlier than the arrival to start + burst, the completion recorded
    for it. *)
Theorem non_preemptive a quantum fuel l :
  validb l = true -> l <> [] -> no_idle_pid l = true -> a <> RoundRobin ->
  (fuel_bound l <= fuel)%nat ->
  exists g r,
    snd (simulate a quantum fuel l) = Done (g, r) /\
    Permutation (map e_pid (process_events g)) (map pid l) /\
    Forall (runs_whole r l) (process_events g).
Proof.
  intros Hv Hne Hidle Ha Hfuel.
  assert (Hq : a = RoundRobin -> 0 < quantum) by (intros; contradiction).
  destruct (@simulate_events a quantum fuel l Hv Hne Hq Hfuel)
    as (g & r & Hrun & Hf & Hs & _).
  exists g, r. split; [exact Hrun|].
  assert (Hsel : a = SJF \/ a = Priority ->
            Permutation (map e_pid (process_events g)) (map pid l) /\
            Forall (runs_whole r l) (process_events g)).
  { intros Hsp. destruct (Hs Hsp) as (Hall & Hk & Hperm).
    assert (Hpe : process_events g = g).
    { apply process_events_all. eapply Forall_impl; [|exact Hall].
      intros e (p & Hp & Hpid & _). rewrite Hpid.
      eapply no_idle_pid_spec; eauto. }
    rewrite Hpe, Hk. auto. }
  destruct a; auto; [|contradiction].
  destruct (Hf eq_refl) as [Hall _]. split.
  - simpl in Hrun. destruct (fcfs_unfold l) as (t & g0 & r0 & Hfold & Hfc).
    rewrite Hfc in Hrun. simpl in Hrun. injection Hrun as -> ->.
    apply fcfs_order in Hfold.
    + simpl in Hfold. rewrite Hfold. apply Permutation_map, sort_by_perm.
    + apply sorted_Forall. now apply no_idle_pid_Forall.
  - now apply process_events_whole.
Qed.

Lemma non_preemptive_witness :
  exists g r,
    snd (simulate Priority 2 16 [P "P1" 3 4; P "P2" 1 3]) = Done (g, r) /\
    Permutation (map e_pid (process_events g))
      (map pid [P "P1" 3 4; P "P2" 1 3]) /\
    Forall (runs_whole r [P "P1" 3 4; P "P2" 1 3]) (process_events g).
Proof.
  apply (@non_preemptive Priority 2 16 [P "P1" 3 4; P "P2" 1 3]).
  - reflexivity.
  - discriminate.
  - reflexivity.
  - discriminate.
  - vm_compute. lia.
Defined.

(** ** The slices of Round Robin *)

Lemma slices_app k g1 g2 : slices k (g1 ++ g2) = slices k g1 + slices k g2.
Proof. induction g1; simpl; lia. Qed.

Lemma slices_snoc_same k g s e :
  slices k (g ++ [mkEvent k s e]) = slices k g + 1.
Proof. rewrite slices_app. simpl. rewrite String.eqb_refl. lia. Qed.

Lemma slices_snoc_other k k' g s e :
  k' <> k -> slices k (g ++ [mkEvent k' s e]) = slices k g.
Proof.
  intros Hne. rewrite slices_app. simpl.
  destruct (String.eqb_spec k' k); [congruence | lia].
Qed.

Section RRCounts.
Variable ps : list Process.
Variable quantum : Z.
Variable p0 : Process.
Variable rest : list Process.
Hypothesis Hps : ps = p0 :: rest.
Hypothesis Hnd : NoDup (map pid ps).
Hypothesis Hburst : Forall (fun p => 0 < burst p) ps.
Hypothesis Hq : 0 < quantum.
Hypothesis Hsorted : StronglySorted (key_le arrival) ps.

Lemma rr_reach_counts st : rr_reach ps quantum st -> rr_counts ps quantum st.
Proof.
  induction 1 as [q r Hqr | st st' Hreach IH Hc Hstep].
  - constructor; simpl; [intros; lia | tauto].
  - pose proof (rr_reach_inv Hps Hnd Hburst Hq Hsorted Hreach) as Hinv.
    destruct IH as [Hfull Hen].
    apply rr_step_inv in Hstep as (i1 & ready1 & Hadm & [Hidle|Hrun]).
    + destruct Hidle as (_ & q & _ & ->). constructor; simpl; auto.
    + destruct Hrun as (p & rq & rem & i2 & ready2 & -> & Hget & Hrun).
      cbv zeta in Hrun. destruct Hrun as (_ & ->).
      destruct (@rr_run_facts ps p0 Hnd st i1 p rq Hinv Hadm)
        as (Hin & Hnokey & _ & Hrem).
      destruct (Hrem rem Hget) as [Hpos Hsum].
      set (run_time := Z.min quantum rem) in *.
      set (time' := rr_time st + run_time) in *.
      set (gantt' := rr_gantt st ++ [mkEvent (pid p) (rr_time st) time']) in *.
      assert (Hb : busy (pid p) gantt' = busy (pid p) (rr_gantt st) + run_time).
      { unfold gantt', time'. rewrite busy_snoc_same. lia. }
      assert (Hs : slices (pid p) gantt' = slices (pid p) (rr_gantt st) + 1).
      { unfold gantt'. apply slices_snoc_same. }
      assert (Hoth : forall q, pid q <> pid p ->
                busy (pid q) gantt' = busy (pid q) (rr_gantt st) /\
                slices (pid q) gantt' = slices (pid q) (rr_gantt st)).
      { intros q Hne. unfold gantt'.
        rewrite busy_snoc_other, slices_snoc_other by congruence. auto. }
      pose proof (Hfull p Hin Hnokey) as Hfp.
      destruct (Z.ltb_spec 0 (rem - run_time)) as [Hleft|Hfin];
        constructor; simpl.
      * intros q Hqin Hk.
        destruct (string_dec (pid q) (pid p)) as [Heq|Hne].
        -- assert (q = p) by (eapply NoDup_pid_inj; eauto). subst q.
           rewrite Hb, Hs, Hfp. unfold run_time in *. lia.
        -- destruct (Hoth q Hne) as [-> ->]. auto.
      * intros q Hqin Hk.
        destruct (string_dec (pid q) (pid p)) as [Heq|Hne].
        -- rewrite Heq in Hk. contradiction.
        -- destruct (Hoth q Hne) as [_ ->]. auto.
      * intros q Hqin Hk.
        destruct (string_dec (pid q) (pid p)) as [Heq|Hne].
        -- exfalso. apply Hk. apply dict_keys_set_in. now right.
        -- destruct (Hoth q Hne) as [-> ->]. apply Hfull; auto.
           intros Hk'. apply Hk. apply dict_keys_set_in. now left.
      * intros q Hqin Hk.
        destruct (string_dec (pid q) (pid p)) as [Heq|Hne].
        -- assert (q = p) by (eapply NoDup_pid_inj; eauto). subst q.
           rewrite Hs. unfold run_time in *. nia.
        -- destruct (Hoth q Hne) as [_ ->]. apply Hen; auto.
           apply dict_keys_set_in in Hk as [Hk|Hk]; [exact Hk | congruence].
Qed.

End RRCounts.

(** X7: Round Robin on a valid process list with a quantum > 0 gives no
    slice longer than the quantum, and gives every process exactly
    ceil(burst / quantum) slices. *)
Theorem rr_slice_count quantum fuel l :
  validb l = true -> l <> [] -> 0 < quantum -> (fuel_bound l <= fuel)%nat ->
  exists g r,
    snd (simulate RoundRobin quantum fuel l) = Done (g, r) /\
    (forall e, In e g -> 0 < e_end e - e_start e <= quantum) /\
    forall p, In p l ->
      slices (pid p) g = (burst p + quantum - 1) / quantum.
Proof.
  intros Hv Hne Hq Hfuel.
  destruct (@rr_engine_reach l quantum fuel Hv Hne Hq Hfuel)
    as (p0 & rest & st & res & Hs & Hrun & _ & Hreach & Hinv & Hev & Hc).
  pose proof (sorted_NoDup _ (validb_NoDup _ Hv)) as Hnd.
  pose proof (sorted_Forall (validb_burst _ Hv)) as Hb.
  pose proof (sort_by_sorted arrival l) as Hso.
  pose proof (@rr_reach_counts _ quantum p0 rest Hs Hnd Hb Hq Hso st Hreach)
    as [_ Hen].
  exists (rr_gantt st), res. split; [exact Hrun|]. split.
  - intros e He. pose proof (rr_ev_slices Hev) as Hsl.
    rewrite Forall_forall in Hsl. destruct (Hsl e He) as (H1 & H2 & _). lia.
  - intros p Hp. apply sorted_In in Hp.
    assert (Hk : In (pid p) (dict_keys (rr_completed st))).
    { eapply rr_all_done; eauto. }
    specialize (Hen p Hp Hk).
    set (n := slices (pid p) (rr_gantt st)) in *.
    apply Z.div_unique with (r := burst p + quantum - 1 - quantum * n); lia.
Qed.

Lemma rr_slice_count_witness :
  exists g r,
    snd (simulate RoundRobin 2 16 [P "P1" 0 4; P "P2" 1 3]) = Done (g, r) /\
    (forall e, In e g -> 0 < e_end e - e_start e <= 2) /\
    forall p, In p [P "P1" 0 4; P "P2" 1 3] ->
      slices (pid p) g = (burst p + 2 - 1) / 2.
Proof.
  apply (@rr_slice_count 2 16 [P "P1" 0 4; P "P2" 1 3]).
  - reflexivity.
  - discriminate.
  - lia.
  - vm_compute. lia.
Defined.

(** ** Which process SJF and Priority pick *)

Lemma sort_by_head (A : Type) (key : A -> Z) l : forall p rest,
  sort_by key l = p :: rest ->
  exists l1 l2,
    l = l1 ++ p :: l2 /\
    (forall q, In q l1 -> key p < key q) /\
    (forall q, In q l2 -> key p <= key q) /\
    rest = sort_by key (l1 ++ l2).
Proof.
  induction l as [|x l IH]; simpl; intros p rest H; [discriminate|].
  destruct (sort_by key l) as [|y s] eqn:Hs.
  - simpl in H. injection H as <- <-.
    assert (l = []).
    { apply Permutation_nil. rewrite <- Hs. apply sort_by_perm. }
    subst l. exists [], []. simpl. repeat split; auto; tauto.
  - simpl in H. destruct (Z.leb_spec (key x) (key y)) as [Hle|Hgt].
    + injection H as <- <-. exists [], l. simpl.
      split; [reflexivity|]. split; [tauto|]. split; [|now rewrite Hs].
      intros q Hq.
      assert (Hq' : In q (y :: s)).
      { rewrite <- Hs. eapply Permutation_in; [|exact Hq].
        symmetry. apply sort_by_perm. }
      pose proof (sort_by_sorted key l) as Hsorted. rewrite Hs in Hsorted.
      apply StronglySorted_inv in Hsorted as [_ Hall].
      rewrite Forall_forall in Hall. unfold key_le in Hall.
      destruct Hq' as [<-|Hq']; [lia|]. specialize (Hall q Hq'). lia.
    + injection H as <- <-.
      destruct (IH y s eq_refl) as (l1 & l2 & -> & H1 & H2 & ->).
      exists (x :: l1), l2. simpl. split; [reflexivity|].
      split; [|split; [exact H2 | reflexivity]].
      intros q [<-|Hq]; [lia | auto].
Qed.

(** X8: the choice of SJF and Priority.  When the queue is not empty once
    the arrivals are in, the iteration runs, to its end, the first process
    of the queue among those with the least key (burst for SJF, priority
    for Priority): every process ahead of it in the queue has a strictly
    greater key, every process behind it a key at least as great. *)
Theorem sel_picks_first_minimum key ps st st' i' ready' :
  sel_step key ps st = inr st' ->
  enqueue ps (s_time st) (s_i st) (s_ready st) = (i', ready') ->
  ready' <> [] ->
  exists l1 p l2,
    ready' = l1 ++ p :: l2 /\
    (forall q, In q l1 -> key p < key q) /\
    (forall q, In q l2 -> key p <= key q) /\
    s_gantt st'
    = s_gantt st ++ [mkEvent (pid p) (s_time st) (s_time st + burst p)] /\
    s_time st' = s_time st + burst p /\
    s_ready st' = sort_by key (l1 ++ l2) /\
    dict_get (s_results st') (pid p)
    = Some (mkCompletion (arrival p) (burst p) (s_time st + burst p)).
Proof.
  intros Hstep Hadm Hne.
  apply sel_step_inv in Hstep as (i2 & ready2 & Hadm2 & Hcase).
  rewrite Hadm in Hadm2. injection Hadm2 as <- <-.
  destruct Hcase as [[He _]|(_ & p & rest & Hs & ->)]; [contradiction|].
  destruct (sort_by_head key _ Hs) as (l1 & l2 & Hl & H1 & H2 & Hrest).
  exists l1, p, l2. simpl. repeat split; auto.
  apply dict_get_set_same.
Qed.

Lemma sel_picks_first_minimum_witness :
  let ps := [P "P1" 0 5; P "P2" 0 3; P "P3" 0 3] in
  exists l1 p l2,
    ps = l1 ++ p :: l2 /\
    (forall q, In q l1 -> burst p < burst q) /\
    (forall q, In q l2 -> burst p <= burst q) /\
    [mkEvent "P2" 0 3]
    = [] ++ [mkEvent (pid p) 0 (0 + burst p)] /\
    3 = 0 + burst p /\
    [P "P3" 0 3; P "P1" 0 5] = sort_by burst (l1 ++ l2) /\
    dict_get [("P2", mkCompletion 0 3 3)] (pid p)
    = Some (mkCompletion (arrival p) (burst p) (0 + burst p)).
Proof.
  cbv zeta.
  apply (@sel_picks_first_minimum burst
           [P "P1" 0 5; P "P2" 0 3; P "P3" 0 3]
           (sel_init 0)
           (mkSel 3 3 [P "P3" 0 3; P "P1" 0 5] [mkEvent "P2" 0 3]
              [("P2", mkCompletion 0 3 3)])
           3%nat [P "P1" 0 5; P "P2" 0 3; P "P3" 0 3]).
  - reflexivity.
  - reflexivity.
  - discriminate.
Defined.

(** ** A pid that occurs twice *)

Lemma NoDup_nodupb l : NoDup l -> nodupb l = true.
Proof.
  induction 1 as [|k l Hn _ IH]; simpl; auto.
  rewrite IH, andb_true_r. apply negb_true_iff. now apply mem_str_false.
Qed.

Lemma dict_set_keys_NoDup (V : Type) (d : dict V) k v :
  NoDup (dict_keys d) -> NoDup (dict_keys (dict_set d k v)).
Proof.
  intros Hnd. destruct (in_dec string_dec k (dict_keys d)) as [Hin|Hn].
  - now rewrite dict_keys_set_old.
  - rewrite dict_keys_set_new by assumption.
    apply NoDup_app; [exact Hnd | repeat constructor; tauto|].
    intros x Hx [<-|[]]. contradiction.
Qed.

Lemma enqueue_incl ps t i ready i' ready' :
  enqueue ps t i ready = (i', ready') -> incl ready ps -> incl ready' ps.
Proof.
  unfold enqueue. intros H Hincl.
  apply enqueue_from_spec in H as (new & tail & Hsk & -> & _).
  apply incl_app; [exact Hincl|].
  intros x Hx. rewrite <- (firstn_skipn i ps). apply in_or_app. right.
  rewrite Hsk. apply in_or_app. now left.
Qed.

Lemma sel_reach_keys key ps st :
  sel_reach key ps st ->
  incl (s_ready st) ps /\
  NoDup (dict_keys (s_results st)) /\
  incl (dict_keys (s_results st)) (map pid ps).
Proof.
  induction 1 as [q r Hq | st st' _ (Hr & Hnd & Hk) _ Hstep].
  - simpl. repeat split; [intros x [] | constructor | intros x []].
  - apply sel_step_inv in Hstep as (i' & ready' & Hadm & Hcase).
    pose proof (@enqueue_incl _ _ _ _ _ _ Hadm Hr) as Hr'.
    destruct Hcase as [(_ & q & _ & ->)|(_ & p & rest & Hs & ->)]; simpl.
    + repeat split; auto. intros x [].
    + assert (Hsub : incl (p :: rest) ps).
      { intros x Hx. apply Hr'. eapply Permutation_in; [|exact Hx].
        rewrite <- Hs. apply sort_by_perm. }
      split; [intros x Hx; apply Hsub; now right|].
      split; [now apply dict_set_keys_NoDup|].
      intros x Hx. apply dict_keys_set_in in Hx as [Hx| ->]; [auto|].
      apply in_map. apply Hsub. now left.
Qed.

Lemma rr_reach_keys ps quantum st :
  rr_reach ps quantum st ->
  incl (rr_ready st) ps /\
  NoDup (dict_keys (rr_completed st)) /\
  incl (dict_keys (rr_completed st)) (map pid ps).
Proof.
  induction 1 as [q r Hq | st st' _ (Hr & Hnd & Hk) _ Hstep].
  - simpl. repeat split; [intros x [] | constructor | intros x []].
  - apply rr_step_inv in Hstep as (i1 & ready1 & Hadm & Hcase).
    pose proof (@enqueue_incl _ _ _ _ _ _ Hadm Hr) as Hr1.
    destruct Hcase as [(_ & q & _ & ->)|Hrun]; simpl.
    + repeat split; auto. intros x [].
    + destruct Hrun as (p & rq & rem & i2 & ready2 & -> & _ & Hrun).
      cbv zeta in Hrun. destruct Hrun as (Hadm2 & ->).
      assert (Hrq : incl rq ps) by (intros x Hx; apply Hr1; now right).
      pose proof (@enqueue_incl _ _ _ _ _ _ Hadm2 Hrq) as Hr2.
      assert (Hp : In p ps) by (apply Hr1; now left).
      destruct (0 <? rem - Z.min quantum rem); simpl.
      * repeat split; auto. apply incl_app; auto. intros x [<-|[]]. exact Hp.
      * split; [exact Hr2|]. split; [now apply dict_set_keys_NoDup|].
        intros x Hx. apply dict_keys_set_in in Hx as [Hx| ->]; [auto|].
        now apply in_map.
Qed.

Lemma fcfs_keys_nodup l : forall t g r t' g' r',
  fold_left fcfs_body l (t, g, r) = (t', g', r') ->
  NoDup (dict_keys r) ->
  NoDup (dict_keys r') /\
  forall k, In k (dict_keys r') -> In k (dict_keys r) \/ In k (map pid l).
Proof.
  induction l as [|p l IH]; cbn [fold_left map]; intros t g r t' g' r' H Hnd.
  - injection H as <- <- <-. auto.
  - rewrite fcfs_body_eq in H.
    destruct (IH _ _ _ _ _ _ H (dict_set_keys_NoDup _ _ _ Hnd)) as [H1 H2].
    split; [exact H1|]. intros k Hk.
    destruct (H2 k Hk) as [Hk'|Hk']; [|right; now right].
    apply dict_keys_set_in in Hk' as [Hk'| ->]; [now left | right; now left].
Qed.

(** X9: a pid that occurs twice.  SJF, Priority and Round Robin never
    return a result for such a list, whatever the quantum and however long
    they run: their loop waits for as many completion records as there are
    processes, and records are keyed by pid.  FCFS returns, with fewer
    completion records than processes. *)
Theorem duplicate_pid a quantum fuel l :
  nodupb (map pid l) = false ->
  (a <> FCFS -> forall x, snd (simulate a quantum fuel l) <> Done x) /\
  (a = FCFS ->
   exists g r,
     snd (simulate a quantum fuel l) = Done (g, r) /\
     (dict_len r < length l)%nat /\ (length l <= length g)%nat).
Proof.
  intros Hdup.
  assert (Hnot : ~ NoDup (map pid (sort_by arrival l))).
  { intros Hnd.
    assert (Hnd' : NoDup (map pid l)).
    { eapply Permutation_NoDup; [|exact Hnd].
      apply Permutation_map, sort_by_perm. }
    apply NoDup_nodupb in Hnd'. congruence. }
  assert (Hfull : forall keys : list string,
            NoDup keys -> incl keys (map pid (sort_by arrival l)) ->
            (length (sort_by arrival l) <= length keys)%nat -> False).
  { intros keys Hnd Hincl Hlen. apply Hnot.
    eapply NoDup_incl_NoDup; [exact Hnd | | exact Hincl].
    now rewrite length_map. }
  assert (Hsel : forall key x, snd (sel_engine key fuel l) <> Done x).
  { intros key [g r] H.
    destruct (sort_by arrival l) as [|p0 rest] eqn:Hs.
    - unfold sel_engine in H. rewrite Hs in H. discriminate.
    - rewrite (sel_engine_cons key fuel _ Hs) in H.
      apply sel_loop_reach in H as (st & Hreach & Hc & _ & _);
        [|eapply sel_reach_init; exact Hs].
      destruct (sel_reach_keys Hreach) as (_ & Hnd & Hk).
      unfold sel_cond in Hc. apply Nat.ltb_ge in Hc.
      rewrite dict_len_keys in Hc. rewrite Hs in Hk, Hc. eauto. }
  split.
  - intros Ha x. destruct a; [congruence | apply Hsel | apply Hsel |].
    intros H. unfold simulate, round_robin in H. cbn [snd] in H.
    destruct (sort_by arrival l) as [|p0 rest] eqn:Hs; [discriminate|].
    destruct (rr_loop _ _ _ _) as [st| |] eqn:Hloop; try discriminate.
    apply rr_loop_reach in Hloop as [Hreach Hc];
      [|eapply rr_reach_init; reflexivity].
    destruct (rr_reach_keys Hreach) as (_ & Hnd & Hk).
    unfold rr_cond in Hc. apply Nat.ltb_ge in Hc.
    rewrite dict_len_keys in Hc. eauto.
  - intros ->. simpl.
    destruct (fcfs_unfold l) as (t & g & r & Hfold & ->).
    exists g, r. split; [reflexivity|].
    destruct (@fcfs_events _ _ _ _ _ _ _ Hfold) as (g2 & Hg & Hlen & _).
    simpl in Hg. subst g2. rewrite sort_by_length in Hlen.
    split; [|exact Hlen].
    destruct (@fcfs_keys_nodup _ _ _ _ _ _ _ Hfold) as [Hnd Hk];
      [constructor|].
    rewrite dict_len_keys, <- (sort_by_length arrival l).
    apply Nat.nle_gt. intros Hle. apply (Hfull (dict_keys r)); auto.
    intros k Hin. destruct (Hk k Hin) as [[]|]; auto.
Qed.

Lemma duplicate_pid_witness :
  (RoundRobin <> FCFS ->
   forall x,
     snd (simulate RoundRobin 2 50 [P "A" 0 3; P "A" 1 2]) <> Done x) /\
  (RoundRobin = FCFS ->
   exists g r,
     snd (simulate RoundRobin 2 50 [P "A" 0 3; P "A" 1 2]) = Done (g, r) /\
     (dict_len r < length [P "A" 0 3; P "A" 1 2])%nat /\
     (length [P "A" 0 3; P "A" 1 2] <= length g)%nat).
Proof.
  apply (@duplicate_pid RoundRobin 2 50 [P "A" 0 3; P "A" 1 2]).
  reflexivity.
Defined.

(** ** The averages *)

Lemma zsum_map_sub (A : Type) (f h : A -> Z) l :
  zsum (map (fun x => f x - h x) l) = zsum (map f l) - zsum (map h l).
Proof. induction l as [|x l IH]; simpl; lia. Qed.

(** X10: rounding apart, the average turnaround exceeds the average
    waiting time by the mean burst.  On a non-empty set of completion
    records whose waiting and turnaround columns binary64 sums without
    rounding, the difference of the two averages returned is within
    2^-53 (|mean turnaround| + |mean waiting|) of the exact mean burst;
    it is the exact mean burst when the number of records is a power of
    two. *)
Theorem averages_differ_by_mean_burst results :
  results <> [] ->
  small_column (map m_waiting (fst (fst (calculate_metrics results)))) ->
  small_column (map m_turnaround (fst (fst (calculate_metrics results)))) ->
  exists qw qt,
    snd (fst (calculate_metrics results)) = Some qw /\
    snd (calculate_metrics results) = Some qt /\
    (Qabs (qt - qw - exact_mean (map (fun kv => r_burst (snd kv)) results))
     <= (Qabs (exact_mean
                 (map m_turnaround (fst (fst (calculate_metrics results)))))
         + Qabs (exact_mean
                   (map m_waiting (fst (fst (calculate_metrics results))))))
        * (1 # 9007199254740992))%Q /\
    ((exists k, length results = (2 ^ k)%nat) ->
     (qt - qw == exact_mean (map (fun kv => r_burst (snd kv)) results))%Q).
Proof.
  intros Hne. unfold calculate_metrics. cbn [fst snd].
  set (df := map metrics_row results).
  intros Hsw Hst.
  assert (Hdf : df <> []).
  { unfold df. destruct results; [congruence | discriminate]. }
  destruct (@mean_rounded (map m_waiting df)) as (qw & Eqw & Nw & Bw & Xw);
    [destruct df; [congruence | discriminate] | exact Hsw |].
  destruct (@mean_rounded (map m_turnaround df)) as (qt & Eqt & Nt & Bt & Xt);
    [destruct df; [congruence | discriminate] | exact Hst |].
  exists qw, qt. split; [exact Eqw|]. split; [exact Eqt|].
  set (W := exact_mean (map m_waiting df)) in *.
  set (T := exact_mean (map m_turnaround df)) in *.
  set (B := exact_mean (map (fun kv => r_burst (snd kv)) results)).
  assert (HB : (T - W == B)%Q).
  { unfold T, W, B, exact_mean. rewrite !length_map. unfold df.
    rewrite length_map, !map_map.
    assert (Hz : zsum (map (fun x => m_waiting (metrics_row x)) results)
                 = zsum (map (fun x => m_turnaround (metrics_row x)) results)
                   - zsum (map (fun kv => r_burst (snd kv)) results)).
    { rewrite <- zsum_map_sub. f_equal. apply map_ext. now intros [k v]. }
    rewrite Hz. unfold Z.sub. rewrite inject_Z_plus, inject_Z_opp.
    field. destruct results; [congruence|].
    change 0%Q with (inject_Z 0). rewrite inject_Z_injective.
    simpl length. lia. }
  split.
  - setoid_replace (qt - qw - B)%Q with ((qt - T) + - (qw - W))%Q
      by (rewrite <- HB; ring).
    eapply Qle_trans; [apply Qabs_triangle|].
    rewrite Qabs_opp.
    assert (Hsum : ((Qabs T + Qabs W) * (1 # 9007199254740992)
                    == Qabs T * (1 # 9007199254740992)
                       + Qabs W * (1 # 9007199254740992))%Q) by ring.
    rewrite Hsum. apply Qplus_le_compat; assumption.
  - intros (k & Hk).
    assert (Lw : length (map m_waiting df) = (2 ^ k)%nat).
    { unfold df. now rewrite !length_map. }
    assert (Lt : length (map m_turnaround df) = (2 ^ k)%nat).
    { unfold df. now rewrite !length_map. }
    rewrite <- HB.
    rewrite (proj2 Xw (@exact_mean_pow2 _ _ Hsw Lw)).
    rewrite (proj2 Xt (@exact_mean_pow2 _ _ Hst Lt)). reflexivity.
Qed.

Lemma averages_differ_by_mean_burst_witness :
  exists qw qt,
    snd (fst (calculate_metrics
                [("P1", mkCompletion 0 1 1); ("P2", mkCompletion 0 1 2);
                 ("P3", mkCompletion 2 1 3)]))
    = Some qw /\
    snd (calculate_metrics
           [("P1", mkCompletion 0 1 1); ("P2", mkCompletion 0 1 2);
            ("P3", mkCompletion 2 1 3)])
    = Some qt /\
    (Qabs (qt - qw
           - exact_mean
               (map (fun kv => r_burst (snd kv))
                  [("P1", mkCompletion 0 1 1); ("P2", mkCompletion 0 1 2);
                   ("P3", mkCompletion 2 1 3)]))
     <= (Qabs (exact_mean
                 (map m_turnaround
                    (fst (fst (calculate_metrics
                                 [("P1", mkCompletion 0 1 1);
                                  ("P2", mkCompletion 0 1 2);
                                  ("P3", mkCompletion 2 1 3)])))))
         + Qabs (exact_mean
                   (map m_waiting
                      (fst (fst (calculate_metrics
                                   [("P1", mkCompletion 0 1 1);
                                    ("P2", mkCompletion 0 1 2);
                                    ("P3", mkCompletion 2 1 3)]))))))
        * (1 # 9007199254740992))%Q /\
    ((exists k,
        length [("P1", mkCompletion 0 1 1); ("P2", mkCompletion 0 1 2);
                ("P3", mkCompletion 2 1 3)] = (2 ^ k)%nat) ->
     (qt - qw
      == exact_mean
           (map (fun kv => r_burst (snd kv))
              [("P1", mkCompletion 0 1 1); ("P2", mkCompletion 0 1 2);
               ("P3", mkCompletion 2 1 3)]))%Q).
Proof.
  apply (@averages_differ_by_mean_burst
           [("P1", mkCompletion 0 1 1); ("P2", mkCompletion 0 1 2);
            ("P3", mkCompletion 2 1 3)]).
  - discriminate.
  - split; vm_compute; discriminate.
  - split; vm_compute; discriminate.
Defined.

(** ** SJF and Priority on any process list *)

Section SelAny.
Variable key : Process -> Z.
Variable ps : list Process.

Lemma sel_any_init t : sel_any ps (sel_init t).
Proof. constructor; simpl; auto. lia. Qed.

Lemma sel_any_lengths st :
  sel_any ps st ->
  (length (s_ready st) + length (s_gantt st) = s_i st)%nat.
Proof.
  intros [Hi Hperm _]. apply Permutation_length in Hperm.
  rewrite length_app, !length_map, length_firstn in Hperm. lia.
Qed.

Lemma sel_any_step st :
  sel_any ps st -> sel_cond ps st = true ->
  (sel_step key ps st = inl IndexError /\ ~ NoDup (map pid ps)) \/
  exists st',
    sel_step key ps st = inr st' /\ sel_any ps st' /\
    2 * Z.of_nat (length ps - length (s_gantt st')) + sel_flag ps st'
    < 2 * Z.of_nat (length ps - length (s_gantt st)) + sel_flag ps st.
Proof.
  intros Hany Hcond. pose proof Hany as [Hi Hperm Hkeys].
  pose proof (sel_any_lengths Hany) as Hlen.
  unfold sel_cond in Hcond. apply Nat.ltb_lt in Hcond.
  unfold sel_step, sel_flag at 2.
  destruct (enqueue ps (s_time st) (s_i st) (s_ready st)) as [i' ready'] eqn:Hadm.
  destruct (@enqueue_spec _ _ _ _ _ _ Hi Hadm)
    as (new & Hready' & Hfirst & Hi' & Hi'le & _ & _ & _).
  assert (Hperm' : Permutation (map pid ready' ++ map e_pid (s_gantt st))
                     (map pid (firstn i' ps))).
  { rewrite Hfirst, Hready', !map_app, <- Hperm.
    rewrite <- !app_assoc. apply Permutation_app_head, Permutation_app_comm. }
  simpl snd.
  destruct ready' as [|r0 ready0] eqn:Hr.
  - assert (Hg : length (s_gantt st) = i').
    { apply Permutation_length in Hperm'. simpl in Hperm'.
      rewrite !length_map, length_firstn in Hperm'. lia. }
    destruct (nth_error ps i') as [q|] eqn:Hq.
    + right. eexists. split; [reflexivity|]. split.
      * constructor; simpl; auto.
      * unfold sel_flag, enqueue. simpl.
        rewrite (@skipn_nth_cons _ _ _ _ Hq). simpl.
        rewrite Z.leb_refl.
        destruct (enqueue_from _ _ _ _) as [i2 r2] eqn:E.
        apply enqueue_from_spec in E as (n2 & _ & _ & -> & _).
        simpl. lia.
    + left. split; [reflexivity|]. intros Hnd.
      apply nth_error_None in Hq.
      rewrite dict_len_keys, (Hkeys Hnd), length_map in Hcond. lia.
  - right. rewrite <- Hr in *.
    assert (Hsp : Permutation (sort_by key ready') ready')
      by apply sort_by_perm.
    destruct (sort_by key ready') as [|p ready1] eqn:Hs.
    { apply Permutation_nil in Hsp. congruence. }
    eexists. split; [reflexivity|]. split.
    + constructor; simpl.
      * exact Hi'le.
      * rewrite map_app. simpl. rewrite <- Hperm'.
        apply (Permutation_map pid) in Hsp. simpl in Hsp.
        rewrite <- Hsp. simpl. rewrite app_assoc.
        symmetry. apply Permutation_cons_append.
      * intros Hnd. rewrite map_app. simpl. rewrite <- (Hkeys Hnd).
        apply dict_keys_set_new. rewrite (Hkeys Hnd).
        assert (Hnd1 : NoDup (map pid ready' ++ map e_pid (s_gantt st))).
        { eapply Permutation_NoDup; [symmetry; exact Hperm'|].
          rewrite <- firstn_map. now apply NoDup_firstn. }
        apply (Permutation_map pid) in Hsp. simpl in Hsp.
        rewrite <- Hsp in Hnd1. simpl in Hnd1.
        apply NoDup_cons_iff in Hnd1 as [Hn _].
        intros Hin. apply Hn. apply in_or_app. now right.
    + cbn [s_gantt]. rewrite length_app. cbn [length].
      assert (Hgl : (length (s_gantt st) < length ps)%nat).
      { apply Permutation_length in Hperm'.
        rewrite length_app, !length_map, length_firstn in Hperm'.
        rewrite Hr in Hperm'. simpl in Hperm'. lia. }
      match goal with |- _ + ?f < _ =>
        assert (Hf : f <= 1) by apply sel_flag_range;
        generalize dependent f end.
      intros f Hf. lia.
Qed.

Lemma sel_any_loop : forall fuel st,
  sel_any ps st ->
  2 * Z.of_nat (length ps - length (s_gantt st)) + sel_flag ps st
  < Z.of_nat fuel ->
  (sel_loop key ps fuel st = Raise IndexError /\ ~ NoDup (map pid ps)) \/
  exists st',
    sel_loop key ps fuel st = Done (s_gantt st', s_results st') /\
    sel_any ps st' /\ sel_cond ps st' = false.
Proof.
  induction fuel as [|fuel IH]; intros st Hany Hm.
  - pose proof (sel_flag_range ps st). lia.
  - simpl. destruct (sel_cond ps st) eqn:Hc.
    + destruct (sel_any_step Hany Hc) as [[-> Hdup]|(st1 & -> & Hany1 & Hdec)].
      * left. auto.
      * apply IH; [assumption | lia].
    + right. exists st. auto.
Qed.

End SelAny.

Lemma sel_engine_any key fuel l :
  (2 * length l + 2 <= fuel)%nat ->
  (l = [] \/ nodupb (map pid l) = false ->
   snd (sel_engine key fuel l) = Raise IndexError) /\
  (l <> [] -> nodupb (map pid l) = true ->
   exists g r,
     snd (sel_engine key fuel l) = Done (g, r) /\
     length g = length l /\ dict_keys r = map e_pid g /\
     Permutation (dict_keys r) (map pid l)).
Proof.
  intros Hfuel.
  destruct (sort_by arrival l) as [|p0 rest] eqn:Hs.
  { assert (l = []).
    { apply Permutation_nil. rewrite <- Hs. apply sort_by_perm. }
    subst l. split; [reflexivity | congruence]. }
  assert (Hl : l <> []) by (intros ->; discriminate).
  assert (Hlen : length (sort_by arrival l) = length l)
    by apply sort_by_length.
  assert (Hpm : Permutation (map pid (sort_by arrival l)) (map pid l))
    by apply Permutation_map, sort_by_perm.
  rewrite (sel_engine_cons key fuel _ Hs).
  destruct (@sel_any_loop key (sort_by arrival l) fuel (sel_init (arrival p0)))
    as [[Hraise Hdup]|(st & Hrun & Hany & Hc)].
  - apply sel_any_init.
  - pose proof (sel_flag_range (sort_by arrival l) (sel_init (arrival p0)))
      as Hf.
    revert Hf. generalize (sel_flag (sort_by arrival l) (sel_init (arrival p0))).
    intros f Hf. cbn [sel_init s_gantt length].
    rewrite Nat.sub_0_r, Hlen. lia.
  - split; [auto|]. intros _ Hnd. exfalso. apply Hdup.
    eapply Permutation_NoDup; [symmetry; exact Hpm|].
    now apply nodupb_NoDup.
  - assert (Hnd : NoDup (map pid (sort_by arrival l))).
    { pose proof Hrun as Hrun'.
      apply sel_loop_reach in Hrun' as (st' & Hreach & Hc' & _ & _);
        [|eapply sel_reach_init; exact Hs].
      destruct (sel_reach_keys Hreach) as (_ & Hndk & Hk).
      unfold sel_cond in Hc'. apply Nat.ltb_ge in Hc'.
      rewrite dict_len_keys in Hc'.
      eapply NoDup_incl_NoDup; [exact Hndk | | exact Hk].
      now rewrite length_map. }
    split.
    + intros [->|Hdup]; [congruence|]. exfalso.
      assert (Hnd' : NoDup (map pid l)).
      { eapply Permutation_NoDup; [exact Hpm | exact Hnd]. }
      apply NoDup_nodupb in Hnd'. congruence.
    + intros _ _. exists (s_gantt st), (s_results st).
      split; [exact Hrun|].
      pose proof (sel_any_keys Hany Hnd) as Hk.
      pose proof (sel_any_lengths Hany) as Hlens.
      pose proof (sel_any_i Hany) as Hi.
      unfold sel_cond in Hc. apply Nat.ltb_ge in Hc.
      rewrite dict_len_keys, Hk, length_map in Hc.
      split; [lia|]. split; [exact Hk|].
      pose proof (sel_any_perm Hany) as Hperm.
      assert (Hr : s_ready st = []).
      { destruct (s_ready st); [reflexivity | simpl in Hlens; lia]. }
      rewrite Hr in Hperm. simpl in Hperm.
      rewrite firstn_all2 in Hperm by lia.
      rewrite Hk, Hperm. exact Hpm.
Qed.

(** X11: the outcome of SJF and of Priority on any process list, whatever
    its bursts and arrivals.  On the empty list, and on a list in which a
    pid occurs twice, the engine fails with an index error; on every other
    list it returns, with one entry and one completion record per process,
    the records in the order of the entries. *)
Theorem sel_outcome a quantum fuel l :
  a = SJF \/ a = Priority ->
  (2 * length l + 2 <= fuel)%nat ->
  (l = [] \/ nodupb (map pid l) = false ->
   snd (simulate a quantum fuel l) = Raise IndexError) /\
  (l <> [] -> nodupb (map pid l) = true ->
   exists g r,
     snd (simulate a quantum fuel l) = Done (g, r) /\
     length g = length l /\ dict_keys r = map e_pid g /\
     Permutation (dict_keys r) (map pid l)).
Proof.
  intros [->| ->] Hfuel; simpl; now apply sel_engine_any.
Qed.

Lemma sel_outcome_witness :
  (([P "A" 0 0; P "B" (-3) (-2)] : list Process) = [] \/
   nodupb (map pid [P "A" 0 0; P "B" (-3) (-2)]) = false ->
   snd (simulate SJF 1 6 [P "A" 0 0; P "B" (-3) (-2)]) = Raise IndexError) /\
  ([P "A" 0 0; P "B" (-3) (-2)] <> [] ->
   nodupb (map pid [P "A" 0 0; P "B" (-3) (-2)]) = true ->
   exists g r,
     snd (simulate SJF 1 6 [P "A" 0 0; P "B" (-3) (-2)]) = Done (g, r) /\
     length g = length [P "A" 0 0; P "B" (-3) (-2)] /\
     dict_keys r = map e_pid g /\
     Permutation (dict_keys r) (map pid [P "A" 0 0; P "B" (-3) (-2)])).
Proof.
  apply (@sel_outcome SJF 1 6 [P "A" 0 0; P "B" (-3) (-2)]).
  - now left.
  - simpl. lia.
Defined.

(** ** Round Robin with a quantum no shorter than any burst *)

Lemma busy_absent k g : ~ In k (map e_pid g) -> busy k g = 0.
Proof.
  induction g as [|e g IH]; simpl; intros H; [reflexivity|].
  destruct (String.eqb_spec (e_pid e) k); [tauto|]. rewrite IH; tauto.
Qed.

Section RRFifo.
Variable ps : list Process.
Variable quantum : Z.
Variable p0 : Process.
Variable rest : list Process.
Hypothesis Hps : ps = p0 :: rest.
Hypothesis Hnd : NoDup (map pid ps).
Hypothesis Hburst : Forall (fun p => 0 < burst p) ps.
Hypothesis Hq : 0 < quantum.
Hypothesis Hsorted : StronglySorted (key_le arrival) ps.
Hypothesis Hbig : Forall (fun p => burst p <= quantum) ps.

Lemma rr_reach_fifo st : rr_reach ps quantum st -> rr_fifo ps st.
Proof.
  induction 1 as [q r Hqr | st st' Hreach IH Hc Hstep].
  - constructor; simpl; auto.
  - pose proof (rr_reach_inv Hps Hnd Hburst Hq Hsorted Hreach) as Hinv.
    destruct IH as [Hord Hwhole].
    apply rr_step_inv in Hstep as (i1 & ready1 & Hadm & Hcase).
    destruct (@enqueue_spec _ _ _ _ _ _ (rr_i_le Hinv) Hadm)
      as (new & Hready1 & Hfirst & _ & Hi1le & _ & _ & _).
    assert (Hord1 : map e_pid (rr_gantt st) ++ map pid ready1
                    = map pid (firstn i1 ps)).
    { rewrite Hfirst, Hready1, !map_app, <- Hord. now rewrite app_assoc. }
    destruct Hcase as [(Hr1 & q & _ & ->)|Hrun].
    + constructor; simpl; auto. rewrite Hr1 in Hord1. exact Hord1.
    + destruct Hrun as (p & rq & rem & i2 & ready2 & -> & Hget & Hrun).
      cbv zeta in Hrun. destruct Hrun as (Hadm2 & ->).
      destruct (@rr_run_facts ps p0 Hnd st i1 p rq Hinv Hadm)
        as (Hin & _ & _ & Hrem).
      destruct (Hrem rem Hget) as [Hpos Hsum].
      destruct (@enqueue_spec _ _ _ _ _ _ Hi1le Hadm2)
        as (new2 & Hready2 & Hfirst2 & _ & _ & _ & _ & _).
      assert (Hfresh : busy (pid p) (rr_gantt st) = 0).
      { apply busy_absent. intros Hk.
        assert (Hnd1 : NoDup (map e_pid (rr_gantt st) ++ map pid (p :: rq))).
        { rewrite Hord1, <- firstn_map. now apply NoDup_firstn. }
        simpl in Hnd1. apply NoDup_remove_2 in Hnd1. apply Hnd1.
        apply in_or_app. now left. }
      assert (Hle : rem <= quantum).
      { rewrite Forall_forall in Hbig. specialize (Hbig p Hin).
        simpl in Hbig. lia. }
      assert (Hrt : Z.min quantum rem = rem) by lia.
      rewrite Hrt. replace (rem - rem) with 0 by lia. simpl.
      constructor; simpl.
      * rewrite Hfirst2, Hready2, !map_app, <- Hord1. simpl.
        rewrite <- !app_assoc. reflexivity.
      * apply Forall_app. split; [exact Hwhole|].
        constructor; [|constructor]. exists p. simpl.
        repeat split; auto. lia.
Qed.

End RRFifo.

Lemma serve_unique ps : forall l g t0,
  NoDup (map pid ps) -> incl l ps ->
  map e_pid g = map pid l ->
  Forall (whole_burst ps) g ->
  links (linked ps) g ->
  (forall e p, hd_error g = Some e -> hd_error l = Some p ->
     e_start e = Z.max t0 (arrival p)) ->
  g = serve t0 l.
Proof.
  induction l as [|p l IH]; intros g t0 Hnd Hincl Hpids Hwhole Hlinks Hhd.
  - destruct g; [reflexivity | discriminate].
  - destruct g as [|e g]; [discriminate|].
    simpl in Hpids. injection Hpids as Hpe Hpids.
    assert (Hp : In p ps) by (apply Hincl; now left).
    assert (Hstart : e_start e = Z.max t0 (arrival p))
      by (apply Hhd; reflexivity).
    apply Forall_cons_iff in Hwhole as [(q & Hq & Hqe & Hend) Hwhole].
    assert (q = p) by (eapply NoDup_pid_inj; eauto; congruence). subst q.
    assert (He : e = mkEvent (pid p) (Z.max t0 (arrival p))
                       (Z.max t0 (arrival p) + burst p)).
    { destruct e as [k s en]. simpl in *. subst. reflexivity. }
    simpl. rewrite <- He. f_equal.
    destruct Hlinks as [Hl1 Hlinks].
    apply IH; auto.
    + intros x Hx. apply Hincl. now right.
    + intros e2 p2 He2 Hp2. destruct g as [|e2' g]; [discriminate|].
      injection He2 as ->. destruct l as [|p2' l]; [discriminate|].
      injection Hp2 as ->.
      destruct Hl1 as (q & Hq' & Hqe' & Hst).
      simpl in Hpids. injection Hpids as Hpe2 _.
      assert (q = p2).
      { eapply NoDup_pid_inj; eauto; [|congruence].
        apply Hincl. right. now left. }
      subst q. rewrite Hst. rewrite He. reflexivity.
Qed.

Lemma fcfs_serve l : forall t g r t' g' r',
  fold_left fcfs_body l (t, g, r) = (t', g', r') ->
  Forall (fun p => pid p <> IDLE) l ->
  process_events g' = process_events g ++ serve t l.
Proof.
  induction l as [|p l IH]; cbn [fold_left serve]; intros t g r t' g' r' H Hl.
  - injection H as <- <- <-. now rewrite app_nil_r.
  - rewrite fcfs_body_eq in H. inversion Hl as [|? ? Hp Hl']; subst.
    rewrite (IH _ _ _ _ _ _ H Hl').
    rewrite process_events_app. simpl.
    destruct (String.eqb_spec (pid p) IDLE); [contradiction|]. simpl.
    replace (process_events
               (if t <? arrival p
                then g ++ [mkEvent IDLE t (arrival p)] else g))
      with (process_events g).
    + now rewrite <- app_assoc.
    + destruct (t <? arrival p); auto.
      rewrite process_events_app. simpl. now rewrite app_nil_r.
Qed.

Lemma dict_ext (V : Type) (d1 : dict V) : forall d2,
  dict_keys d1 = dict_keys d2 -> NoDup (dict_keys d1) ->
  (forall k, In k (dict_keys d1) -> dict_get d1 k = dict_get d2 k) ->
  d1 = d2.
Proof.
  induction d1 as [|[k1 v1] d1 IH]; intros [|[k2 v2] d2] Hk Hnd Hget;
    try discriminate; [reflexivity|].
  simpl in Hk. injection Hk as -> Hk.
  apply NoDup_cons_iff in Hnd as [Hn Hnd].
  pose proof (Hget k2 (or_introl eq_refl)) as H0. simpl in H0.
  rewrite String.eqb_refl in H0. injection H0 as ->.
  f_equal. apply IH; auto.
  intros k Hin. specialize (Hget k (or_intror Hin)). simpl in Hget.
  destruct (String.eqb_spec k2 k) as [->|]; [contradiction | exact Hget].
Qed.

Lemma last_slice_end_unique g k c c' :
  last_slice_end g k c -> last_slice_end g k c' -> c = c'.
Proof.
  intros [(e & He & Hk & <-) Hmax] [(e' & He' & Hk' & <-) Hmax'].
  specialize (Hmax e' He' Hk'). specialize (Hmax' e He Hk). lia.
Qed.

Lemma last_slice_end_process_events g k c :
  k <> IDLE -> last_slice_end g k c ->
  last_slice_end (process_events g) k c.
Proof.
  intros Hk [(e & He & Hpe & Hc) Hmax]. split.
  - exists e. split; [|auto]. apply filter_In. split; [exact He|].
    rewrite Hpe. destruct (String.eqb_spec k IDLE); [contradiction | reflexivity].
  - intros e' He' Hpe'. apply filter_In in He' as [He' _]. auto.
Qed.

(** X12: Round Robin with a quantum at least as long as every burst is
    FCFS.  For a valid process list with no process named IDLE, the
    timeline of Round Robin is the timeline of FCFS without its idle
    entries, and the two engines return the same completion records. *)
Theorem rr_large_quantum_is_fcfs quantum fuel l :
  validb l = true -> l <> [] -> no_idle_pid l = true ->
  forallb (fun p => burst p <=? quantum) l = true ->
  (fuel_bound l <= fuel)%nat ->
  exists g r gF,
    snd (simulate RoundRobin quantum fuel l) = Done (g, r) /\
    snd (simulate FCFS quantum fuel l) = Done (gF, r) /\
    g = process_events gF.
Proof.
  intros Hv Hne Hidle Hbigb Hfuel.
  pose proof (validb_NoDup _ Hv) as Hnd0.
  pose proof (sorted_NoDup _ Hnd0) as Hnd.
  pose proof (sorted_Forall (validb_burst _ Hv)) as Hb.
  pose proof (sort_by_sorted arrival l) as Hso.
  assert (Hbig0 : Forall (fun p => burst p <= quantum) l).
  { rewrite forallb_forall in Hbigb. apply Forall_forall.
    intros p Hp. specialize (Hbigb p Hp). lia. }
  pose proof (sorted_Forall Hbig0) as Hbig.
  assert (Hq : 0 < quantum).
  { destruct l as [|p l']; [congruence|].
    pose proof (validb_burst _ Hv) as HF.
    apply Forall_inv in HF. apply Forall_inv in Hbig0. lia. }
  assert (HqR : RoundRobin = RoundRobin -> 0 < quantum) by auto.
  assert (HqF : FCFS = RoundRobin -> 0 < quantum) by auto.
  (* the timeline of Round Robin *)
  destruct (@rr_engine_reach l quantum fuel Hv Hne Hq Hfuel)
    as (p0 & rest & st & res & Hs & Hrun & _ & Hreach & Hinv & _ & Hc).
  pose proof (@rr_reach_fifo _ quantum p0 rest Hs Hnd Hb Hq Hso Hbig st Hreach)
    as [Hord Hwhole].
  assert (Hend : rr_ready st = [] /\ firstn (rr_i st) (sort_by arrival l)
                                    = sort_by arrival l).
  { pose proof (Permutation_length (rr_perm Hinv)) as Hlen.
    rewrite length_app, !length_map, length_firstn in Hlen.
    pose proof (rr_i_le Hinv) as Hi.
    unfold rr_cond in Hc. apply Nat.ltb_ge in Hc.
    rewrite dict_len_keys in Hc. split.
    - destruct (rr_ready st); [reflexivity | simpl in Hlen; lia].
    - apply firstn_all2. lia. }
  destruct Hend as [Hr Hall]. rewrite Hr, Hall, app_nil_r in Hord.
  assert (Hg : rr_gantt st = serve (arrival p0) (sort_by arrival l)).
  { apply serve_unique with (ps := sort_by arrival l); auto.
    - apply incl_refl.
    - apply (rr_links Hinv).
    - intros e p He Hp. rewrite Hs in Hp. injection Hp as <-.
      pose proof (rr_head Hinv) as Hhd.
      destruct (rr_gantt st); [discriminate|]. injection He as ->. lia. }
  (* the timeline of FCFS *)
  destruct (fcfs_unfold l) as (t & gF & rF & Hfold & Hfc).
  assert (HgF : process_events gF = serve (arrival p0) (sort_by arrival l)).
  { rewrite (@fcfs_serve _ _ _ _ _ _ _ Hfold).
    - simpl. rewrite Hs. simpl.
      assert (Ha : 0 <= arrival p0).
      { pose proof (validb_arrival _ Hv) as Ha. rewrite Forall_forall in Ha.
        apply Ha. apply sorted_In. rewrite Hs. now left. }
      rewrite Z.max_id. rewrite (Z.max_r 0) by lia. reflexivity.
    - apply sorted_Forall. now apply no_idle_pid_Forall. }
  (* the records *)
  destruct (@simulate_events RoundRobin quantum fuel l Hv Hne HqR Hfuel)
    as (g1 & r1 & Hrun1 & _ & _ & Hrr).
  destruct (@simulate_events FCFS quantum fuel l Hv Hne HqF Hfuel)
    as (g2 & r2 & Hrun2 & Hff & _ & _).
  destruct (@simulate_completion FCFS quantum fuel l Hv Hne HqF Hfuel)
    as (g3 & r3 & Hrun3 & Hcomp).
  rewrite Hrun2 in Hrun3. injection Hrun3 as <- <-.
  change (snd (simulate RoundRobin quantum fuel l))
    with (snd (round_robin fuel l quantum)) in Hrun1.
  rewrite Hrun in Hrun1. injection Hrun1 as <- <-.
  change (snd (simulate FCFS quantum fuel l)) with (snd (fcfs l)) in Hrun2.
  rewrite Hfc in Hrun2. simpl in Hrun2. injection Hrun2 as <- <-.
  destruct (Hrr eq_refl) as (_ & Hkr & Hcr).
  destruct (Hff eq_refl) as (_ & Hkf).
  assert (Hres : res = rF).
  { apply dict_ext.
    - now rewrite Hkr, Hkf.
    - now rewrite Hkr.
    - intros k Hk. rewrite Hkr in Hk.
      apply in_map_iff in Hk as (p & <- & Hp).
      apply (proj1 (sorted_In l p)) in Hp.
      destruct (Hcr p Hp) as (c & Hget & _ & Hlast).
      destruct (Hcomp p Hp) as (c' & Hget' & _ & Hlast').
      assert (Hpid : pid p <> IDLE) by (eapply no_idle_pid_spec; eauto).
      specialize (Hlast' (fun _ => Hpid)).
      apply last_slice_end_process_events in Hlast'; [|exact Hpid].
      rewrite HgF, <- Hg in Hlast'.
      rewrite Hget, Hget'. do 2 f_equal. f_equal.
      eapply last_slice_end_unique; eauto. }
  exists (rr_gantt st), res, gF.
  split; [exact Hrun|]. split.
  - simpl. rewrite Hfc. simpl. now rewrite Hres.
  - now rewrite Hg, HgF.
Qed.

Lemma rr_large_quantum_is_fcfs_witness :
  exists g r gF,
    snd (simulate RoundRobin 4 20 [P "P1" 3 4; P "P2" 1 3; P "P3" 9 2])
    = Done (g, r) /\
    snd (simulate FCFS 4 20 [P "P1" 3 4; P "P2" 1 3; P "P3" 9 2])
    = Done (gF, r) /\
    g = process_events gF.
Proof.
  apply (@rr_large_quantum_is_fcfs 4 20
           [P "P1" 3 4; P "P2" 1 3; P "P3" 9 2]).
  - reflexivity.
  - discriminate.
  - reflexivity.
  - reflexivity.
  - vm_compute. lia.
Defined.

(** ** The default process table *)

Lemma default_pid_inj : Injective default_pid.
Proof.
  intros i j H. unfold default_pid in H. simpl in H. injection H as H.
  assert (Hu : Some (Nat.to_uint (i + 1)) = Some (Nat.to_uint (j + 1))).
  { rewrite <- !NilEmpty.usu. now rewrite H. }
  injection Hu as Hu. apply (f_equal Nat.of_uint) in Hu.
  rewrite !DecimalNat.Unsigned.of_to in Hu. lia.
Qed.

Lemma default_sorted bursts prios len : forall start,
  StronglySorted (key_le arrival)
    (map (fun i =>
            mkProcess (default_pid i) (Z.of_nat i) (nth i bursts 0)
              (nth i prios 0))
         (seq start len)).
Proof.
  induction len as [|len IH]; intros start; simpl; constructor; [apply IH|].
  apply Forall_forall. intros p Hp.
  apply in_map_iff in Hp as (i & <- & Hi). apply in_seq in Hi.
  unfold key_le. simpl. lia.
Qed.

Lemma default_data_facts n bursts prios :
  length bursts = n -> Forall (fun b => 2 <= b <= 8) bursts ->
  validb (default_data n bursts prios) = true /\
  no_idle_pid (default_data n bursts prios) = true /\
  length (default_data n bursts prios) = n /\
  total_burst (default_data n bursts prios) <= 8 * Z.of_nat n.
Proof.
  intros Hlen Hb. unfold default_data.
  set (mk := fun i => mkProcess (default_pid i) (Z.of_nat i)
                        (nth i bursts 0) (nth i prios 0)).
  assert (Hrange : forall i, (i < n)%nat -> 2 <= nth i bursts 0 <= 8).
  { intros i Hi. rewrite Forall_forall in Hb. apply Hb.
    apply nth_In. lia. }
  split; [|split; [|split]].
  - unfold validb. apply andb_true_intro. split.
    + apply NoDup_nodupb. rewrite map_map. simpl.
      apply Injective_map_NoDup; [apply default_pid_inj | apply seq_NoDup].
    + apply forallb_forall. intros p Hp.
      apply in_map_iff in Hp as (i & <- & Hi). apply in_seq in Hi.
      simpl. specialize (Hrange i ltac:(lia)).
      apply andb_true_intro. split; lia.
  - unfold no_idle_pid. apply negb_true_iff. apply mem_str_false.
    intros Hin. rewrite map_map in Hin. simpl in Hin.
    apply in_map_iff in Hin as (i & Hi & _). discriminate.
  - now rewrite length_map, length_seq.
  - unfold total_burst. rewrite map_map. simpl.
    assert (Hgen : forall len start, (start + len <= n)%nat ->
              zsum (map (fun i => nth i bursts 0) (seq start len))
              <= 8 * Z.of_nat len).
    { induction len as [|len IH]; intros start Hs; simpl; [lia|].
      specialize (IH (S start) ltac:(lia)).
      specialize (Hrange start ltac:(lia)). lia. }
    apply Hgen. lia.
Qed.

(** X13: the table the page proposes is always a valid process list, for
    every number of processes and all draws of the bursts in 2..8: the
    pids are distinct, none is IDLE, and the table is in arrival order, so
    that the engines leave it as it is.  With at least one process and a
    quantum >= 1 every algorithm returns on it, and the metrics table has
    one row per process. *)
Theorem default_table_runs n bursts prios a quantum fuel :
  length bursts = n -> Forall (fun b => 2 <= b <= 8) bursts ->
  validb (default_data n bursts prios) = true /\
  no_idle_pid (default_data n bursts prios) = true /\
  processes_after a quantum fuel (default_data n bursts prios)
  = default_data n bursts prios /\
  ((1 <= n)%nat -> 1 <= quantum -> (16 * n + 2 <= fuel)%nat ->
   exists g m,
     run_simulation a quantum fuel (default_data n bursts prios)
     = Done (g, m) /\
     length (fst (fst m)) = n).
Proof.
  intros Hlen Hb.
  destruct (default_data_facts prios Hlen Hb) as (Hv & Hidle & Hn & Htb).
  split; [exact Hv|]. split; [exact Hidle|]. split.
  - rewrite processes_after_eq. apply sort_by_fixed.
    apply default_sorted.
  - intros H1 Hq Hfuel.
    assert (Hne : default_data n bursts prios <> []).
    { intros E. rewrite E in Hn. simpl in Hn. lia. }
    assert (Hfb : (fuel_bound (default_data n bursts prios) <= fuel)%nat).
    { unfold fuel_bound. lia. }
    destruct (@simulate_keys a quantum fuel _ Hv Hne ltac:(intros; lia) Hfb)
      as (g & r & Hrun & Hperm & _ & _).
    unfold run_simulation. rewrite Hrun.
    exists g, (calculate_metrics r). split; [reflexivity|].
    simpl. rewrite length_map.
    change (length r) with (length (A:=string * Completion) r).
    rewrite <- (length_map fst r).
    fold (dict_keys r). rewrite (Permutation_length Hperm), length_map.
    exact Hn.
Qed.

Lemma default_table_runs_witness :
  validb (default_data 3 [5; 2; 8] [1; 3; 2]) = true /\
  no_idle_pid (default_data 3 [5; 2; 8] [1; 3; 2]) = true /\
  processes_after RoundRobin 2 50 (default_data 3 [5; 2; 8] [1; 3; 2])
  = default_data 3 [5; 2; 8] [1; 3; 2] /\
  ((1 <= 3)%nat -> 1 <= 2 -> (16 * 3 + 2 <= 50)%nat ->
   exists g m,
     run_simulation RoundRobin 2 50 (default_data 3 [5; 2; 8] [1; 3; 2])
     = Done (g, m) /\
     length (fst (fst m)) = 3%nat).
Proof.
  apply (@default_table_runs 3 [5; 2; 8] [1; 3; 2] RoundRobin 2 50).
  - reflexivity.
  - repeat constructor; lia.
Defined.
